(** * Karnaugh-map solver (lib/kmap.ts): a shallow embedding and its properties

    The TypeScript module [lib/kmap.ts] minimises a Boolean function with the
    Quine-McCluskey procedure followed by Petrick's method.  This file
    translates its functions into Rocq, one definition per source function,
    and proves properties of them.

    Modelling conventions.
    - A JavaScript string is a list of characters ([str]).  Indexing a string
      out of range gives [undefined]: [charAt] returns an [option].
    - The numbers in [minterms] and [dontCares] are integers ([Z]); negative
      ones are kept, their binary expansion starts with a minus sign as
      [Number.prototype.toString(2)] prints it.  Fractions, NaN and the
      infinities are outside the model.
    - Array indices are [nat].
    - A [Map] is an association list in insertion order (the order in which
      [for ... of] visits it); a [Set] is a duplicate-free list in insertion
      order.
    - The [while (true)] loop of the generator takes fuel; the entry point
      supplies enough of it, which is proved.
    - A property access on [undefined] (a [TypeError]) is an outcome of its
      own, so that "does not crash" is a statement about the model. *)

From Stdlib Require Import String Ascii.
From Stdlib Require Import List ZArith Bool Lia Arith PeanoNat.
From Stdlib Require Import DecimalString Sorted.
From Stdlib Require DecimalNat DecimalFacts.
Import ListNotations.

Local Open Scope list_scope.
Local Open Scope nat_scope.

(** ** Strings *)

Abbreviation str := (list ascii).

(** A string literal of the source. *)
Definition lit (s : string) : str := list_ascii_of_string s.

Definition ascii_eqb_opt (x y : option ascii) : bool :=
  match x, y with
  | Some a, Some b => Ascii.eqb a b
  | None, None => true
  | _, _ => false
  end.

Fixpoint str_eqb (a b : str) : bool :=
  match a, b with
  | [], [] => true
  | x :: a', y :: b' => Ascii.eqb x y && str_eqb a' b'
  | _, _ => false
  end.

(** [s[i]]: the character at index [i], or [undefined]. *)
Definition charAt (s : str) (i : nat) : option ascii := nth_error s i.

Definition dash : ascii := "-"%char.
Definition zero : ascii := "0"%char.
Definition one : ascii := "1"%char.

(** [s.padStart(width, '0')] *)
Definition padStart (s : str) (width : nat) (fill : ascii) : str :=
  repeat fill (width - length s) ++ s.

(** ** Data model *)

Record Implicant := mkImplicant {
  bits : str;
  covered : list Z
}.

Record SolveOptions := mkOptions {
  numInputs : Z;
  minterms : list Z;
  dontCares : option (list Z);
  vars : option (list str)
}.

Record SolveResult := mkResult {
  resNumInputs : Z;
  primeImplicants : list Implicant;
  essentialPrimeImplicants : list Implicant;
  selectedImplicants : list Implicant;
  expression : str;
  latex : str
}.

Definition DEFAULT_VARS : list str :=
  [lit "A"; lit "B"; lit "C"; lit "D"; lit "E"; lit "F"].

(** ** Binary expansion *)

(** The binary digits of a positive number, most significant first. *)
Fixpoint posDigits (p : positive) (acc : str) : str :=
  match p with
  | xH => one :: acc
  | xO q => posDigits q (zero :: acc)
  | xI q => posDigits q (one :: acc)
  end.

(** [n.toString(2)] for an integer [n]. *)
Definition toString2 (n : Z) : str :=
  match n with
  | Z0 => [zero]
  | Zpos p => posDigits p []
  | Zneg p => dash :: posDigits p []
  end.

Definition toBinary (n : Z) (width : nat) : str :=
  padStart (toString2 n) width zero.

Definition countOnes (s : str) : nat :=
  fold_left (fun c ch => if Ascii.eqb ch one then S c else c) s 0.

(** ** combine *)

(** The body of the [for] loop of [combine], from index [i] on: [a] and [b]
    are the parts of the two strings not yet read ([b] runs out first when it
    is the shorter one, and then reads as [undefined]). *)
Fixpoint combineFrom (a b : str) (diff : nat) (out : str) : option str :=
  match a with
  | [] => if diff =? 1 then Some out else None
  | ca :: a' =>
      let cb := hd_error b in
      if ascii_eqb_opt (Some ca) cb then
        if 1 <? diff then None else combineFrom a' (tl b) diff (out ++ [ca])
      else if negb (Ascii.eqb ca dash) && negb (ascii_eqb_opt cb (Some dash)) then
        if 1 <? S diff then None else combineFrom a' (tl b) (S diff) (out ++ [dash])
      else None
  end.

Definition combine (a b : str) : option str := combineFrom a b 0 [].

(** ** Arrays, sets and maps of the JavaScript runtime *)

Section Sorting.
Context {A : Type} (leb : A -> A -> bool).

Fixpoint insertSorted (x : A) (l : list A) : list A :=
  match l with
  | [] => [x]
  | y :: l' => if leb x y then x :: l else y :: insertSorted x l'
  end.

(** [arr.sort(cmp)] for a comparator [cmp] with [cmp(x,y) <= 0] iff
    [leb x y]: a stable sort (ECMAScript 2019), here by insertion from the
    right. *)
Definition sortBy (l : list A) : list A := fold_right insertSorted [] l.
End Sorting.

Section Sets.
Context {A : Type} (eqb : A -> A -> bool).

Definition setHas (s : list A) (x : A) : bool := existsb (eqb x) s.

Definition setAdd (s : list A) (x : A) : list A :=
  if setHas s x then s else s ++ [x].

(** [new Set(l)], in insertion order. *)
Definition setFrom (l : list A) : list A := fold_left setAdd l [].
End Sets.

Section Maps.
Context {K V : Type} (keqb : K -> K -> bool).

Fixpoint mapGet (m : list (K * V)) (k : K) : option V :=
  match m with
  | [] => None
  | (k', v) :: m' => if keqb k' k then Some v else mapGet m' k
  end.

(** [m.set(k, v)]: an existing key keeps its place. *)
Fixpoint mapSet (m : list (K * V)) (k : K) (v : V) : list (K * V) :=
  match m with
  | [] => [(k, v)]
  | (k', v') :: m' =>
      if keqb k' k then (k, v) :: m' else (k', v') :: mapSet m' k v
  end.
End Maps.

(** [m.get(k) ?? []] *)
Definition getOrEmpty {K V : Type} (keqb : K -> K -> bool)
    (m : list (K * list V)) (k : K) : list V :=
  match mapGet keqb m k with
  | Some arr => arr
  | None => []
  end.

(** [Array.from(new Set(l)).sort((a,b)=>a-b)] on integers and on indices. *)
Definition sortedSetZ (l : list Z) : list Z := sortBy Z.leb (setFrom Z.eqb l).
Definition sortedSetNat (l : list nat) : list nat := sortBy Nat.leb (setFrom Nat.eqb l).

(** [arr.join(sep)] on an array of strings. *)
Fixpoint join (sep : str) (l : list str) : str :=
  match l with
  | [] => []
  | [x] => x
  | x :: rest => x ++ sep ++ join sep rest
  end.

(** An element of a JavaScript array of strings read past the end of another
    array is [undefined]; [join] prints it as the empty string, string
    concatenation and template literals print it as "undefined". *)
Definition joinElem (v : option str) : str :=
  match v with Some s => s | None => [] end.

Definition toStr (v : option str) : str :=
  match v with Some s => s | None => lit "undefined" end.

(** ** uniqueByBits, coveredBy, expandCoverage *)

Definition sameBits (bs : str) (x : Implicant) : bool := str_eqb (bits x) bs.

Definition uniqueByBits (imps : list Implicant) : list Implicant :=
  snd (fold_left
         (fun '(seen, res) imp =>
            if setHas str_eqb seen (bits imp) then (seen, res)
            else (setAdd str_eqb seen (bits imp), res ++ [imp]))
         imps ([], [])).

Definition coveredBy (bs : str) (m : Z) (width : nat) : bool :=
  let b := toBinary m width in
  forallb
    (fun i =>
       ascii_eqb_opt (charAt bs i) (Some dash)
       || ascii_eqb_opt (charAt bs i) (charAt b i))
    (seq 0 width).

Definition expandCoverage (bs : str) (universe : list Z) (width : nat) : list Z :=
  filter (fun m => coveredBy bs m width) universe.

(** ** Rendering *)

Definition formatImplicant (bs : str) (vars : list str) : str :=
  let out :=
    fold_left
      (fun (out : list (option str)) i =>
         match charAt bs i with
         | Some ch =>
             if Ascii.eqb ch dash then out
             else if Ascii.eqb ch one then out ++ [nth_error vars i]
             else out ++ [Some (toStr (nth_error vars i) ++ lit "'")]
         | None => out ++ [Some (toStr (nth_error vars i) ++ lit "'")]
         end)
      (seq 0 (length bs)) [] in
  if length out =? 0 then lit "1" else join [] (map joinElem out).

Definition formatImplicantLatex (bs : str) (vars : list str) : str :=
  let out :=
    fold_left
      (fun (out : list (option str)) i =>
         match charAt bs i with
         | Some ch =>
             if Ascii.eqb ch dash then out
             else if Ascii.eqb ch one then out ++ [nth_error vars i]
             else out ++ [Some (lit "\overline{" ++ toStr (nth_error vars i) ++ lit "}")]
         | None => out ++ [Some (lit "\overline{" ++ toStr (nth_error vars i) ++ lit "}")]
         end)
      (seq 0 (length bs)) [] in
  if negb (length out =? 0) then join (lit " ") (map joinElem out) else lit "1".

(** ** Petrick's method *)

Definition isSubset (a b : list nat) : bool :=
  forallb (fun x => setHas Nat.eqb b x) a.

Definition natToStr (n : nat) : str :=
  list_ascii_of_string (NilZero.string_of_uint (Nat.to_uint n)).

(** [arr.join(',')] on an array of indices: the key of [minimizeSets]. *)
Definition key (arr : list nat) : str := join (lit ",") (map natToStr arr).

(** The inner [for] loop of [minimizeSets] over [unique], for the set [s]:
    it stops at the first member that is a subset of [s] ([dominated]) and
    splices out the members that [s] is a subset of on its way. *)
Fixpoint scanUnique (s : list nat) (unique : list (list nat)) : bool * list (list nat) :=
  match unique with
  | [] => (false, [])
  | u :: rest =>
      if isSubset u s then (true, u :: rest)
      else if isSubset s u then scanUnique s rest
      else let '(dominated, rest') := scanUnique s rest in (dominated, u :: rest')
  end.

Definition minimizeStep (st : list (list nat) * list str) (s : list nat)
    : list (list nat) * list str :=
  let '(unique, seen) := st in
  let k := key s in
  if setHas str_eqb seen k then (unique, seen)
  else
    let '(dominated, unique') := scanUnique s unique in
    if dominated then (unique', seen)
    else (unique' ++ [s], setAdd str_eqb seen k).

Definition byLength (a b : list nat) : bool := length a <=? length b.

Definition minimizeSets (sets : list (list nat)) : list (list nat) :=
  fst (fold_left minimizeStep (sortBy byLength sets) ([], [])).

(** One turn of the outer loop of [petricksMethod]. *)
Definition petrickFold (solutions : list (list nat)) (choices : list nat)
    : list (list nat) :=
  minimizeSets
    (flat_map (fun sol => map (fun c => sortedSetNat (sol ++ [c])) choices)
       solutions).

(** The value of [solutions] when the outer loop ends. *)
Definition petrickSolutions (coverSets : list (list nat)) : list (list nat) :=
  fold_left petrickFold coverSets [[]].

Definition petricksMethod (coverSets : list (list nat)) : list nat :=
  match sortBy byLength (petrickSolutions coverSets) with
  | s :: _ => s
  | [] => []
  end.

(** ** The implicant generator *)

Definition Groups : Type := list (nat * list Implicant).

(** Step 1 of [minimizeKMapJS]: the universe grouped by number of ones. *)
Definition initGroups (universe : list Z) (width : nat) : Groups :=
  fold_left
    (fun (groups : Groups) m =>
       let bs := toBinary m width in
       let ones := countOnes bs in
       let imp := {| bits := bs; covered := [m] |} in
       let arr := getOrEmpty Nat.eqb groups ones in
       mapSet Nat.eqb groups ones (arr ++ [imp]))
    universe [].

(** What one turn of the [while] loop builds while it pairs groups. *)
Record RoundState := mkRound {
  nextGroups : Groups;
  taken : list str;
  anyCombined : bool
}.

(** [comb.replace(/-/g,'')] *)
Definition removeDashes (s : str) : str :=
  filter (fun ch => negb (Ascii.eqb ch dash)) s.

(** The body of the two inner [for ... of] loops, for one pair. *)
Definition tryCombine (a b : Implicant) (st : RoundState) : RoundState :=
  match combine (bits a) (bits b) with
  | Some (c :: cs) =>
      let comb := c :: cs in
      let ones := countOnes (removeDashes comb) in
      let imp := {| bits := comb;
                    covered := sortedSetZ (covered a ++ covered b) |} in
      let arr := getOrEmpty Nat.eqb (nextGroups st) ones in
      let arr' := if existsb (sameBits comb) arr then arr else arr ++ [imp] in
      {| nextGroups := mapSet Nat.eqb (nextGroups st) ones arr';
         taken := setAdd str_eqb (setAdd str_eqb (taken st) (bits a)) (bits b);
         anyCombined := true |}
  | _ => st
  end.

Definition combineGroups (gA gB : list Implicant) (st : RoundState) : RoundState :=
  fold_left (fun st a => fold_left (fun st b => tryCombine a b st) gB st) gA st.

(** The loop over [gi]: neighbours in the sorted list of keys. *)
Fixpoint combineAdjacent (currentGroups : Groups) (keys : list nat)
    (st : RoundState) : RoundState :=
  match keys with
  | k1 :: ((k2 :: _) as rest) =>
      combineAdjacent currentGroups rest
        (combineGroups (getOrEmpty Nat.eqb currentGroups k1)
                       (getOrEmpty Nat.eqb currentGroups k2) st)
  | _ => st
  end.

(** The state at the top of a turn of the [while] loop. *)
Definition roundStart : RoundState :=
  {| nextGroups := []; taken := []; anyCombined := false |}.

Definition runRound (currentGroups : Groups) : RoundState :=
  combineAdjacent currentGroups
    (sortBy Nat.leb (map fst currentGroups))
    roundStart.

(** The loop that moves the implicants not taken in this round to
    [allPrime]. *)
Definition collectOne (taken : list str) (allPrime : list Implicant)
    (imp : Implicant) : list Implicant :=
  if setHas str_eqb taken (bits imp) then allPrime
  else if existsb (sameBits (bits imp)) allPrime then allPrime
  else allPrime ++ [imp].

Definition collectPrimes (currentGroups : Groups) (taken : list str)
    (allPrime : list Implicant) : list Implicant :=
  fold_left
    (fun allPrime (entry : nat * list Implicant) =>
       fold_left (collectOne taken) (snd entry) allPrime)
    currentGroups allPrime.

(** Step 2, the [while (true)] loop.  [rounds] counts the turns in which
    something was combined; [None] means the fuel ran out. *)
Fixpoint combineLoop (fuel : nat) (currentGroups : Groups)
    (allPrime : list Implicant) (rounds : nat)
    : option (list Implicant * nat) :=
  match fuel with
  | 0 => None
  | S fuel' =>
      let st := runRound currentGroups in
      let allPrime' := collectPrimes currentGroups (taken st) allPrime in
      if anyCombined st
      then combineLoop fuel' (nextGroups st) allPrime' (S rounds)
      else Some (allPrime', rounds)
  end.

(** ** minimizeKMapJS *)

Inductive Outcome :=
| Returned (r : SolveResult)
| Threw (msg : str)       (* [throw new Error(msg)] *)
| TypeError               (* a property of [undefined] was read *)
| OutOfFuel.              (* the model of the [while] loop ran out of fuel *)

Definition Chart : Type := list (Z * list nat).

(** Step 3: the prime implicants with their coverage of the required
    minterms. *)
Definition primeChart (allPrime : list Implicant) (minterms : list Z)
    (width : nat) : list Implicant :=
  map (fun imp => {| bits := bits imp;
                     covered := expandCoverage (bits imp) minterms width |})
      (uniqueByBits allPrime).

(** [mToImps]: for a minterm, the indices of the primes that cover it. *)
Definition chartPush (i : nat) (mToImps : Chart) (m : Z) : Chart :=
  mapSet Z.eqb mToImps m (getOrEmpty Z.eqb mToImps m ++ [i]).

Fixpoint buildChart (i : nat) (primes : list Implicant) (mToImps : Chart) : Chart :=
  match primes with
  | [] => mToImps
  | p :: rest => buildChart (S i) rest (fold_left (chartPush i) (covered p) mToImps)
  end.

Definition essentialStep (mToImps : Chart) (essential : list nat) (m : Z) : list nat :=
  match getOrEmpty Z.eqb mToImps m with
  | [i] => setAdd Nat.eqb essential i
  | _ => essential
  end.

Definition essentialOf (mToImps : Chart) (minterms : list Z) : list nat :=
  fold_left (essentialStep mToImps) minterms [].

(** [coveredMinterms]; reading [primes[ei].covered] fails when [primes[ei]]
    is [undefined]. *)
Definition coveredStep (primes : list Implicant) (acc : option (list Z)) (ei : nat)
    : option (list Z) :=
  match acc, nth_error primes ei with
  | Some coveredMinterms, Some p =>
      Some (fold_left (setAdd Z.eqb) (covered p) coveredMinterms)
  | _, _ => None
  end.

Definition coveredMintermsOf (primes : list Implicant) (essential : list nat)
    : option (list Z) :=
  fold_left (coveredStep primes) essential (Some []).

Definition remainingOf (minterms coveredMinterms : list Z) : list Z :=
  filter (fun m => negb (setHas Z.eqb coveredMinterms m)) minterms.

Definition chosenOf (mToImps : Chart) (essential : list nat) (remaining : list Z)
    : list nat :=
  let chosen := setFrom Nat.eqb essential in
  if 0 <? length remaining then
    let coverSets := map (getOrEmpty Z.eqb mToImps) remaining in
    let pick := petricksMethod coverSets in
    fold_left (setAdd Nat.eqb) pick chosen
  else chosen.

(** [indices.map(i => primes[i])], each element then read as an implicant. *)
Fixpoint lookupAll (primes : list Implicant) (indices : list nat)
    : option (list Implicant) :=
  match indices with
  | [] => Some []
  | i :: rest =>
      match nth_error primes i, lookupAll primes rest with
      | Some p, Some ps => Some (p :: ps)
      | _, _ => None
      end
  end.

(** [s || '0'] *)
Definition orZero (s : str) : str :=
  match s with [] => lit "0" | _ => s end.

Definition effectiveVars (opts : SolveOptions) : list str :=
  match vars opts with
  | Some v =>
      if (numInputs opts <=? Z.of_nat (length v))%Z then v
      else firstn (Z.to_nat (numInputs opts)) DEFAULT_VARS
  | None => firstn (Z.to_nat (numInputs opts)) DEFAULT_VARS
  end.

Definition mintermsOf (opts : SolveOptions) : list Z := sortedSetZ (minterms opts).

Definition dontCaresOf (opts : SolveOptions) : list Z :=
  sortedSetZ (match dontCares opts with Some d => d | None => [] end).

Definition universeOf (opts : SolveOptions) : list Z :=
  sortedSetZ (mintermsOf opts ++ dontCaresOf opts).

(** Fuel for the [while] loop: one more than the longest initial pattern. *)
Definition loopFuel (universe : list Z) (width : nat) : nat :=
  S (list_max (map (fun m => length (toBinary m width)) universe)).

Definition generate (universe : list Z) (width : nat) : option (list Implicant * nat) :=
  combineLoop (loopFuel universe width) (initGroups universe width) [] 0.

Definition minimizeKMapJS (opts : SolveOptions) : Outcome :=
  let width := numInputs opts in
  if ((width <? 2) || (6 <? width))%Z then
    Threw (lit "numInputs must be between 2 and 6.")
  else
    let w := Z.to_nat width in
    let vars := effectiveVars opts in
    let minterms := mintermsOf opts in
    let universe := universeOf opts in
    match generate universe w with
    | None => OutOfFuel
    | Some (allPrime, _) =>
        let primes := primeChart allPrime minterms w in
        let mToImps := buildChart 0 primes [] in
        let essential := essentialOf mToImps minterms in
        match coveredMintermsOf primes essential with
        | None => TypeError
        | Some coveredMinterms =>
            let remaining := remainingOf minterms coveredMinterms in
            let chosen := chosenOf mToImps essential remaining in
            match lookupAll primes (sortBy Nat.leb chosen),
                  lookupAll primes (sortBy Nat.leb essential) with
            | Some selected, Some essentials =>
                let exprTerms := map (fun imp => formatImplicant (bits imp) vars) selected in
                let latexTerms := map (fun imp => formatImplicantLatex (bits imp) vars) selected in
                Returned {|
                  resNumInputs := width;
                  primeImplicants := primes;
                  essentialPrimeImplicants := essentials;
                  selectedImplicants := selected;
                  expression := orZero (join (lit " + ") exprTerms);
                  latex := lit "$F = " ++ join (lit " + ") latexTerms ++ lit "$"
                |}
            | _, _ => TypeError
            end
        end
    end.

(** ** Vocabulary of the statements *)

(** A concrete bit of a pattern. *)
Definition isConcrete (c : ascii) : Prop := c = zero \/ c = one.

(** A pattern over the alphabet 0, 1, -. *)
Definition overAlphabet (s : str) : Prop :=
  Forall (fun c => c = zero \/ c = one \/ c = dash) s.

(** The number of positions of a pattern that hold '-', and the number that
    do not. *)
Definition countDashes (s : str) : nat :=
  length (filter (fun ch => Ascii.eqb ch dash) s).

Definition countConcrete (s : str) : nat := length (removeDashes s).

(** The head of a list sorted by length is a shortest member. *)
Definition headShortest (l : list (list nat)) : Prop :=
  match l with
  | [] => True
  | s :: _ => forall t, In t l -> length s <= length t
  end.

(** The implicants held by a map of groups. *)
Definition members {K V : Type} (m : list (K * list V)) : list V := flat_map snd m.

(** ** Inputs used as examples *)

(** Scenario 1 of the specification: four inputs, eight minterms. *)
Definition checkerboardExample : SolveOptions :=
  {| numInputs := 4; minterms := [0; 2; 5; 7; 8; 10; 13; 15]%Z;
     dontCares := None; vars := None |}.

(** Two inputs and the minterm 4, which does not fit in two bits. *)
Definition outOfRangeExample : SolveOptions :=
  {| numInputs := 2; minterms := [4]%Z; dontCares := None; vars := None |}.

(** Three inputs and no minterm. *)
Definition emptyExample : SolveOptions :=
  {| numInputs := 3; minterms := []; dontCares := Some []; vars := None |}.

(** One input: outside the range the function accepts. *)
Definition oneInputExample : SolveOptions :=
  {| numInputs := 1; minterms := [0; 1]%Z; dontCares := None; vars := None |}.

(** Scenario 2: all four cells of a map of two inputs. *)
Definition tautologyExample : SolveOptions :=
  {| numInputs := 2; minterms := [0; 1; 2; 3]%Z; dontCares := None; vars := None |}.

(** Scenario 4: all eight cells, with the names X, Y and Z. *)
Definition namedVarsExample : SolveOptions :=
  {| numInputs := 3; minterms := [0; 1; 2; 3; 4; 5; 6; 7]%Z; dontCares := None;
     vars := Some [lit "X"; lit "Y"; lit "Z"] |}.

(** Four inputs with two don't-cares. *)
Definition dontCareExample : SolveOptions :=
  {| numInputs := 4; minterms := [4; 8; 10; 11; 12; 15]%Z;
     dontCares := Some [9; 14]%Z; vars := None |}.

(** A cyclic chart: no prime implicant is essential. *)
Definition cyclicExample : SolveOptions :=
  {| numInputs := 3; minterms := [0; 1; 2; 5; 6; 7]%Z;
     dontCares := None; vars := None |}.

(** ** Inputs within range *)

(** [m] is a cell of a map of [n] inputs. *)
Definition fitsIn (n : Z) (m : Z) : Prop := (0 <= m < 2 ^ n)%Z.

(** Every minterm and every don't-care fits in [numInputs] bits. *)
Definition inRange (opts : SolveOptions) : Prop :=
  Forall (fitsIn (numInputs opts)) (minterms opts) /\
  Forall (fitsIn (numInputs opts))
         (match dontCares opts with Some d => d | None => [] end).

(** The number of turns of the combining loop in which something was
    combined, for the universe of [opts]. *)
Definition mergingRounds (opts : SolveOptions) : option nat :=
  option_map snd (generate (universeOf opts) (Z.to_nat (numInputs opts))).

(** Two inputs and the eight numbers from 8 to 15, which take four bits. *)
Definition fourBitExample : SolveOptions :=
  {| numInputs := 2; minterms := [8; 9; 10; 11; 12; 13; 14; 15]%Z;
     dontCares := None; vars := None |}.

(** ** Terms of a rendered string *)

Fixpoint startsWith (p s : str) : bool :=
  match p, s with
  | [], _ => true
  | x :: p', y :: s' => Ascii.eqb x y && startsWith p' s'
  | _ :: _, [] => false
  end.

(** [s.split(sep)] for a non-empty separator, read from left to right:
    [cur] is the piece being read, [skip] the number of characters of a
    separator just found that are still to be passed over. *)
Fixpoint splitFrom (sep s : str) (skip : nat) (cur : str) : list str :=
  match s with
  | [] => [cur]
  | c :: s' =>
      match skip with
      | S k => splitFrom sep s' k cur
      | 0 =>
          if startsWith sep s then cur :: splitFrom sep s' (length sep - 1) []
          else splitFrom sep s' 0 (cur ++ [c])
      end
  end.

Definition splitOn (sep s : str) : list str := splitFrom sep s 0 [].

(** The separator between the terms of [expression] and of [latex]. *)
Definition plusSep : str := lit " + ".

(** The terms of a sum written with " + ": the pieces that [s.split(" + ")]
    gives, and none for the empty string. *)
Definition termsOf (s : str) : list str :=
  match s with
  | [] => []
  | _ => splitOn plusSep s
  end.

(** What stands in a [latex] string between "$F = " and the closing "$". *)
Definition latexBody (s : str) : str :=
  removelast (skipn (length (lit "$F = ")) s).

(** [p] occurs in [s]. *)
Definition occursIn (p s : str) : Prop := exists pre post, s = pre ++ p ++ post.

(** [s] ends in [p]. *)
Definition endsIn (p s : str) : Prop := exists pre, s = pre ++ p.

(** No " + " begins inside a term of the joined string: no term holds
    " + ", and no term but the last ends in " +". *)
Definition apart (ts : list str) : Prop :=
  (forall t, In t ts -> ~ occursIn plusSep t) /\
  (forall t, In t (removelast ts) -> ~ endsIn (lit " +") t).

(** The terms can be read back from their join by " + ": they are apart,
    and they are not the empty string alone, whose join is empty. *)
Definition termsApart (ts : list str) : Prop := ts <> [[]] /\ apart ts.

(** The renderings of the selected implicants, in their order. *)
Definition renderedTerms (opts : SolveOptions) (r : SolveResult) : list str :=
  map (fun imp => formatImplicant (bits imp) (effectiveVars opts))
      (selectedImplicants r).

Definition renderedLatexTerms (opts : SolveOptions) (r : SolveResult) : list str :=
  map (fun imp => formatImplicantLatex (bits imp) (effectiveVars opts))
      (selectedImplicants r).

(** A string without the character '+'. *)
Definition plusFree (s : str) : Prop := ~ In "+"%char s.

Definition plusFreeb (s : str) : bool :=
  negb (existsb (Ascii.eqb "+"%char) s).

(** Three inputs, the minterm 7, and the variable names A, + and B. *)
Definition plusVarExample : SolveOptions :=
  {| numInputs := 3; minterms := [7]%Z; dontCares := None;
     vars := Some [lit "A"; lit "+"; lit "B"] |}.

(** ** Vocabulary of the further properties *)

(** The number that a string of binary digits stands for, most significant
    digit first; a character other than 1 counts as the digit 0. *)
Definition binValue (s : str) : Z :=
  fold_left (fun v ch => (2 * v + (if Ascii.eqb ch one then 1 else 0))%Z) s 0%Z.

(** The character that joins the indices of a key. *)
Definition comma : ascii := ","%char.

(** Neither of two sets of indices is a subset of the other. *)
Definition incomparable (u u' : list nat) : Prop :=
  isSubset u u' = false /\ isSubset u' u = false.

(** The don't-cares of a call: [opts.dontCares ?? []]. *)
Definition givenDontCares (opts : SolveOptions) : list Z :=
  match dontCares opts with Some d => d | None => [] end.

(** The options [opts] with the variable names replaced. *)
Definition withVars (opts : SolveOptions) (v : option (list str)) : SolveOptions :=
  {| numInputs := numInputs opts; minterms := minterms opts;
     dontCares := dontCares opts; vars := v |}.

(** Scenario 1 again, its minterms shuffled and repeated, with an empty
    list of don't-cares and one minterm listed as a don't-care too. *)
Definition shuffledExample : SolveOptions :=
  {| numInputs := 4; minterms := [15; 0; 2; 2; 13; 5; 7; 8; 10; 0]%Z;
     dontCares := Some [5]%Z; vars := None |}.

(** Scenario 1 with eight names, and with three. *)
Definition longNamesExample : SolveOptions :=
  withVars checkerboardExample
    (Some [lit "w"; lit "x"; lit "y"; lit "z"; lit "p"; lit "q"; lit "r"; lit "s"]).

Definition shortNamesExample : SolveOptions :=
  withVars checkerboardExample (Some [lit "w"; lit "x"; lit "y"]).

(** ** Implicants and prime implicants of a function *)

(** [s] with the character at index [i] replaced by [c]. *)
Definition setChar (s : str) (i : nat) (c : ascii) : str :=
  firstn i s ++ c :: skipn (S i) s.

(** A pattern of [w] characters over 0, 1, - is an implicant of the
    function with the cells [universe] when every cell of the map that it
    covers is one of them. *)
Definition isImplicantOf (universe : list Z) (w : nat) (s : str) : Prop :=
  length s = w /\ overAlphabet s /\
  forall m, (0 <= m < 2 ^ Z.of_nat w)%Z -> coveredBy s m w = true -> In m universe.

(** An implicant is prime when no concrete bit of it can be replaced by '-'
    without leaving the function. *)
Definition isPrimeImplicantOf (universe : list Z) (w : nat) (s : str) : Prop :=
  isImplicantOf universe w s /\
  forall i c, nth_error s i = Some c -> c <> dash ->
              ~ isImplicantOf universe w (setChar s i dash).

(** Every implicant of a map of groups is found under its number of ones. *)
Definition groupedByOnes (g : Groups) : Prop :=
  forall x, In x (members g) -> In x (getOrEmpty Nat.eqb g (countOnes (bits x))).

(** What the groups hold at the top of turn [k] of the combining loop: the
    implicants with [k] dashes, all of them, each under its number of
    ones. *)
Definition holdsImplicantsWith (universe : list Z) (w k : nat) (g : Groups) : Prop :=
  (forall x, In x (members g) ->
             isImplicantOf universe w (bits x) /\ countDashes (bits x) = k) /\
  (forall s, isImplicantOf universe w s -> countDashes s = k ->
             exists x, In x (members g) /\ bits x = s) /\
  groupedByOnes g.

(** What a turn of the loop has done once the two halves of the pattern
    [pre ++ dash :: post] have met. *)
Definition halvesMet (pre post : str) (st : RoundState) : Prop :=
  (exists x, In x (members (nextGroups st)) /\ bits x = pre ++ dash :: post) /\
  In (pre ++ zero :: post) (taken st) /\
  In (pre ++ one :: post) (taken st) /\
  anyCombined st = true.

(** Three inputs and the minterm -1. *)
Definition negativeExample : SolveOptions :=
  {| numInputs := 3; minterms := [-1]%Z; dontCares := None; vars := None |}.

(** * Properties *)

Ltac alphabet_by_cases :=
  repeat (apply Forall_cons;
          [ (left; reflexivity) || (right; left; reflexivity)
            || (right; right; reflexivity) | ]);
  apply Forall_nil.

(** ** Characters and strings *)

Lemma ascii_eqb_opt_true (x y : option ascii) :
  ascii_eqb_opt x y = true <-> x = y.
Proof.
  destruct x as [a|], y as [b|]; simpl; split; intros H;
    try discriminate; try reflexivity.
  - apply Ascii.eqb_eq in H. now subst.
  - injection H as ->. apply Ascii.eqb_refl.
Qed.

Lemma ascii_eqb_opt_false (x y : option ascii) :
  ascii_eqb_opt x y = false <-> x <> y.
Proof.
  split.
  - intros H E. apply ascii_eqb_opt_true in E. congruence.
  - intros H. destruct (ascii_eqb_opt x y) eqn:E; [|reflexivity].
    apply ascii_eqb_opt_true in E. contradiction.
Qed.

Lemma str_eqb_eq (a b : str) : str_eqb a b = true <-> a = b.
Proof.
  revert b. induction a as [|x a IH]; intros [|y b]; simpl;
    try (split; [discriminate|discriminate]); try tauto.
  rewrite andb_true_iff, Ascii.eqb_eq, IH. split.
  - intros [-> ->]. reflexivity.
  - intros E. injection E as -> ->. auto.
Qed.

Lemma str_eqb_refl (a : str) : str_eqb a a = true.
Proof. now apply str_eqb_eq. Qed.

Lemma str_eqb_neq (a b : str) : str_eqb a b = false <-> a <> b.
Proof.
  split.
  - intros H E. apply str_eqb_eq in E. congruence.
  - intros H. destruct (str_eqb a b) eqn:E; [|reflexivity].
    apply str_eqb_eq in E. contradiction.
Qed.

(** ** combine *)

(** The loop of [combine] on two strings of one length: with one difference
    already seen the rest must agree; with none seen, exactly one position
    of the rest differs, and both characters there are not '-'. *)
Lemma combineFrom_iff (a : str) :
  forall (b : str) (diff : nat) (out res : str),
    length a = length b -> diff <= 1 ->
    (combineFrom a b diff out = Some res <->
     (diff = 1 /\ a = b /\ res = out ++ a) \/
     (diff = 0 /\ exists pre ca cb post,
         a = pre ++ ca :: post /\ b = pre ++ cb :: post /\
         ca <> cb /\ ca <> dash /\ cb <> dash /\
         res = out ++ pre ++ dash :: post)).
Proof.
  induction a as [|ca a IH]; intros [|cb b] diff out res Hlen Hd;
    simpl in Hlen; try discriminate.
  - simpl. destruct diff as [|[|d]]; simpl; [| |lia].
    + split; [discriminate|].
      intros [[? _]|[_ (pre & x & y & post & E & _)]]; [discriminate|].
      destruct pre; discriminate.
    + rewrite app_nil_r. split.
      * intros E. injection E as <-. left. auto.
      * intros [(_ & _ & ->)|[? _]]; [reflexivity|discriminate].
  - injection Hlen as Hlen. simpl.
    destruct (Ascii.eqb ca cb) eqn:Ecab.
    + apply Ascii.eqb_eq in Ecab. subst cb.
      assert (Hlt : (1 <? diff) = false) by (apply Nat.ltb_ge; exact Hd).
      rewrite Hlt, (IH b diff (out ++ [ca]) res Hlen Hd).
      split.
      * intros [(H1 & -> & ->)|(H0 & pre & x & y & post & -> & -> & Hxy & Hx & Hy & ->)].
        -- left. rewrite <- app_assoc. auto.
        -- right. split; [exact H0|]. exists (ca :: pre), x, y, post.
           rewrite <- app_assoc. simpl. auto 10.
      * intros [(H1 & E & ->)|(H0 & pre & x & y & post & Ea & Eb & Hxy & Hx & Hy & ->)].
        -- injection E as <-. left. rewrite <- app_assoc. auto.
        -- right. split; [exact H0|]. destruct pre as [|c pre]; simpl in *.
           ++ injection Ea as -> _. injection Eb as -> _. contradiction.
           ++ injection Ea as -> ->. injection Eb as ->.
              exists pre, x, y, post. rewrite <- app_assoc. simpl. auto 10.
    + assert (Hne : ca <> cb) by (intros E; subst; rewrite Ascii.eqb_refl in Ecab; discriminate).
      destruct (Ascii.eqb ca dash) eqn:Ea; simpl.
      * apply Ascii.eqb_eq in Ea. split; [discriminate|].
        intros [(_ & E & _)|(_ & pre & x & y & post & E1 & E2 & _ & Hx & _)].
        -- injection E as E _. contradiction.
        -- destruct pre; simpl in *.
           ++ injection E1 as <- _. contradiction.
           ++ injection E1 as <- _. injection E2 as <- _. contradiction.
      * assert (Hca : ca <> dash) by (intros E; subst; rewrite Ascii.eqb_refl in Ea; discriminate).
        destruct (Ascii.eqb cb dash) eqn:Eb; simpl.
        -- apply Ascii.eqb_eq in Eb. split; [discriminate|].
           intros [(_ & E & _)|(_ & pre & x & y & post & E1 & E2 & _ & _ & Hy & _)].
           ++ injection E as E _. contradiction.
           ++ destruct pre; simpl in *.
              ** injection E2 as <- _. contradiction.
              ** injection E1 as <- _. injection E2 as <- _. contradiction.
        -- assert (Hcb : cb <> dash) by (intros E; subst; rewrite Ascii.eqb_refl in Eb; discriminate).
           destruct diff as [|[|d]]; simpl; [| |lia].
           ++ rewrite (IH b 1 (out ++ [dash]) res Hlen (le_n 1)).
              split.
              ** intros [(_ & -> & ->)|[? _]]; [|discriminate].
                 right. split; [reflexivity|]. exists [], ca, cb, b.
                 rewrite <- app_assoc. simpl. auto 10.
              ** intros [[? _]|(_ & pre & x & y & post & E1 & E2 & _ & _ & _ & ->)];
                   [discriminate|].
                 left. destruct pre; simpl in *.
                 --- injection E1 as _ ->. injection E2 as _ ->.
                     rewrite <- app_assoc. auto.
                 --- injection E1 as <- _. injection E2 as <- _. contradiction.
           ++ split; [discriminate|].
              intros [(_ & E & _)|[? _]]; [|discriminate].
              injection E as E _. contradiction.
Qed.

Lemma combineFrom_cons (ca : ascii) (a b : str) (diff : nat) (out : str) :
  combineFrom (ca :: a) b diff out =
  if ascii_eqb_opt (Some ca) (hd_error b) then
    if 1 <? diff then None else combineFrom a (tl b) diff (out ++ [ca])
  else if negb (Ascii.eqb ca dash) && negb (ascii_eqb_opt (hd_error b) (Some dash)) then
    if 1 <? S diff then None else combineFrom a (tl b) (S diff) (out ++ [dash])
  else None.
Proof. reflexivity. Qed.

(** What [combine] gives whatever the lengths are: the result has the length
    of [a], one more '-' than [a], and at each position either '-' or the
    character both strings have there. *)
Lemma combineFrom_shape (a : str) :
  forall (b : str) (diff : nat) (out res : str),
    combineFrom a b diff out = Some res ->
    exists res', res = out ++ res' /\ length res' = length a /\
      countConcrete res' + 1 = countConcrete a + diff /\
      (forall i c, nth_error res' i = Some c ->
         c = dash \/ (nth_error a i = Some c /\ nth_error b i = Some c)).
Proof.
  induction a as [|ca a IH]; intros b diff out res H;
    [simpl in H|rewrite combineFrom_cons in H].
  - destruct (diff =? 1) eqn:E; [|discriminate]. injection H as <-.
    apply Nat.eqb_eq in E. subst diff. exists []. rewrite app_nil_r.
    repeat split; try reflexivity.
    intros [|i] c Hc; discriminate.
  - destruct (ascii_eqb_opt (Some ca) (hd_error b)) eqn:Eeq.
    + apply ascii_eqb_opt_true in Eeq.
      destruct (1 <? diff); [discriminate|].
      apply IH in H. destruct H as (r & -> & Hl & Hc & Hn).
      exists (ca :: r). rewrite <- app_assoc. simpl.
      repeat split; try reflexivity; [now rewrite Hl| |].
      * unfold countConcrete in *. simpl.
        destruct (Ascii.eqb ca dash); simpl; lia.
      * intros [|i] c Hi; simpl in *.
        -- injection Hi as <-. right. split; [reflexivity|].
           destruct b; simpl in *; congruence.
        -- destruct (Hn i c Hi) as [->|[H1 H2]]; [now left|right].
           split; [exact H1|]. destruct b; simpl in *; [now destruct i|exact H2].
    + destruct (Ascii.eqb ca dash) eqn:Ed; simpl in H; [discriminate|].
      destruct (ascii_eqb_opt (hd_error b) (Some dash)); simpl in H; [discriminate|].
      destruct (1 <? S diff); [discriminate|].
      apply IH in H. destruct H as (r & -> & Hl & Hc & Hn).
      exists (dash :: r). rewrite <- app_assoc. simpl.
      repeat split; try reflexivity; [now rewrite Hl| |].
      * unfold countConcrete in *. simpl. rewrite Ed. simpl. lia.
      * intros [|i] c Hi; simpl in *.
        -- injection Hi as <-. now left.
        -- destruct (Hn i c Hi) as [->|[H1 H2]]; [now left|right].
           split; [exact H1|]. destruct b; simpl in *; [now destruct i|exact H2].
Qed.

Lemma combine_length (a b c : str) : combine a b = Some c -> length c = length a.
Proof.
  intros H. apply combineFrom_shape in H.
  destruct H as (r & -> & Hl & _). exact Hl.
Qed.

Lemma combine_concrete (a b c : str) :
  combine a b = Some c -> S (countConcrete c) = countConcrete a.
Proof.
  intros H. apply combineFrom_shape in H.
  destruct H as (r & -> & _ & Hc & _). simpl. lia.
Qed.

Lemma combine_chars (a b c : str) :
  combine a b = Some c ->
  forall i x, nth_error c i = Some x ->
    x = dash \/ (nth_error a i = Some x /\ nth_error b i = Some x).
Proof.
  intros H. apply combineFrom_shape in H.
  destruct H as (r & -> & _ & _ & Hn). exact Hn.
Qed.

Lemma countDashes_concrete (s : str) : countDashes s + countConcrete s = length s.
Proof.
  unfold countDashes, countConcrete, removeDashes.
  induction s as [|c s IH]; simpl; [reflexivity|].
  destruct (Ascii.eqb c dash); simpl; lia.
Qed.

Lemma combine_dashes (a b c : str) :
  combine a b = Some c -> countDashes c = S (countDashes a).
Proof.
  intros H. pose proof (combine_length _ _ _ H) as Hl.
  pose proof (combine_concrete _ _ _ H) as Hc.
  pose proof (countDashes_concrete a). pose proof (countDashes_concrete c). lia.
Qed.

Lemma dash_not_concrete (c : ascii) : isConcrete c -> c <> dash.
Proof. intros [->| ->]; discriminate. Qed.

Lemma alphabet_concrete (s : str) (c : ascii) :
  overAlphabet s -> In c s -> c <> dash -> isConcrete c.
Proof.
  intros Hs Hin Hc. unfold overAlphabet in Hs. rewrite Forall_forall in Hs.
  destruct (Hs c Hin) as [E|[E|E]]; [now left|now right|contradiction].
Qed.

Lemma replace_at_split (pre post : str) (c d : ascii) :
  firstn (length pre) (pre ++ c :: post)
    ++ d :: skipn (S (length pre)) (pre ++ c :: post)
  = pre ++ d :: post.
Proof. induction pre as [|x pre IH]; simpl; [reflexivity|]. now f_equal. Qed.

(** Two strings that are [pre ++ x :: post] and [pre ++ y :: post], seen
    through their indices. *)
Lemma split_at_index (a b : str) (i : nat) (ca cb : ascii) :
  length a = length b ->
  nth_error a i = Some ca -> nth_error b i = Some cb ->
  (forall j, j <> i -> nth_error a j = nth_error b j) ->
  exists pre post,
    a = pre ++ ca :: post /\ b = pre ++ cb :: post /\ length pre = i.
Proof.
  intros Hlen Ha Hb Hag.
  destruct (nth_error_split a i Ha) as (p1 & q1 & Ea & L1).
  destruct (nth_error_split b i Hb) as (p2 & q2 & Eb & L2).
  assert (Hp : p1 = p2).
  { apply nth_error_ext. intros n.
    destruct (Nat.lt_ge_cases n i) as [Hn|Hn].
    - assert (Hne : n <> i) by lia. specialize (Hag n Hne).
      rewrite Ea, Eb in Hag.
      rewrite !nth_error_app1 in Hag by lia. exact Hag.
    - transitivity (@None ascii); [|symmetry]; apply nth_error_None; lia. }
  assert (Hq : q1 = q2).
  { apply nth_error_ext. intros n.
    assert (Hne : S (i + n) <> i) by lia. specialize (Hag _ Hne).
    rewrite Ea, Eb in Hag.
    rewrite !nth_error_app2 in Hag by lia.
    rewrite L1, L2 in Hag.
    replace (S (i + n) - i) with (S n) in Hag by lia. exact Hag. }
  subst p2 q2. exists p1, q1. auto.
Qed.

(** C6. For two patterns [a] and [b] of one length over the alphabet
    0, 1, -, [combine a b] returns a pattern exactly when there is one
    position [i] where [a] and [b] differ, both characters there being
    concrete bits, while every other position holds the same character in
    both (so a '-' facing a bit blocks the merge); the pattern returned is
    [a] with position [i] replaced by '-'. *)
Theorem combine_iff_single_concrete_difference (a b : str) :
  length a = length b -> overAlphabet a -> overAlphabet b ->
  forall out : str,
    combine a b = Some out <->
    exists (i : nat) (ca cb : ascii),
      nth_error a i = Some ca /\ nth_error b i = Some cb /\
      isConcrete ca /\ isConcrete cb /\ ca <> cb /\
      (forall j, j <> i -> nth_error a j = nth_error b j) /\
      out = firstn i a ++ dash :: skipn (S i) a.
Proof.
  intros Hlen Ha Hb out. unfold combine.
  rewrite (combineFrom_iff a b 0 [] out Hlen (Nat.le_0_l 1)). split.
  - intros [[H _]|(_ & pre & ca & cb & post & -> & -> & Hne & Hca & Hcb & ->)];
      [discriminate|].
    exists (length pre), ca, cb.
    rewrite !nth_error_app2 by lia. rewrite Nat.sub_diag.
    repeat split; try reflexivity.
    + eapply alphabet_concrete; [exact Ha| |exact Hca].
      apply in_or_app. right. now left.
    + eapply alphabet_concrete; [exact Hb| |exact Hcb].
      apply in_or_app. right. now left.
    + exact Hne.
    + intros j Hj. destruct (Nat.lt_ge_cases j (length pre)) as [Hlt|Hge].
      * now rewrite !nth_error_app1 by lia.
      * rewrite !nth_error_app2 by lia.
        destruct (j - length pre) as [|k] eqn:E; [lia|reflexivity].
    + symmetry. apply replace_at_split.
  - intros (i & ca & cb & Hai & Hbi & Hca & Hcb & Hne & Hag & ->).
    right. split; [reflexivity|].
    destruct (split_at_index a b i ca cb Hlen Hai Hbi Hag)
      as (pre & post & Ea & Eb & Hi).
    exists pre, ca, cb, post.
    repeat split; try assumption; try (now apply dash_not_concrete).
    subst i. rewrite Ea. apply replace_at_split.
Qed.


Lemma overAlphabet_lit_10d1 : overAlphabet (lit "10-1").
Proof. alphabet_by_cases. Defined.

Lemma overAlphabet_lit_11d1 : overAlphabet (lit "11-1").
Proof. alphabet_by_cases. Defined.

(** The theorem at the patterns 10-1 and 11-1, which merge into 1--1. *)
Lemma combine_iff_single_concrete_difference_witness :
  length (lit "10-1") = length (lit "11-1") /\
  overAlphabet (lit "10-1") /\ overAlphabet (lit "11-1") /\
  (combine (lit "10-1") (lit "11-1") = Some (lit "1--1") <->
   exists (i : nat) (ca cb : ascii),
     nth_error (lit "10-1") i = Some ca /\ nth_error (lit "11-1") i = Some cb /\
     isConcrete ca /\ isConcrete cb /\ ca <> cb /\
     (forall j, j <> i -> nth_error (lit "10-1") j = nth_error (lit "11-1") j) /\
     lit "1--1" = firstn i (lit "10-1") ++ dash :: skipn (S i) (lit "10-1")).
Proof.
  split; [reflexivity|].
  split; [exact overAlphabet_lit_10d1|].
  split; [exact overAlphabet_lit_11d1|].
  exact (combine_iff_single_concrete_difference (lit "10-1") (lit "11-1")
           eq_refl overAlphabet_lit_10d1 overAlphabet_lit_11d1 (lit "1--1")).
Defined.

(** ** Sets, sorting and maps *)

Section SetFacts.
Context {A : Type} (eqb : A -> A -> bool).
Hypothesis eqb_eq : forall x y, eqb x y = true <-> x = y.

Lemma setHas_In (s : list A) (x : A) : setHas eqb s x = true <-> In x s.
Proof.
  unfold setHas. rewrite existsb_exists. split.
  - intros (y & Hy & E). apply eqb_eq in E. now subst.
  - intros H. exists x. split; [exact H|]. now apply eqb_eq.
Qed.

Lemma setHas_not_In (s : list A) (x : A) : setHas eqb s x = false <-> ~ In x s.
Proof.
  rewrite <- setHas_In. destruct (setHas eqb s x); split; congruence.
Qed.

Lemma setAdd_In (s : list A) (x y : A) :
  In y (setAdd eqb s x) <-> In y s \/ y = x.
Proof.
  unfold setAdd. destruct (setHas eqb s x) eqn:E.
  - apply setHas_In in E. split; [auto|]. intros [H| ->]; assumption.
  - rewrite in_app_iff. simpl. intuition.
Qed.

Lemma setAdd_NoDup (s : list A) (x : A) : NoDup s -> NoDup (setAdd eqb s x).
Proof.
  intros H. unfold setAdd. destruct (setHas eqb s x) eqn:E; [exact H|].
  apply setHas_not_In in E.
  apply NoDup_rev in H. rewrite <- (rev_involutive (s ++ [x])).
  apply NoDup_rev. rewrite rev_app_distr. simpl. constructor; [|exact H].
  now rewrite <- in_rev.
Qed.

Lemma fold_setAdd_In (l s : list A) (y : A) :
  In y (fold_left (setAdd eqb) l s) <-> In y s \/ In y l.
Proof.
  revert s. induction l as [|x l IH]; intros s; simpl.
  - tauto.
  - rewrite IH, setAdd_In. intuition.
Qed.

Lemma fold_setAdd_NoDup (l s : list A) :
  NoDup s -> NoDup (fold_left (setAdd eqb) l s).
Proof.
  revert s. induction l as [|x l IH]; intros s H; simpl; [exact H|].
  apply IH. now apply setAdd_NoDup.
Qed.

Lemma setFrom_In (l : list A) (y : A) : In y (setFrom eqb l) <-> In y l.
Proof. unfold setFrom. rewrite fold_setAdd_In. simpl. tauto. Qed.

Lemma setFrom_NoDup (l : list A) : NoDup (setFrom eqb l).
Proof. apply fold_setAdd_NoDup. constructor. Qed.

(** A list without duplicates is its own set. *)
Lemma fold_setAdd_fresh (l s : list A) :
  NoDup (s ++ l) -> fold_left (setAdd eqb) l s = s ++ l.
Proof.
  revert s. induction l as [|x l IH]; intros s H; simpl.
  - now rewrite app_nil_r.
  - assert (Hx : ~ In x s).
    { apply NoDup_remove_2 in H. intros Hin. apply H.
      apply in_or_app. now left. }
    unfold setAdd at 2. apply setHas_not_In in Hx. rewrite Hx.
    rewrite IH; rewrite <- app_assoc; simpl; [reflexivity|exact H].
Qed.

Lemma setFrom_NoDup_id (l : list A) : NoDup l -> setFrom eqb l = l.
Proof. intros H. unfold setFrom. now rewrite fold_setAdd_fresh. Qed.
End SetFacts.

Section SortFacts.
Context {A : Type} (leb : A -> A -> bool).

Lemma insertSorted_In (x y : A) (l : list A) :
  In y (insertSorted leb x l) <-> y = x \/ In y l.
Proof.
  induction l as [|z l IH]; simpl.
  - intuition.
  - destruct (leb x z); simpl; [intuition|]. rewrite IH. intuition.
Qed.

Lemma sortBy_In (y : A) (l : list A) : In y (sortBy leb l) <-> In y l.
Proof.
  induction l as [|x l IH]; simpl; [tauto|].
  rewrite insertSorted_In, IH. intuition.
Qed.

Lemma insertSorted_length (x : A) (l : list A) :
  length (insertSorted leb x l) = S (length l).
Proof.
  induction l as [|z l IH]; simpl; [reflexivity|].
  destruct (leb x z); simpl; [reflexivity|]. now rewrite IH.
Qed.

Lemma sortBy_length (l : list A) : length (sortBy leb l) = length l.
Proof.
  induction l as [|x l IH]; simpl; [reflexivity|].
  now rewrite insertSorted_length, IH.
Qed.

Lemma sortBy_nil_iff (l : list A) : sortBy leb l = [] <-> l = [].
Proof.
  split; intros H.
  - apply length_zero_iff_nil. rewrite <- sortBy_length, H. reflexivity.
  - subst. reflexivity.
Qed.
End SortFacts.


Lemma insertSorted_headShortest (x : list nat) (l : list (list nat)) :
  headShortest l -> headShortest (insertSorted byLength x l).
Proof.
  destruct l as [|y l]; simpl.
  - intros _ t [<-|[]]. lia.
  - intros H. unfold byLength at 1. destruct (length x <=? length y) eqn:E.
    + apply Nat.leb_le in E. simpl. intros t [<-|Ht]; [lia|].
      specialize (H t Ht). lia.
    + apply Nat.leb_gt in E. simpl. intros t [<-|Ht]; [lia|].
      apply insertSorted_In in Ht. destruct Ht as [->|Ht]; [lia|].
      apply H. now right.
Qed.

Lemma sortBy_headShortest (l : list (list nat)) : headShortest (sortBy byLength l).
Proof.
  induction l as [|x l IH]; simpl; [exact I|].
  now apply insertSorted_headShortest.
Qed.

(** Sorting a list without duplicates by [<=] puts it in strictly ascending
    order. *)
Lemma insertSorted_strict (x : Z) (l : list Z) :
  StronglySorted Z.lt l -> ~ In x l ->
  StronglySorted Z.lt (insertSorted Z.leb x l).
Proof.
  induction l as [|y l IH]; intros Hs Hx; simpl.
  - repeat constructor.
  - inversion Hs as [|? ? Hs' Hall]; subst.
    destruct (Z.leb x y) eqn:E.
    + apply Z.leb_le in E.
      assert (Hlt : (x < y)%Z) by (assert (x <> y) by (intros ->; apply Hx; now left); lia).
      constructor; [exact Hs|]. constructor; [exact Hlt|].
      eapply Forall_impl; [|exact Hall]. intros z Hz. simpl in Hz. lia.
    + apply Z.leb_gt in E. constructor.
      * apply IH; [exact Hs'|]. intros H. apply Hx. now right.
      * apply Forall_forall. intros z Hz. apply insertSorted_In in Hz.
        destruct Hz as [->|Hz]; [exact E|].
        rewrite Forall_forall in Hall. now apply Hall.
Qed.

Lemma sortBy_strict (l : list Z) :
  NoDup l -> StronglySorted Z.lt (sortBy Z.leb l).
Proof.
  induction 1 as [|x l Hx Hl IH]; simpl; [constructor|].
  apply insertSorted_strict; [exact IH|]. now rewrite sortBy_In.
Qed.

Lemma sortedSetZ_strict (l : list Z) : StronglySorted Z.lt (sortedSetZ l).
Proof. apply sortBy_strict, setFrom_NoDup, Z.eqb_eq. Qed.

Lemma sortedSetZ_In (l : list Z) (m : Z) : In m (sortedSetZ l) <-> In m l.
Proof. unfold sortedSetZ. rewrite sortBy_In. apply setFrom_In, Z.eqb_eq. Qed.

Lemma sortedSetNat_In (l : list nat) (i : nat) : In i (sortedSetNat l) <-> In i l.
Proof. unfold sortedSetNat. rewrite sortBy_In. apply setFrom_In, Nat.eqb_eq. Qed.

Section MapFacts.
Context {K V : Type} (keqb : K -> K -> bool).
Hypothesis keqb_eq : forall x y, keqb x y = true <-> x = y.

Lemma keqb_refl (k : K) : keqb k k = true.
Proof. now apply keqb_eq. Qed.

Lemma mapGet_mapSet_same (m : list (K * V)) (k : K) (v : V) :
  mapGet keqb (mapSet keqb m k v) k = Some v.
Proof.
  induction m as [|[k' v'] m IH]; simpl.
  - now rewrite keqb_refl.
  - destruct (keqb k' k) eqn:E; simpl.
    + now rewrite keqb_refl.
    + now rewrite E.
Qed.

Lemma mapGet_mapSet_other (m : list (K * V)) (k k' : K) (v : V) :
  k <> k' -> mapGet keqb (mapSet keqb m k v) k' = mapGet keqb m k'.
Proof.
  intros Hne. induction m as [|[k0 v0] m IH]; simpl.
  - destruct (keqb k k') eqn:E; [|reflexivity].
    apply keqb_eq in E. contradiction.
  - destruct (keqb k0 k) eqn:E; simpl.
    + apply keqb_eq in E. subst k0.
      destruct (keqb k k') eqn:E'; [|reflexivity].
      apply keqb_eq in E'. contradiction.
    + now rewrite IH.
Qed.
End MapFacts.


Section GroupFacts.
Context {K V : Type} (keqb : K -> K -> bool).

Lemma getOrEmpty_members (m : list (K * list V)) (k : K) (x : V) :
  In x (getOrEmpty keqb m k) -> In x (members m).
Proof.
  unfold getOrEmpty, members. induction m as [|[k' v'] m IH]; simpl; [tauto|].
  destruct (keqb k' k); intros H; apply in_or_app; [now left|right; auto].
Qed.

Lemma mapSet_members (m : list (K * list V)) (k : K) (v : list V) (x : V) :
  In x (members (mapSet keqb m k v)) -> In x v \/ In x (members m).
Proof.
  unfold members. induction m as [|[k' v'] m IH]; simpl.
  - rewrite app_nil_r. tauto.
  - destruct (keqb k' k); simpl; rewrite !in_app_iff; intuition.
Qed.

Lemma mapSet_members_new (m : list (K * list V)) (k : K) (v : list V) (x : V) :
  In x v -> In x (members (mapSet keqb m k v)).
Proof.
  unfold members. induction m as [|[k' v'] m IH]; simpl; intros H.
  - rewrite app_nil_r. exact H.
  - destruct (keqb k' k); simpl; rewrite in_app_iff; auto.
Qed.

Lemma mapSet_members_old (m : list (K * list V)) (k : K) (v : list V) (x : V) :
  (forall y, In y (getOrEmpty keqb m k) -> In y v) ->
  In x (members m) -> In x (members (mapSet keqb m k v)).
Proof.
  unfold members, getOrEmpty. induction m as [|[k' v'] m IH]; simpl; [tauto|].
  destruct (keqb k' k); simpl; rewrite !in_app_iff; intros Hv [H|H]; auto.
Qed.
End GroupFacts.

(** ** The implicant generator *)

Lemma fold_left_invariant {S X : Type} (f : S -> X -> S) (I : S -> Prop)
    (l : list X) :
  (forall s x, In x l -> I s -> I (f s x)) ->
  forall s, I s -> I (fold_left f l s).
Proof.
  induction l as [|x l IH]; intros Hstep s Hs; simpl; [exact Hs|].
  apply IH.
  - intros s' x' Hx'. apply Hstep. now right.
  - apply Hstep; [now left|exact Hs].
Qed.

(** What one pair does to the state of a round. *)
Lemma tryCombine_spec (a b : Implicant) (st : RoundState) :
  tryCombine a b st = st \/
  exists comb,
    combine (bits a) (bits b) = Some comb /\
    taken (tryCombine a b st)
      = setAdd str_eqb (setAdd str_eqb (taken st) (bits a)) (bits b) /\
    anyCombined (tryCombine a b st) = true /\
    (forall x, In x (members (nextGroups st)) ->
               In x (members (nextGroups (tryCombine a b st)))) /\
    (exists x, In x (members (nextGroups (tryCombine a b st))) /\ bits x = comb) /\
    (forall x, In x (members (nextGroups (tryCombine a b st))) ->
               In x (members (nextGroups st)) \/ bits x = comb).
Proof.
  unfold tryCombine.
  destruct (combine (bits a) (bits b)) as [[|c cs]|] eqn:E; [now left| |now left].
  right. exists (c :: cs). cbn [taken anyCombined nextGroups].
  set (comb := c :: cs).
  set (ones := countOnes (removeDashes comb)).
  set (arr := getOrEmpty Nat.eqb (nextGroups st) ones).
  set (imp := {| bits := comb; covered := sortedSetZ (covered a ++ covered b) |}).
  repeat split.
  - intros x Hx. apply mapSet_members_old; [|exact Hx].
    intros y Hy. fold arr in Hy.
    destruct (existsb (sameBits comb) arr); [exact Hy|].
    apply in_or_app. now left.
  - destruct (existsb (sameBits comb) arr) eqn:Ex.
    + apply existsb_exists in Ex. destruct Ex as (x & Hx & Hb).
      exists x. split; [now apply mapSet_members_new|].
      unfold sameBits in Hb. now apply str_eqb_eq in Hb.
    + exists imp. split; [|reflexivity].
      apply mapSet_members_new, in_or_app. right. now left.
  - intros x Hx. apply mapSet_members in Hx. destruct Hx as [Hx|Hx]; [|now left].
    destruct (existsb (sameBits comb) arr).
    + left. eapply getOrEmpty_members. exact Hx.
    + apply in_app_or in Hx. destruct Hx as [Hx|[<-|[]]].
      * left. eapply getOrEmpty_members. exact Hx.
      * now right.
Qed.

Section Round.
Variable cur : Groups.
Variable I : RoundState -> Prop.
Hypothesis I_start : I roundStart.
Hypothesis I_step :
  forall a b st, In a (members cur) -> In b (members cur) ->
                 I st -> I (tryCombine a b st).

Lemma combineGroups_invariant (gA gB : list Implicant) (st : RoundState) :
  (forall a, In a gA -> In a (members cur)) ->
  (forall b, In b gB -> In b (members cur)) ->
  I st -> I (combineGroups gA gB st).
Proof.
  intros HA HB. unfold combineGroups. revert st.
  apply fold_left_invariant. intros st a Ha Hst. revert st Hst.
  apply fold_left_invariant. intros st b Hb Hst.
  apply I_step; auto.
Qed.

Lemma combineAdjacent_invariant (keys : list nat) (st : RoundState) :
  I st -> I (combineAdjacent cur keys st).
Proof.
  revert st. induction keys as [|k1 keys IH]; intros st Hst; [exact Hst|].
  destruct keys as [|k2 keys]; [exact Hst|].
  change (I (combineAdjacent cur (k2 :: keys)
               (combineGroups (getOrEmpty Nat.eqb cur k1)
                              (getOrEmpty Nat.eqb cur k2) st))).
  apply IH. apply combineGroups_invariant; [| |exact Hst];
    intros x Hx; eapply getOrEmpty_members; exact Hx.
Qed.

Lemma runRound_invariant : I (runRound cur).
Proof. unfold runRound. apply combineAdjacent_invariant. exact I_start. Qed.
End Round.

(** The implicants moved to [allPrime] at the end of a round. *)
Lemma collectOne_spec (tk : list str) (allPrime : list Implicant) (imp x : Implicant) :
  In x (collectOne tk allPrime imp) -> In x allPrime \/ x = imp.
Proof.
  unfold collectOne. destruct (setHas str_eqb tk (bits imp)); [now left|].
  destruct (existsb (sameBits (bits imp)) allPrime); [now left|].
  intros H. apply in_app_or in H. destruct H as [H|[<-|[]]]; auto.
Qed.

Lemma collectOne_mono (tk : list str) (allPrime : list Implicant) (imp x : Implicant) :
  In x allPrime -> In x (collectOne tk allPrime imp).
Proof.
  unfold collectOne. intros H. destruct (setHas str_eqb tk (bits imp)); [exact H|].
  destruct (existsb (sameBits (bits imp)) allPrime); [exact H|].
  apply in_or_app. now left.
Qed.

Lemma collectOne_adds (tk : list str) (allPrime : list Implicant) (imp : Implicant) :
  setHas str_eqb tk (bits imp) = false ->
  exists y, In y (collectOne tk allPrime imp) /\ bits y = bits imp.
Proof.
  unfold collectOne. intros ->.
  destruct (existsb (sameBits (bits imp)) allPrime) eqn:E.
  - apply existsb_exists in E. destruct E as (y & Hy & Hb).
    exists y. split; [exact Hy|]. unfold sameBits in Hb. now apply str_eqb_eq in Hb.
  - exists imp. split; [|reflexivity]. apply in_or_app. right. now left.
Qed.

Lemma collectPrimes_spec (cur : Groups) (tk : list str) (allPrime : list Implicant)
    (x : Implicant) :
  In x (collectPrimes cur tk allPrime) -> In x allPrime \/ In x (members cur).
Proof.
  unfold collectPrimes, members. revert allPrime.
  induction cur as [|[k arr] cur IH]; intros allPrime; simpl; [now left|].
  intros H. apply IH in H. rewrite in_app_iff. destruct H as [H|H]; [|auto].
  revert allPrime H. induction arr as [|imp arr IHa]; intros allPrime H; simpl in *.
  - now left.
  - apply IHa in H. destruct H as [H|[H|H]]; auto.
    apply collectOne_spec in H. destruct H as [H| ->]; auto.
Qed.

Lemma fold_collectOne_mono (tk : list str) (arr allPrime : list Implicant)
    (x : Implicant) :
  In x allPrime -> In x (fold_left (collectOne tk) arr allPrime).
Proof.
  revert allPrime. induction arr as [|imp arr IH]; intros allPrime H; simpl;
    [exact H|].
  apply IH. now apply collectOne_mono.
Qed.

Lemma collectPrimes_mono (cur : Groups) (tk : list str) (allPrime : list Implicant)
    (x : Implicant) :
  In x allPrime -> In x (collectPrimes cur tk allPrime).
Proof.
  unfold collectPrimes. revert allPrime.
  induction cur as [|[k arr] cur IH]; intros allPrime H; simpl; [exact H|].
  apply IH. now apply fold_collectOne_mono.
Qed.

Lemma fold_collectOne_adds (tk : list str) (arr allPrime : list Implicant)
    (imp : Implicant) :
  In imp arr -> setHas str_eqb tk (bits imp) = false ->
  exists y, In y (fold_left (collectOne tk) arr allPrime) /\ bits y = bits imp.
Proof.
  revert allPrime. induction arr as [|z arr IH]; intros allPrime Hin Ht; simpl;
    [contradiction|].
  destruct Hin as [->|Hin].
  - destruct (collectOne_adds tk allPrime imp Ht) as (y & Hy & Hb).
    exists y. split; [|exact Hb]. now apply fold_collectOne_mono.
  - now apply IH.
Qed.

Lemma collectPrimes_adds (cur : Groups) (tk : list str) (allPrime : list Implicant)
    (imp : Implicant) :
  In imp (members cur) -> setHas str_eqb tk (bits imp) = false ->
  exists y, In y (collectPrimes cur tk allPrime) /\ bits y = bits imp.
Proof.
  unfold collectPrimes, members. revert allPrime.
  induction cur as [|[k arr] cur IH]; intros allPrime Hin Ht; simpl in *;
    [contradiction|].
  apply in_app_or in Hin. destruct Hin as [Hin|Hin].
  - destruct (fold_collectOne_adds tk arr allPrime imp Hin Ht) as (y & Hy & Hb).
    exists y. split; [|exact Hb].
    now apply (collectPrimes_mono cur tk).
  - now apply IH.
Qed.

(** *** A property of patterns that [combine] keeps *)

Section PatternProperty.
Variable P : str -> Prop.
Hypothesis P_combine : forall a b c, P a -> combine a b = Some c -> P c.

Lemma runRound_keeps (cur : Groups) :
  (forall x, In x (members cur) -> P (bits x)) ->
  forall x, In x (members (nextGroups (runRound cur))) -> P (bits x).
Proof.
  intros Hcur.
  apply (runRound_invariant cur
           (fun st => forall x, In x (members (nextGroups st)) -> P (bits x))).
  - intros x [].
  - intros a b st Ha Hb Hst x Hx.
    destruct (tryCombine_spec a b st) as [E|(comb & Hc & _ & _ & _ & _ & Hnew)].
    + rewrite E in Hx. now apply Hst.
    + destruct (Hnew x Hx) as [H|H]; [now apply Hst|].
      rewrite H. eapply P_combine; [|exact Hc]. now apply Hcur.
Qed.

Lemma combineLoop_keeps (fuel : nat) :
  forall (cur : Groups) (allPrime : list Implicant) (r : nat)
         (res : list Implicant) (n : nat),
    (forall x, In x (members cur) -> P (bits x)) ->
    (forall x, In x allPrime -> P (bits x)) ->
    combineLoop fuel cur allPrime r = Some (res, n) ->
    forall x, In x res -> P (bits x).
Proof.
  induction fuel as [|fuel IH]; intros cur allPrime r res n Hcur Hall H;
    simpl in H; [discriminate|].
  assert (Hall' : forall x, In x (collectPrimes cur (taken (runRound cur)) allPrime)
                            -> P (bits x)).
  { intros x Hx. apply collectPrimes_spec in Hx. destruct Hx; auto. }
  destruct (anyCombined (runRound cur)).
  - eapply IH; [| |exact H]; [|exact Hall'].
    now apply runRound_keeps.
  - injection H as <- _. exact Hall'.
Qed.
End PatternProperty.

(** *** Termination of the combining loop *)

Lemma runRound_measure (cur : Groups) (bound : nat) :
  (forall x, In x (members cur) -> countConcrete (bits x) <= bound) ->
  (forall x, In x (members (nextGroups (runRound cur))) ->
             S (countConcrete (bits x)) <= bound) /\
  (anyCombined (runRound cur) = true -> 1 <= bound).
Proof.
  intros Hcur.
  apply (runRound_invariant cur
           (fun st =>
              (forall x, In x (members (nextGroups st)) ->
                         S (countConcrete (bits x)) <= bound) /\
              (anyCombined st = true -> 1 <= bound))).
  - split; [intros x []|discriminate].
  - intros a b st Ha Hb [H1 H2].
    destruct (tryCombine_spec a b st) as [E|(comb & Hc & _ & _ & _ & _ & Hnew)].
    + rewrite E. auto.
    + pose proof (combine_concrete _ _ _ Hc) as Hm.
      pose proof (Hcur a Ha) as Hle.
      split; [|intros _; lia].
      intros x Hx. destruct (Hnew x Hx) as [H|H]; [now apply H1|].
      rewrite H. lia.
Qed.

(** With more fuel than the largest number of concrete positions of the
    patterns it starts from, the loop ends, after at most that many turns in
    which something was combined. *)
Lemma combineLoop_terminates (fuel : nat) :
  forall (cur : Groups) (allPrime : list Implicant) (r bound : nat),
    (forall x, In x (members cur) -> countConcrete (bits x) <= bound) ->
    bound < fuel ->
    exists res n,
      combineLoop fuel cur allPrime r = Some (res, n) /\ n <= r + bound.
Proof.
  induction fuel as [|fuel IH]; intros cur allPrime r bound Hcur Hf; [lia|].
  simpl. destruct (runRound_measure cur bound Hcur) as [Hnext Hany].
  destruct (anyCombined (runRound cur)).
  - specialize (Hany eq_refl).
    destruct (IH (nextGroups (runRound cur))
                 (collectPrimes cur (taken (runRound cur)) allPrime)
                 (S r) (bound - 1)) as (res & n & E & Hn).
    + intros x Hx. specialize (Hnext x Hx). lia.
    + lia.
    + exists res, n. split; [exact E|lia].
  - exists (collectPrimes cur (taken (runRound cur)) allPrime), r.
    split; [reflexivity|lia].
Qed.

(** More fuel does not change the result. *)
Lemma combineLoop_fuel_mono (fuel : nat) :
  forall (fuel' : nat) (cur : Groups) (allPrime : list Implicant) (r : nat)
         (out : list Implicant * nat),
    combineLoop fuel cur allPrime r = Some out -> fuel <= fuel' ->
    combineLoop fuel' cur allPrime r = Some out.
Proof.
  induction fuel as [|fuel IH]; intros fuel' cur allPrime r out H Hle;
    [discriminate|].
  destruct fuel' as [|fuel']; [lia|]. simpl in *.
  destruct (anyCombined (runRound cur)); [|exact H].
  apply IH; [exact H|lia].
Qed.

(** *** Coverage is never lost *)

Lemma coveredBy_combine (a b c : str) (m : Z) (w : nat) :
  combine a b = Some c -> w <= length a ->
  coveredBy a m w = true \/ coveredBy b m w = true ->
  coveredBy c m w = true.
Proof.
  intros Hc Hw Hab. unfold coveredBy in *.
  rewrite forallb_forall. intros i Hi.
  assert (Hlt : i < w) by (apply in_seq in Hi; lia).
  pose proof (combine_length _ _ _ Hc) as Hl.
  destruct (nth_error c i) as [x|] eqn:Ex.
  2:{ apply nth_error_None in Ex. lia. }
  unfold charAt at 1 2. rewrite Ex.
  destruct (combine_chars _ _ _ Hc i x Ex) as [->|[Ha Hb]].
  - apply orb_true_iff. left. now apply ascii_eqb_opt_true.
  - destruct Hab as [H|H]; rewrite forallb_forall in H; specialize (H i Hi);
      unfold charAt at 1 2 in H; [rewrite Ha in H|rewrite Hb in H]; exact H.
Qed.

Lemma runRound_covers (cur : Groups) (w : nat) :
  (forall x, In x (members cur) -> w <= length (bits x)) ->
  (forall t m, In t (taken (runRound cur)) -> coveredBy t m w = true ->
     exists x, In x (members (nextGroups (runRound cur))) /\
               coveredBy (bits x) m w = true) /\
  (anyCombined (runRound cur) = false -> taken (runRound cur) = []).
Proof.
  intros Hcur.
  apply (runRound_invariant cur
           (fun st =>
              (forall t m, In t (taken st) -> coveredBy t m w = true ->
                 exists x, In x (members (nextGroups st)) /\
                           coveredBy (bits x) m w = true) /\
              (anyCombined st = false -> taken st = []))).
  - split; [intros t m []|reflexivity].
  - intros a b st Ha Hb [H1 H2].
    destruct (tryCombine_spec a b st)
      as [E|(comb & Hc & Ht & Hany & Hmono & (y & Hy & Hyb) & _)].
    + rewrite E. auto.
    + split; [|intros E; rewrite Hany in E; discriminate].
      intros t m Hin Hcov. rewrite Ht in Hin.
      apply (setAdd_In str_eqb str_eqb_eq) in Hin.
      destruct Hin as [Hin| ->].
      * apply (setAdd_In str_eqb str_eqb_eq) in Hin.
        destruct Hin as [Hin| ->].
        -- destruct (H1 t m Hin Hcov) as (x & Hx & Hxc).
           exists x. split; [now apply Hmono|exact Hxc].
        -- exists y. split; [exact Hy|]. rewrite Hyb.
           eapply coveredBy_combine; [exact Hc|now apply Hcur|now left].
      * exists y. split; [exact Hy|]. rewrite Hyb.
        eapply coveredBy_combine; [exact Hc|now apply Hcur|now right].
Qed.

Lemma combine_keeps_min_length (w : nat) (a b c : str) :
  w <= length a -> combine a b = Some c -> w <= length c.
Proof. intros H Hc. rewrite (combine_length _ _ _ Hc). exact H. Qed.

(** A number matched by a pattern of the current round or of [allPrime] is
    matched by one of the patterns the loop returns. *)
Lemma combineLoop_covers (w : nat) (m : Z) (fuel : nat) :
  forall (cur : Groups) (allPrime : list Implicant) (r : nat)
         (res : list Implicant) (n : nat),
    (forall x, In x (members cur) -> w <= length (bits x)) ->
    (exists x, (In x (members cur) \/ In x allPrime) /\
               coveredBy (bits x) m w = true) ->
    combineLoop fuel cur allPrime r = Some (res, n) ->
    exists x, In x res /\ coveredBy (bits x) m w = true.
Proof.
  induction fuel as [|fuel IH]; intros cur allPrime r res n Hcur Hex H;
    simpl in H; [discriminate|].
  destruct (runRound_covers cur w Hcur) as [Htaken Hnone].
  pose proof (runRound_keeps (fun s => w <= length s)
                (combine_keeps_min_length w) cur Hcur) as Hnext.
  set (st := runRound cur) in *.
  set (allPrime' := collectPrimes cur (taken st) allPrime) in *.
  assert (Hcases :
            (exists x, In x allPrime' /\ coveredBy (bits x) m w = true) \/
            (anyCombined st = true /\
             exists x, In x (members (nextGroups st)) /\
                       coveredBy (bits x) m w = true)).
  { destruct Hex as (x & [Hx|Hx] & Hc).
    - destruct (setHas str_eqb (taken st) (bits x)) eqn:Et.
      + apply (setHas_In str_eqb str_eqb_eq) in Et. right.
        split; [|now apply (Htaken (bits x))].
        destruct (anyCombined st); [reflexivity|].
        rewrite (Hnone eq_refl) in Et. destruct Et.
      + left. destruct (collectPrimes_adds cur (taken st) allPrime x Hx Et)
          as (y & Hy & Hb).
        exists y. split; [exact Hy|]. now rewrite Hb.
    - left. exists x. split; [|exact Hc]. now apply collectPrimes_mono. }
  destruct (anyCombined st) eqn:Eany.
  - eapply IH; [exact Hnext| |exact H].
    destruct Hcases as [(x & Hx & Hc)|(_ & x & Hx & Hc)]; exists x; auto.
  - injection H as <- _.
    destruct Hcases as [Hc|[Hc _]]; [exact Hc|discriminate].
Qed.

(** *** The initial groups *)

Lemma toBinary_min_length (m : Z) (w : nat) : w <= length (toBinary m w).
Proof.
  unfold toBinary, padStart. rewrite length_app, repeat_length. lia.
Qed.

Lemma coveredBy_own_pattern (m : Z) (w : nat) : coveredBy (toBinary m w) m w = true.
Proof.
  unfold coveredBy. rewrite forallb_forall. intros i _.
  apply orb_true_iff. right. now apply ascii_eqb_opt_true.
Qed.

Lemma initGroups_members_acc (w : nat) (universe : list Z) :
  forall (groups : Groups) (x : Implicant),
    In x (members
            (fold_left
               (fun (groups : Groups) m =>
                  mapSet Nat.eqb groups (countOnes (toBinary m w))
                    (getOrEmpty Nat.eqb groups (countOnes (toBinary m w))
                       ++ [{| bits := toBinary m w; covered := [m] |}]))
               universe groups)) <->
    In x (members groups) \/
    exists m, In m universe /\ x = {| bits := toBinary m w; covered := [m] |}.
Proof.
  induction universe as [|m universe IH]; intros groups x; simpl.
  - split; [auto|]. intros [H|(m & [] & _)]. exact H.
  - rewrite IH. split.
    + intros [H|(m' & Hm' & E)].
      * apply mapSet_members in H. destruct H as [H|H]; [|now left].
        apply in_app_or in H. destruct H as [H|[<-|[]]].
        -- left. eapply getOrEmpty_members. exact H.
        -- right. exists m. auto.
      * right. exists m'. auto.
    + intros [H|(m' & [<-|Hm'] & E)].
      * left. apply mapSet_members_old; [|exact H].
        intros y Hy. apply in_or_app. now left.
      * left. subst x. apply mapSet_members_new, in_or_app. right. now left.
      * right. exists m'. auto.
Qed.

Lemma initGroups_members (universe : list Z) (w : nat) (x : Implicant) :
  In x (members (initGroups universe w)) <->
  exists m, In m universe /\ x = {| bits := toBinary m w; covered := [m] |}.
Proof.
  unfold initGroups. rewrite (initGroups_members_acc w universe [] x).
  simpl. intuition.
Qed.

Lemma countConcrete_le_length (s : str) : countConcrete s <= length s.
Proof. pose proof (countDashes_concrete s). lia. Qed.

Lemma initGroups_bound (universe : list Z) (w : nat) (x : Implicant) :
  In x (members (initGroups universe w)) ->
  countConcrete (bits x)
    <= list_max (map (fun m => length (toBinary m w)) universe).
Proof.
  intros H. apply initGroups_members in H. destruct H as (m & Hm & ->). simpl.
  pose proof (countConcrete_le_length (toBinary m w)) as Hle.
  assert (Hmax : Forall (fun k => k <= list_max (map (fun m => length (toBinary m w)) universe))
                   (map (fun m => length (toBinary m w)) universe))
    by (apply list_max_le; lia).
  rewrite Forall_forall in Hmax.
  specialize (Hmax (length (toBinary m w))
                (in_map (fun m => length (toBinary m w)) universe m Hm)).
  lia.
Qed.

(** The generator always returns, whatever the universe holds. *)
Lemma generate_returns (universe : list Z) (w : nat) :
  exists allPrime rounds,
    generate universe w = Some (allPrime, rounds) /\
    rounds <= list_max (map (fun m => length (toBinary m w)) universe).
Proof.
  unfold generate, loopFuel.
  destruct (combineLoop_terminates
              (S (list_max (map (fun m => length (toBinary m w)) universe)))
              (initGroups universe w) [] 0
              (list_max (map (fun m => length (toBinary m w)) universe)))
    as (res & n & E & Hn).
  - intros x Hx. now apply initGroups_bound.
  - lia.
  - exists res, n. split; [exact E|lia].
Qed.

(** Every member of the universe is matched by a pattern the generator
    returns. *)
Lemma generate_covers (universe : list Z) (w : nat) (allPrime : list Implicant)
    (rounds : nat) (m : Z) :
  generate universe w = Some (allPrime, rounds) -> In m universe ->
  exists x, In x allPrime /\ coveredBy (bits x) m w = true.
Proof.
  unfold generate. intros H Hm.
  eapply (combineLoop_covers w m); [| |exact H].
  - intros x Hx. apply initGroups_members in Hx. destruct Hx as (m' & _ & ->).
    simpl. apply toBinary_min_length.
  - exists {| bits := toBinary m w; covered := [m] |}. split.
    + left. apply initGroups_members. exists m. auto.
    + simpl. apply coveredBy_own_pattern.
Qed.

Lemma generate_keeps (P : str -> Prop) (universe : list Z) (w : nat)
    (allPrime : list Implicant) (rounds : nat) :
  (forall a b c, P a -> combine a b = Some c -> P c) ->
  (forall m, In m universe -> P (toBinary m w)) ->
  generate universe w = Some (allPrime, rounds) ->
  forall x, In x allPrime -> P (bits x).
Proof.
  unfold generate. intros Pc Pinit H.
  eapply (combineLoop_keeps P Pc); [| |exact H].
  - intros x Hx. apply initGroups_members in Hx. destruct Hx as (m & Hm & ->).
    simpl. now apply Pinit.
  - intros x [].
Qed.

(** ** Petrick's method *)

Lemma scanUnique_spec (s : list nat) (unique : list (list nat)) :
  (forall x, In x (snd (scanUnique s unique)) -> In x unique) /\
  (fst (scanUnique s unique) = true -> snd (scanUnique s unique) <> []).
Proof.
  induction unique as [|u rest [IH1 IH2]]; simpl.
  - split; [tauto|discriminate].
  - destruct (isSubset u s); simpl.
    + split; [tauto|discriminate].
    + destruct (isSubset s u).
      * split; [intros x Hx; right; now apply IH1|exact IH2].
      * destruct (scanUnique s rest) as [d rest']; simpl in *.
        split; [intros x [->|Hx]; auto|discriminate].
Qed.

Lemma minimizeStep_subset (st : list (list nat) * list str) (s x : list nat) :
  In x (fst (minimizeStep st s)) -> In x (fst st) \/ x = s.
Proof.
  destruct st as [unique seen]. unfold minimizeStep.
  destruct (setHas str_eqb seen (key s)); [now left|].
  destruct (scanUnique_spec s unique) as [H1 _].
  destruct (scanUnique s unique) as [d unique']; simpl in *.
  destruct d; simpl; intros H.
  - left. now apply H1.
  - apply in_app_or in H. destruct H as [H|[<-|[]]]; auto.
Qed.

Lemma minimizeStep_nonempty (st : list (list nat) * list str) (s : list nat) :
  fst st <> [] \/ st = ([], []) -> fst (minimizeStep st s) <> [].
Proof.
  destruct st as [unique seen]. unfold minimizeStep. intros Hst.
  destruct (setHas str_eqb seen (key s)) eqn:Eseen.
  - destruct Hst as [H|H]; [exact H|]. injection H as -> ->. discriminate.
  - destruct (scanUnique_spec s unique) as [_ H2].
    destruct (scanUnique s unique) as [d unique']; simpl in *.
    destruct d; simpl; [now apply H2|].
    intros E. apply app_eq_nil in E. destruct E as [_ E]. discriminate.
Qed.

Lemma fold_minimizeStep_subset (l : list (list nat)) :
  forall (st : list (list nat) * list str) (x : list nat),
    In x (fst (fold_left minimizeStep l st)) -> In x (fst st) \/ In x l.
Proof.
  induction l as [|s l IH]; intros st x H; simpl in *; [now left|].
  apply IH in H. destruct H as [H|H]; [|auto].
  apply minimizeStep_subset in H. destruct H as [H| ->]; auto.
Qed.

Lemma fold_minimizeStep_nonempty (l : list (list nat)) :
  forall st : list (list nat) * list str,
    fst st <> [] -> fst (fold_left minimizeStep l st) <> [].
Proof.
  induction l as [|s l IH]; intros st H; simpl; [exact H|].
  apply IH, minimizeStep_nonempty. now left.
Qed.

Lemma minimizeSets_subset (sets : list (list nat)) (x : list nat) :
  In x (minimizeSets sets) -> In x sets.
Proof.
  unfold minimizeSets. intros H. apply fold_minimizeStep_subset in H.
  destruct H as [[]|H]. now apply sortBy_In in H.
Qed.

Lemma minimizeSets_nonempty (sets : list (list nat)) :
  sets <> [] -> minimizeSets sets <> [].
Proof.
  unfold minimizeSets. intros H.
  destruct (sortBy byLength sets) as [|s l] eqn:E.
  - apply sortBy_nil_iff in E. contradiction.
  - change (fold_left minimizeStep (s :: l) ([], []))
      with (fold_left minimizeStep l (minimizeStep ([], []) s)).
    apply fold_minimizeStep_nonempty, minimizeStep_nonempty. now right.
Qed.

Lemma petrickFold_spec (solutions : list (list nat)) (choices t : list nat) :
  In t (petrickFold solutions choices) ->
  exists sol c, In sol solutions /\ In c choices /\ t = sortedSetNat (sol ++ [c]).
Proof.
  unfold petrickFold. intros H. apply minimizeSets_subset in H.
  apply in_flat_map in H. destruct H as (sol & Hsol & H).
  apply in_map_iff in H. destruct H as (c & <- & Hc).
  exists sol, c. auto.
Qed.

Lemma petrickFold_nonempty (solutions : list (list nat)) (choices : list nat) :
  solutions <> [] -> choices <> [] -> petrickFold solutions choices <> [].
Proof.
  intros Hs Hc. unfold petrickFold. apply minimizeSets_nonempty.
  destruct solutions as [|sol solutions]; [contradiction|].
  destruct choices as [|c choices]; [contradiction|]. discriminate.
Qed.

(** Every combination that survives the folds holds an index of each clause
    folded in, extends a combination it started from, and holds nothing
    else. *)
Lemma fold_petrickFold_spec (coverSets : list (list nat)) :
  forall (solutions : list (list nat)) (t : list nat),
    In t (fold_left petrickFold coverSets solutions) ->
    (forall c, In c coverSets -> exists i, In i c /\ In i t) /\
    (exists s, In s solutions /\ forall i, In i s -> In i t) /\
    (forall i, In i t ->
       (exists s, In s solutions /\ In i s) \/
       (exists c, In c coverSets /\ In i c)).
Proof.
  induction coverSets as [|c cs IH]; intros solutions t H; simpl in H.
  - split; [intros c []|]. split.
    + exists t. auto.
    + intros i Hi. left. exists t. auto.
  - destruct (IH _ _ H) as (Hhit & (s' & Hs' & Hsub) & Helem).
    destruct (petrickFold_spec _ _ _ Hs') as (sol & x & Hsol & Hx & ->).
    split; [|split].
    + intros c' [<-|Hc']; [|now apply Hhit].
      exists x. split; [exact Hx|]. apply Hsub, sortedSetNat_In, in_or_app.
      right. now left.
    + exists sol. split; [exact Hsol|]. intros i Hi.
      apply Hsub, sortedSetNat_In, in_or_app. now left.
    + intros i Hi. destruct (Helem i Hi) as [(s & Hs & His)|(c' & Hc' & Hic)].
      * destruct (petrickFold_spec _ _ _ Hs) as (sol' & x' & Hsol' & Hx' & ->).
        apply sortedSetNat_In, in_app_or in His.
        destruct His as [His|[<-|[]]].
        -- left. exists sol'. auto.
        -- right. exists c. split; [now left|exact Hx'].
      * right. exists c'. split; [now right|exact Hic].
Qed.

Lemma fold_petrickFold_nonempty (coverSets : list (list nat)) :
  forall solutions : list (list nat),
    solutions <> [] -> (forall c, In c coverSets -> c <> []) ->
    fold_left petrickFold coverSets solutions <> [].
Proof.
  induction coverSets as [|c cs IH]; intros solutions Hs Hc; simpl; [exact Hs|].
  apply IH.
  - apply petrickFold_nonempty; [exact Hs|]. apply Hc. now left.
  - intros c' Hc'. apply Hc. now right.
Qed.

Lemma petricksMethod_head (coverSets : list (list nat)) :
  (petrickSolutions coverSets = [] /\ petricksMethod coverSets = []) \/
  (In (petricksMethod coverSets) (petrickSolutions coverSets) /\
   forall s, In s (petrickSolutions coverSets) ->
             length (petricksMethod coverSets) <= length s).
Proof.
  unfold petricksMethod.
  pose proof (sortBy_headShortest (petrickSolutions coverSets)) as Hh.
  destruct (sortBy byLength (petrickSolutions coverSets)) as [|s l] eqn:E.
  - left. apply sortBy_nil_iff in E. auto.
  - right. simpl in Hh. split.
    + apply (sortBy_In byLength). rewrite E. now left.
    + intros t Ht. apply Hh. change (In t (s :: l)).
      rewrite <- E. now apply sortBy_In.
Qed.

(** The indices [petricksMethod] returns come from the clauses. *)
Lemma petricksMethod_elements (coverSets : list (list nat)) (i : nat) :
  In i (petricksMethod coverSets) -> exists c, In c coverSets /\ In i c.
Proof.
  intros Hi.
  destruct (petricksMethod_head coverSets) as [[_ E]|[Hin _]].
  - rewrite E in Hi. destruct Hi.
  - destruct (fold_petrickFold_spec coverSets [[]] _ Hin) as (_ & _ & Helem).
    destruct (Helem i Hi) as [(s & [<-|[]] & [])|H]. exact H.
Qed.

Lemma petricksMethod_hits (coverSets : list (list nat)) :
  (forall c, In c coverSets -> c <> []) ->
  In (petricksMethod coverSets) (petrickSolutions coverSets) /\
  forall c, In c coverSets -> exists i, In i c /\ In i (petricksMethod coverSets).
Proof.
  intros Hne.
  destruct (petricksMethod_head coverSets) as [[E _]|[Hin _]].
  - exfalso. revert E. apply fold_petrickFold_nonempty; [discriminate|exact Hne].
  - split; [exact Hin|].
    destruct (fold_petrickFold_spec coverSets [[]] _ Hin) as (Hhit & _).
    exact Hhit.
Qed.

(** ** The prime implicant chart *)

Lemma uniqueByBits_acc (imps : list Implicant) :
  forall (seen : list str) (res : list Implicant),
    (forall b, In b seen <-> exists y, In y res /\ bits y = b) ->
    let out := snd (fold_left
                      (fun '(seen, res) imp =>
                         if setHas str_eqb seen (bits imp) then (seen, res)
                         else (setAdd str_eqb seen (bits imp), res ++ [imp]))
                      imps (seen, res)) in
    (forall x, In x out -> In x res \/ In x imps) /\
    (forall x, In x res \/ In x imps -> exists y, In y out /\ bits y = bits x).
Proof.
  induction imps as [|imp imps IH]; intros seen res Hseen; simpl.
  - split; [auto|]. intros x [Hx|[]]. exists x. auto.
  - destruct (setHas str_eqb seen (bits imp)) eqn:E.
    + destruct (IH seen res Hseen) as [H1 H2]. split.
      * intros x Hx. destruct (H1 x Hx); auto.
      * intros x [Hx|[<-|Hx]]; [apply H2; auto| |apply H2; auto].
        apply (setHas_In str_eqb str_eqb_eq), Hseen in E.
        destruct E as (y & Hy & Hb). destruct (H2 y (or_introl Hy)) as (z & Hz & Hzb).
        exists z. split; [exact Hz|congruence].
    + destruct (IH (setAdd str_eqb seen (bits imp)) (res ++ [imp])) as [H1 H2].
      { intros b. rewrite (setAdd_In str_eqb str_eqb_eq), Hseen. split.
        - intros [(y & Hy & Hb)| ->].
          + exists y. split; [apply in_or_app; now left|exact Hb].
          + exists imp. split; [apply in_or_app; right; now left|reflexivity].
        - intros (y & Hy & Hb). apply in_app_or in Hy.
          destruct Hy as [Hy|[<-|[]]]; [left; exists y; auto|now right]. }
      split.
      * intros x Hx. destruct (H1 x Hx) as [H|H]; [|auto].
        apply in_app_or in H. destruct H as [H|[<-|[]]]; auto.
      * intros x [Hx|[<-|Hx]]; apply H2.
        -- left. apply in_or_app. now left.
        -- left. apply in_or_app. right. now left.
        -- now right.
Qed.

Lemma uniqueByBits_subset (imps : list Implicant) (x : Implicant) :
  In x (uniqueByBits imps) -> In x imps.
Proof.
  intros H. destruct (uniqueByBits_acc imps [] []) as [H1 _].
  - intros b. split; [intros []|intros (y & [] & _)].
  - destruct (H1 x H) as [[]|Hx]. exact Hx.
Qed.

Lemma uniqueByBits_keeps (imps : list Implicant) (x : Implicant) :
  In x imps -> exists y, In y (uniqueByBits imps) /\ bits y = bits x.
Proof.
  intros H. destruct (uniqueByBits_acc imps [] []) as [_ H2].
  - intros b. split; [intros []|intros (y & [] & _)].
  - apply H2. now right.
Qed.

Lemma primeChart_In (allPrime : list Implicant) (minterms : list Z) (w : nat)
    (p : Implicant) :
  In p (primeChart allPrime minterms w) <->
  exists x, In x (uniqueByBits allPrime) /\
            p = {| bits := bits x; covered := expandCoverage (bits x) minterms w |}.
Proof.
  unfold primeChart. rewrite in_map_iff. split; intros (x & H1 & H2); exists x; auto.
Qed.

Lemma primeChart_covered (allPrime : list Implicant) (minterms : list Z) (w : nat)
    (p : Implicant) (m : Z) :
  In p (primeChart allPrime minterms w) ->
  (In m (covered p) <-> In m minterms /\ coveredBy (bits p) m w = true).
Proof.
  intros H. apply primeChart_In in H. destruct H as (x & _ & ->). simpl.
  unfold expandCoverage. apply filter_In.
Qed.

Lemma primeChart_bits (allPrime : list Implicant) (minterms : list Z) (w : nat)
    (p : Implicant) :
  In p (primeChart allPrime minterms w) ->
  exists x, In x allPrime /\ bits x = bits p.
Proof.
  intros H. apply primeChart_In in H. destruct H as (x & Hx & ->).
  exists x. split; [now apply uniqueByBits_subset|reflexivity].
Qed.

(** [mToImps.get(m) ?? []] after one more index was pushed. *)
Lemma chartPush_get (i : nat) (mToImps : Chart) (m' m : Z) :
  getOrEmpty Z.eqb (chartPush i mToImps m') m
  = if Z.eqb m' m then getOrEmpty Z.eqb mToImps m ++ [i]
    else getOrEmpty Z.eqb mToImps m.
Proof.
  unfold chartPush, getOrEmpty at 1. destruct (Z.eqb m' m) eqn:E.
  - apply Z.eqb_eq in E. subst m'.
    now rewrite (mapGet_mapSet_same Z.eqb Z.eqb_eq).
  - apply Z.eqb_neq in E.
    now rewrite (mapGet_mapSet_other Z.eqb Z.eqb_eq) by exact E.
Qed.

Lemma fold_chartPush_get (i : nat) (ms : list Z) :
  forall (mToImps : Chart) (m : Z) (j : nat),
    In j (getOrEmpty Z.eqb (fold_left (chartPush i) ms mToImps) m) <->
    In j (getOrEmpty Z.eqb mToImps m) \/ (j = i /\ In m ms).
Proof.
  induction ms as [|m' ms IH]; intros mToImps m j; simpl.
  - tauto.
  - rewrite IH, chartPush_get. destruct (Z.eqb m' m) eqn:E.
    + apply Z.eqb_eq in E. subst m'. rewrite in_app_iff. simpl. intuition.
    + apply Z.eqb_neq in E. intuition.
Qed.

(** The chart lists, for a minterm, exactly the indices of the primes whose
    [covered] array holds it. *)
Lemma buildChart_get (primes : list Implicant) :
  forall (i : nat) (mToImps : Chart) (m : Z) (j : nat),
    In j (getOrEmpty Z.eqb (buildChart i primes mToImps) m) <->
    In j (getOrEmpty Z.eqb mToImps m) \/
    exists k p, j = i + k /\ nth_error primes k = Some p /\ In m (covered p).
Proof.
  induction primes as [|p primes IH]; intros i mToImps m j; simpl.
  - split; [auto|]. intros [H|(k & q & _ & H & _)]; [exact H|].
    destruct k; discriminate.
  - rewrite IH, fold_chartPush_get. split.
    + intros [[H|[-> H]]|(k & q & -> & Hk & Hq)].
      * now left.
      * right. exists 0, p. rewrite Nat.add_0_r. auto.
      * right. exists (S k), q. split; [lia|]. auto.
    + intros [H|(k & q & -> & Hk & Hq)]; [auto|].
      destruct k as [|k]; simpl in Hk.
      * injection Hk as <-. left. right. rewrite Nat.add_0_r. auto.
      * right. exists k, q. split; [lia|]. auto.
Qed.

Lemma chart_get (primes : list Implicant) (m : Z) (j : nat) :
  In j (getOrEmpty Z.eqb (buildChart 0 primes []) m) <->
  exists p, nth_error primes j = Some p /\ In m (covered p).
Proof.
  rewrite buildChart_get. simpl. split.
  - intros [[]|(k & p & -> & H)]. exists p. exact H.
  - intros (p & H). right. exists j, p. auto.
Qed.

(** ** Essential implicants *)

Lemma fold_essentialStep_In (mToImps : Chart) (minterms : list Z) :
  forall (essential : list nat) (e : nat),
    In e (fold_left (essentialStep mToImps) minterms essential) <->
    In e essential \/
    exists m, In m minterms /\ getOrEmpty Z.eqb mToImps m = [e].
Proof.
  induction minterms as [|m minterms IH]; intros essential e; simpl.
  - split; [auto|]. intros [H|(m & [] & _)]. exact H.
  - rewrite IH. unfold essentialStep.
    destruct (getOrEmpty Z.eqb mToImps m) as [|i [|i' l]] eqn:E.
    + split; [intros [H|(m' & H1 & H2)]|intros [H|(m' & [<-|H1] & H2)]];
        eauto; congruence.
    + rewrite (setAdd_In Nat.eqb Nat.eqb_eq). split.
      * intros [[H| ->]|(m' & H1 & H2)]; eauto.
      * intros [H|(m' & [<-|H1] & H2)]; eauto.
        left. right. congruence.
    + split; [intros [H|(m' & H1 & H2)]|intros [H|(m' & [<-|H1] & H2)]];
        eauto; congruence.
Qed.

Lemma essentialOf_In (mToImps : Chart) (minterms : list Z) (e : nat) :
  In e (essentialOf mToImps minterms) <->
  exists m, In m minterms /\ getOrEmpty Z.eqb mToImps m = [e].
Proof.
  unfold essentialOf. rewrite fold_essentialStep_In. simpl. tauto.
Qed.

Lemma fold_essentialStep_NoDup (mToImps : Chart) (minterms : list Z) :
  forall essential : list nat,
    NoDup essential -> NoDup (fold_left (essentialStep mToImps) minterms essential).
Proof.
  induction minterms as [|m minterms IH]; intros essential H; simpl; [exact H|].
  apply IH. unfold essentialStep.
  destruct (getOrEmpty Z.eqb mToImps m) as [|i [|i' l]]; try exact H.
  now apply (setAdd_NoDup Nat.eqb Nat.eqb_eq).
Qed.

Lemma essentialOf_NoDup (mToImps : Chart) (minterms : list Z) :
  NoDup (essentialOf mToImps minterms).
Proof. apply fold_essentialStep_NoDup. constructor. Qed.

Lemma fold_coveredStep (primes : list Implicant) (essential : list nat) :
  forall acc : list Z,
    (forall e, In e essential -> e < length primes) ->
    exists cm,
      fold_left (coveredStep primes) essential (Some acc) = Some cm /\
      forall m, In m cm <->
                In m acc \/
                exists e p, In e essential /\ nth_error primes e = Some p /\
                            In m (covered p).
Proof.
  induction essential as [|e essential IH]; intros acc Hlt; simpl.
  - exists acc. split; [reflexivity|]. intros m. split; [auto|].
    intros [H|(e & p & [] & _)]. exact H.
  - destruct (nth_error primes e) as [p|] eqn:Ep.
    2:{ apply nth_error_None in Ep. specialize (Hlt e (or_introl eq_refl)). lia. }
    destruct (IH (fold_left (setAdd Z.eqb) (covered p) acc)) as (cm & E & Hcm).
    { intros e' He'. apply Hlt. now right. }
    exists cm. split; [exact E|].
    intros m. rewrite Hcm, (fold_setAdd_In Z.eqb Z.eqb_eq). split.
    + intros [[H|H]|(e' & q & H1 & H2 & H3)].
      * now left.
      * right. exists e, p. auto.
      * right. exists e', q. auto.
    + intros [H|(e' & q & [<-|H1] & H2 & H3)].
      * auto.
      * left. right. congruence.
      * right. exists e', q. auto.
Qed.

Lemma lookupAll_Some (primes : list Implicant) (indices : list nat) :
  (forall i, In i indices -> i < length primes) ->
  exists ps, lookupAll primes indices = Some ps.
Proof.
  induction indices as [|i indices IH]; intros Hlt; simpl.
  - exists []. reflexivity.
  - destruct (nth_error primes i) as [p|] eqn:Ep.
    2:{ apply nth_error_None in Ep. specialize (Hlt i (or_introl eq_refl)). lia. }
    destruct IH as (ps & ->); [intros j Hj; apply Hlt; now right|].
    exists (p :: ps). reflexivity.
Qed.

Lemma lookupAll_In (primes : list Implicant) (indices : list nat) :
  forall (ps : list Implicant) (p : Implicant),
    lookupAll primes indices = Some ps ->
    (In p ps <-> exists i, In i indices /\ nth_error primes i = Some p).
Proof.
  induction indices as [|i indices IH]; intros ps p H; simpl in H.
  - injection H as <-. split; [intros []|intros (i & [] & _)].
  - destruct (nth_error primes i) as [q|] eqn:Eq; [|discriminate].
    destruct (lookupAll primes indices) as [qs|] eqn:Eqs; [|discriminate].
    injection H as <-. simpl. rewrite (IH qs p eq_refl). split.
    + intros [<-|(j & Hj & Hp)]; [exists i; auto|exists j; auto].
    + intros (j & [<-|Hj] & Hp); [left; congruence|right; exists j; auto].
Qed.

Lemma lookupAll_members (primes : list Implicant) (indices : list nat)
    (ps : list Implicant) (p : Implicant) :
  lookupAll primes indices = Some ps -> In p ps -> In p primes.
Proof.
  intros H Hp. apply (lookupAll_In _ _ _ p H) in Hp.
  destruct Hp as (i & _ & Hi). eapply nth_error_In. exact Hi.
Qed.

Lemma chosenOf_In (mToImps : Chart) (essential : list nat) (remaining : list Z)
    (i : nat) :
  In i (chosenOf mToImps essential remaining) <->
  In i essential \/
  (remaining <> [] /\
   In i (petricksMethod (map (getOrEmpty Z.eqb mToImps) remaining))).
Proof.
  unfold chosenOf. destruct remaining as [|m remaining].
  - simpl. rewrite (setFrom_In Nat.eqb Nat.eqb_eq). intuition.
  - cbn [length Nat.ltb Nat.leb].
    rewrite (fold_setAdd_In Nat.eqb Nat.eqb_eq), (setFrom_In Nat.eqb Nat.eqb_eq).
    intuition discriminate.
Qed.

(** ** minimizeKMapJS: the shape of a run *)

Lemma guard_false (opts : SolveOptions) :
  (2 <= numInputs opts <= 6)%Z ->
  ((numInputs opts <? 2) || (6 <? numInputs opts))%Z = false.
Proof.
  intros H. apply orb_false_iff. split; apply Z.ltb_ge; lia.
Qed.

Lemma guard_true (opts : SolveOptions) :
  (numInputs opts < 2 \/ 6 < numInputs opts)%Z ->
  ((numInputs opts <? 2) || (6 <? numInputs opts))%Z = true.
Proof.
  intros H. apply orb_true_iff. destruct H; [left|right]; apply Z.ltb_lt; lia.
Qed.

(** What a returned result is made of. *)
Lemma minimizeKMapJS_Returned (opts : SolveOptions) (r : SolveResult) :
  minimizeKMapJS opts = Returned r ->
  (2 <= numInputs opts <= 6)%Z /\
  exists allPrime rounds cm,
    let w := Z.to_nat (numInputs opts) in
    let primes := primeChart allPrime (mintermsOf opts) w in
    let chart := buildChart 0 primes [] in
    let essential := essentialOf chart (mintermsOf opts) in
    let remaining := remainingOf (mintermsOf opts) cm in
    generate (universeOf opts) w = Some (allPrime, rounds) /\
    coveredMintermsOf primes essential = Some cm /\
    lookupAll primes (sortBy Nat.leb (chosenOf chart essential remaining))
      = Some (selectedImplicants r) /\
    lookupAll primes (sortBy Nat.leb essential)
      = Some (essentialPrimeImplicants r) /\
    primeImplicants r = primes /\
    resNumInputs r = numInputs opts /\
    expression r
      = orZero (join (lit " + ")
                  (map (fun imp => formatImplicant (bits imp) (effectiveVars opts))
                       (selectedImplicants r))) /\
    latex r
      = lit "$F = "
        ++ join (lit " + ")
             (map (fun imp => formatImplicantLatex (bits imp) (effectiveVars opts))
                  (selectedImplicants r))
        ++ lit "$".
Proof.
  unfold minimizeKMapJS.
  destruct ((numInputs opts <? 2) || (6 <? numInputs opts))%Z eqn:Eg;
    [discriminate|].
  apply orb_false_iff in Eg. destruct Eg as [E1 E2].
  apply Z.ltb_ge in E1, E2.
  destruct (generate (universeOf opts) (Z.to_nat (numInputs opts)))
    as [[allPrime rounds]|] eqn:Egen; [|discriminate].
  destruct (coveredMintermsOf _ _) as [cm|] eqn:Ecm; [|discriminate].
  destruct (lookupAll _ (sortBy Nat.leb (chosenOf _ _ _))) as [selected|] eqn:Es;
    [|discriminate].
  destruct (lookupAll _ (sortBy Nat.leb (essentialOf _ _))) as [essentials|] eqn:Ee;
    [|discriminate].
  intros H. injection H as <-. split; [lia|].
  exists allPrime, rounds, cm. cbn zeta. cbn [selectedImplicants
    essentialPrimeImplicants primeImplicants resNumInputs expression latex].
  repeat split; assumption.
Qed.

Lemma chart_index_valid (primes : list Implicant) (m : Z) (j : nat) :
  In j (getOrEmpty Z.eqb (buildChart 0 primes []) m) -> j < length primes.
Proof.
  intros H. apply chart_get in H. destruct H as (p & Hp & _).
  apply nth_error_Some. congruence.
Qed.

Lemma essential_index_valid (primes : list Implicant) (minterms : list Z) (e : nat) :
  In e (essentialOf (buildChart 0 primes []) minterms) -> e < length primes.
Proof.
  intros H. apply essentialOf_In in H. destruct H as (m & _ & E).
  apply (chart_index_valid primes m). rewrite E. now left.
Qed.

Lemma chosen_index_valid (primes : list Implicant) (minterms remaining : list Z)
    (i : nat) :
  In i (chosenOf (buildChart 0 primes [])
          (essentialOf (buildChart 0 primes []) minterms) remaining) ->
  i < length primes.
Proof.
  intros H. apply chosenOf_In in H. destruct H as [H|[_ H]].
  - eapply essential_index_valid. exact H.
  - apply petricksMethod_elements in H. destruct H as (c & Hc & Hi).
    apply in_map_iff in Hc. destruct Hc as (m & <- & _).
    eapply chart_index_valid. exact Hi.
Qed.

(** For a number of inputs between 2 and 6 the function returns a result:
    the loop ends within its fuel and no index is out of range. *)
Lemma minimizeKMapJS_returns (opts : SolveOptions) :
  (2 <= numInputs opts <= 6)%Z -> exists r, minimizeKMapJS opts = Returned r.
Proof.
  intros Hn. unfold minimizeKMapJS. rewrite (guard_false opts Hn).
  destruct (generate_returns (universeOf opts) (Z.to_nat (numInputs opts)))
    as (allPrime & rounds & -> & _).
  set (primes := primeChart allPrime (mintermsOf opts) (Z.to_nat (numInputs opts))).
  set (chart := buildChart 0 primes []).
  set (essential := essentialOf chart (mintermsOf opts)).
  destruct (fold_coveredStep primes essential [])
    as (cm & Ecm & _).
  { intros e He. eapply essential_index_valid. exact He. }
  unfold coveredMintermsOf. rewrite Ecm.
  destruct (lookupAll_Some primes
              (sortBy Nat.leb (chosenOf chart essential
                                 (remainingOf (mintermsOf opts) cm))))
    as (selected & ->).
  { intros i Hi. apply sortBy_In in Hi. eapply chosen_index_valid. exact Hi. }
  destruct (lookupAll_Some primes (sortBy Nat.leb essential)) as (essentials & ->).
  { intros i Hi. apply sortBy_In in Hi. eapply essential_index_valid. exact Hi. }
  eexists. reflexivity.
Qed.

(** The loop never runs out of the fuel it is given and no property of
    [undefined] is read: a call either throws the configuration error or
    returns. *)
Lemma minimizeKMapJS_total (opts : SolveOptions) :
  minimizeKMapJS opts = Threw (lit "numInputs must be between 2 and 6.") \/
  exists r, minimizeKMapJS opts = Returned r.
Proof.
  destruct (Z.lt_ge_cases (numInputs opts) 2) as [H|H].
  - left. unfold minimizeKMapJS. now rewrite guard_true by auto.
  - destruct (Z.lt_ge_cases 6 (numInputs opts)) as [H'|H'].
    + left. unfold minimizeKMapJS. now rewrite guard_true by auto.
    + right. apply minimizeKMapJS_returns. lia.
Qed.

Lemma coveredMintermsOf_In (primes : list Implicant) (essential : list nat)
    (cm : list Z) (m : Z) :
  (forall e, In e essential -> e < length primes) ->
  coveredMintermsOf primes essential = Some cm ->
  (In m cm <->
   exists e p, In e essential /\ nth_error primes e = Some p /\ In m (covered p)).
Proof.
  intros Hlt H. destruct (fold_coveredStep primes essential [] Hlt) as (cm' & E & Hcm).
  unfold coveredMintermsOf in H. rewrite E in H. injection H as ->.
  rewrite Hcm. simpl. tauto.
Qed.

(** ** Every required minterm is covered by a selected implicant *)

Section Coverage.
Variables (opts : SolveOptions) (r : SolveResult).
Hypothesis Hrun : minimizeKMapJS opts = Returned r.

Lemma prime_covers_minterm (m : Z) :
  In m (mintermsOf opts) ->
  exists j p, nth_error (primeImplicants r) j = Some p /\ In m (covered p) /\
              coveredBy (bits p) m (Z.to_nat (numInputs opts)) = true.
Proof.
  intros Hm.
  destruct (minimizeKMapJS_Returned opts r Hrun)
    as (_ & allPrime & rounds & cm & Hgen & _ & _ & _ & Hpr & _).
  assert (Hu : In m (universeOf opts)).
  { apply sortedSetZ_In, in_or_app. now left. }
  destruct (generate_covers _ _ _ _ m Hgen Hu) as (x & Hx & Hc).
  destruct (uniqueByBits_keeps allPrime x Hx) as (y & Hy & Hb).
  set (p := {| bits := bits y;
               covered := expandCoverage (bits y) (mintermsOf opts)
                            (Z.to_nat (numInputs opts)) |}).
  assert (Hp : In p (primeImplicants r)).
  { rewrite Hpr. apply primeChart_In. exists y. auto. }
  destruct (In_nth_error _ _ Hp) as (j & Hj).
  exists j, p. split; [exact Hj|]. simpl. rewrite Hb. split; [|exact Hc].
  unfold expandCoverage. apply filter_In. auto.
Qed.

Lemma selected_covers_minterm (m : Z) :
  In m (mintermsOf opts) ->
  exists p, In p (selectedImplicants r) /\ In m (covered p).
Proof.
  intros Hm.
  pose proof prime_covers_minterm as Hprime.
  destruct (minimizeKMapJS_Returned opts r Hrun)
    as (_ & allPrime & rounds & cm & _ & Hcm & Hsel & _ & Hpr & _).
  cbn zeta in *.
  set (primes := primeChart allPrime (mintermsOf opts) (Z.to_nat (numInputs opts))) in *.
  set (chart := buildChart 0 primes []) in *.
  set (essential := essentialOf chart (mintermsOf opts)) in *.
  set (remaining := remainingOf (mintermsOf opts) cm) in *.
  assert (Hclause : forall m', In m' (mintermsOf opts) ->
                               getOrEmpty Z.eqb chart m' <> []).
  { intros m' Hm' E. destruct (Hprime m' Hm') as (j & p & Hj & Hp & _).
    rewrite Hpr in Hj.
    assert (Hin : In j (getOrEmpty Z.eqb chart m'))
      by (apply chart_get; exists p; auto).
    rewrite E in Hin. destruct Hin. }
  assert (Hpick : forall i q, In i (chosenOf chart essential remaining) ->
                              nth_error primes i = Some q -> In q (selectedImplicants r)).
  { intros i q Hi Hq. apply (lookupAll_In _ _ _ q Hsel).
    exists i. split; [now apply sortBy_In|exact Hq]. }
  destruct (setHas Z.eqb cm m) eqn:Ecov.
  - apply (setHas_In Z.eqb Z.eqb_eq) in Ecov.
    apply (coveredMintermsOf_In primes essential cm m) in Ecov;
      [|intros e He; eapply essential_index_valid; exact He|exact Hcm].
    destruct Ecov as (e & q & He & Hq & Hmq).
    exists q. split; [|exact Hmq].
    apply (Hpick e q); [|exact Hq]. apply chosenOf_In. now left.
  - assert (Hrem : In m remaining).
    { apply filter_In. split; [exact Hm|]. now rewrite Ecov. }
    destruct (petricksMethod_hits (map (getOrEmpty Z.eqb chart) remaining))
      as [_ Hhit].
    { intros c Hc. apply in_map_iff in Hc. destruct Hc as (m' & <- & Hm').
      apply Hclause. apply filter_In in Hm'. tauto. }
    destruct (Hhit (getOrEmpty Z.eqb chart m)) as (i & Hi & Hip).
    { apply in_map. exact Hrem. }
    apply chart_get in Hi. destruct Hi as (q & Hq & Hmq).
    exists q. split; [|exact Hmq].
    apply (Hpick i q); [|exact Hq]. apply chosenOf_In. right.
    split; [|exact Hip]. intros E. rewrite E in Hrem. destruct Hrem.
Qed.

Lemma selected_are_primes (p : Implicant) :
  In p (selectedImplicants r) -> In p (primeImplicants r).
Proof.
  destruct (minimizeKMapJS_Returned opts r Hrun)
    as (_ & allPrime & rounds & cm & _ & _ & Hsel & _ & Hpr & _).
  rewrite Hpr. apply (lookupAll_members _ _ _ _ Hsel).
Qed.

Lemma essentials_are_primes (p : Implicant) :
  In p (essentialPrimeImplicants r) -> In p (primeImplicants r).
Proof.
  destruct (minimizeKMapJS_Returned opts r Hrun)
    as (_ & allPrime & rounds & cm & _ & _ & _ & Hess & Hpr & _).
  rewrite Hpr. apply (lookupAll_members _ _ _ _ Hess).
Qed.

Lemma prime_covered_spec (p : Implicant) (m : Z) :
  In p (primeImplicants r) ->
  (In m (covered p) <->
   In m (mintermsOf opts) /\
   coveredBy (bits p) m (Z.to_nat (numInputs opts)) = true).
Proof.
  destruct (minimizeKMapJS_Returned opts r Hrun)
    as (_ & allPrime & rounds & cm & _ & _ & _ & _ & Hpr & _).
  rewrite Hpr. apply primeChart_covered.
Qed.
End Coverage.

(** ** Completeness of the selection *)

(** C1. For a number of inputs between 2 and 6, [minimizeKMapJS] returns a
    result, and a number is in the [covered] array of some selected implicant
    exactly when it is in the deduplicated sorted list of minterms
    ([mintermsOf], strictly ascending, which holds the same numbers as
    [minterms]): no required minterm is missing and nothing else is covered.
    The proof does not use
    that the minterms and don't-cares fit in [numInputs] bits, so the
    statement holds for them in particular. *)
Theorem selected_cover_exactly_the_minterms (opts : SolveOptions) :
  (2 <= numInputs opts <= 6)%Z ->
  exists r,
    minimizeKMapJS opts = Returned r /\
    (forall m, (exists p, In p (selectedImplicants r) /\ In m (covered p))
               <-> In m (mintermsOf opts)) /\
    (forall m, In m (mintermsOf opts) <-> In m (minterms opts)) /\
    StronglySorted Z.lt (mintermsOf opts).
Proof.
  intros Hn. destruct (minimizeKMapJS_returns opts Hn) as (r & Hr).
  exists r. split; [exact Hr|]. split; [|split].
  - intros m. split.
    + intros (p & Hp & Hm).
      apply (prime_covered_spec opts r Hr p m); [|exact Hm].
      now apply (selected_are_primes opts r Hr).
    + apply (selected_covers_minterm opts r Hr).
  - intros m. apply sortedSetZ_In.
  - apply sortedSetZ_strict.
Qed.

Lemma selected_cover_exactly_the_minterms_witness :
  (2 <= numInputs checkerboardExample <= 6)%Z /\
  exists r,
    minimizeKMapJS checkerboardExample = Returned r /\
    (forall m, (exists p, In p (selectedImplicants r) /\ In m (covered p))
               <-> In m (mintermsOf checkerboardExample)) /\
    (forall m, In m (mintermsOf checkerboardExample)
               <-> In m (minterms checkerboardExample)) /\
    StronglySorted Z.lt (mintermsOf checkerboardExample).
Proof.
  assert (H : (2 <= numInputs checkerboardExample <= 6)%Z) by (simpl; lia).
  split; [exact H|].
  exact (selected_cover_exactly_the_minterms checkerboardExample H).
Defined.

(** ** Out-of-range minterms *)

(** With two inputs and the minterm 4 the function returns a result in which
    4 is in the [covered] array of the selected implicant 100, a pattern that
    matches it: the minterm is not left out of the coverage. *)
Lemma out_of_range_minterm_is_covered :
  In 4%Z (minterms outOfRangeExample) /\
  (2 ^ numInputs outOfRangeExample <= 4)%Z /\
  exists r p,
    minimizeKMapJS outOfRangeExample = Returned r /\
    In p (selectedImplicants r) /\ In p (primeImplicants r) /\
    bits p = lit "100" /\
    coveredBy (bits p) 4 2 = true /\
    In 4%Z (covered p).
Proof.
  split; [now left|]. split; [vm_compute; discriminate|].
  eexists. exists {| bits := lit "100"; covered := [4%Z] |}.
  split; [vm_compute; reflexivity|].
  cbn [selectedImplicants primeImplicants bits covered].
  split; [now left|]. split; [now left|]. split; [reflexivity|].
  split; [reflexivity|]. now left.
Qed.

(** C2, as the code has it.  For a number of inputs between 2 and 6 and a
    minterm [m] of at least [2^numInputs], [minimizeKMapJS] does not crash:
    it returns a result.  The minterm is not left out: some selected
    implicant, which is one of the returned prime implicants and whose
    pattern matches [m] on the first [numInputs] positions, has [m] in its
    [covered] array. *)
Theorem out_of_range_minterm_returns_and_is_covered (opts : SolveOptions) (m : Z) :
  (2 <= numInputs opts <= 6)%Z ->
  In m (minterms opts) -> (2 ^ numInputs opts <= m)%Z ->
  exists r,
    minimizeKMapJS opts = Returned r /\
    exists p,
      In p (selectedImplicants r) /\ In p (primeImplicants r) /\
      In m (covered p) /\
      coveredBy (bits p) m (Z.to_nat (numInputs opts)) = true.
Proof.
  intros Hn Hm _. destruct (minimizeKMapJS_returns opts Hn) as (r & Hr).
  exists r. split; [exact Hr|].
  assert (Hm' : In m (mintermsOf opts)) by now apply sortedSetZ_In.
  destruct (selected_covers_minterm opts r Hr m Hm') as (p & Hp & Hc).
  pose proof (selected_are_primes opts r Hr p Hp) as Hpp.
  exists p. repeat split; try assumption.
  now apply (prime_covered_spec opts r Hr p m Hpp).
Qed.

Lemma out_of_range_minterm_returns_and_is_covered_witness :
  (2 <= numInputs outOfRangeExample <= 6)%Z /\
  In 4%Z (minterms outOfRangeExample) /\
  (2 ^ numInputs outOfRangeExample <= 4)%Z /\
  exists r,
    minimizeKMapJS outOfRangeExample = Returned r /\
    exists p,
      In p (selectedImplicants r) /\ In p (primeImplicants r) /\
      In 4%Z (covered p) /\
      coveredBy (bits p) 4 (Z.to_nat (numInputs outOfRangeExample)) = true.
Proof.
  assert (H1 : (2 <= numInputs outOfRangeExample <= 6)%Z) by (simpl; lia).
  assert (H2 : In 4%Z (minterms outOfRangeExample)) by (simpl; auto).
  assert (H3 : (2 ^ numInputs outOfRangeExample <= 4)%Z) by (simpl; lia).
  split; [exact H1|]. split; [exact H2|]. split; [exact H3|].
  exact (out_of_range_minterm_returns_and_is_covered outOfRangeExample 4 H1 H2 H3).
Defined.

(** ** Essential prime implicants *)

(** C5. For a number of inputs between 2 and 6 (whether or not the numbers
    fit in that many bits), every implicant [e] of [essentialPrimeImplicants]
    sits at some index [i] of [primeImplicants] and has in its [covered]
    array a required minterm [m] that no prime implicant at another index
    covers. *)
Theorem essential_implicant_covers_a_minterm_alone (opts : SolveOptions) :
  (2 <= numInputs opts <= 6)%Z ->
  exists r,
    minimizeKMapJS opts = Returned r /\
    forall e, In e (essentialPrimeImplicants r) ->
      exists i m,
        nth_error (primeImplicants r) i = Some e /\
        In m (minterms opts) /\ In m (covered e) /\
        forall j p, nth_error (primeImplicants r) j = Some p ->
                    In m (covered p) -> j = i.
Proof.
  intros Hn. destruct (minimizeKMapJS_returns opts Hn) as (r & Hr).
  exists r. split; [exact Hr|]. intros e He.
  destruct (minimizeKMapJS_Returned opts r Hr)
    as (_ & allPrime & rounds & cm & _ & _ & _ & Hess & Hpr & _).
  cbn zeta in *.
  apply (lookupAll_In _ _ _ e Hess) in He. destruct He as (i & Hi & Hie).
  apply sortBy_In, essentialOf_In in Hi. destruct Hi as (m & Hm & Hone).
  exists i, m. rewrite Hpr.
  assert (Hin : In i (getOrEmpty Z.eqb
                        (buildChart 0 (primeChart allPrime (mintermsOf opts)
                                         (Z.to_nat (numInputs opts))) []) m))
    by (rewrite Hone; now left).
  apply chart_get in Hin. destruct Hin as (e' & He' & Hme).
  assert (e' = e) by congruence. subst e'.
  repeat split; try assumption.
  - now apply sortedSetZ_In.
  - intros j p Hj Hp.
    assert (Hjin : In j (getOrEmpty Z.eqb
                        (buildChart 0 (primeChart allPrime (mintermsOf opts)
                                         (Z.to_nat (numInputs opts))) []) m))
      by (apply chart_get; exists p; auto).
    rewrite Hone in Hjin. destruct Hjin as [<-|[]]. reflexivity.
Qed.

Lemma essential_implicant_covers_a_minterm_alone_witness :
  (2 <= numInputs checkerboardExample <= 6)%Z /\
  exists r,
    minimizeKMapJS checkerboardExample = Returned r /\
    forall e, In e (essentialPrimeImplicants r) ->
      exists i m,
        nth_error (primeImplicants r) i = Some e /\
        In m (minterms checkerboardExample) /\ In m (covered e) /\
        forall j p, nth_error (primeImplicants r) j = Some p ->
                    In m (covered p) -> j = i.
Proof.
  assert (H : (2 <= numInputs checkerboardExample <= 6)%Z) by (simpl; lia).
  split; [exact H|].
  exact (essential_implicant_covers_a_minterm_alone checkerboardExample H).
Defined.

(** ** The configuration error *)

(** C8. When [numInputs] is below 2 or above 6 the call throws an error
    whose message names the accepted range, and so returns no result; when
    [numInputs] is between 2 and 6 the call returns a result. *)
Theorem numInputs_outside_range_throws (opts : SolveOptions) :
  ((numInputs opts < 2 \/ 6 < numInputs opts)%Z ->
   minimizeKMapJS opts = Threw (lit "numInputs must be between 2 and 6.") /\
   forall r, minimizeKMapJS opts <> Returned r) /\
  ((2 <= numInputs opts <= 6)%Z ->
   exists r, minimizeKMapJS opts = Returned r).
Proof.
  split.
  - intros H. unfold minimizeKMapJS. rewrite (guard_true opts H).
    split; [reflexivity|discriminate].
  - apply minimizeKMapJS_returns.
Qed.

Lemma numInputs_outside_range_throws_witness :
  ((numInputs oneInputExample < 2 \/ 6 < numInputs oneInputExample)%Z /\
   minimizeKMapJS oneInputExample = Threw (lit "numInputs must be between 2 and 6.") /\
   forall r, minimizeKMapJS oneInputExample <> Returned r) /\
  ((2 <= numInputs checkerboardExample <= 6)%Z /\
   exists r, minimizeKMapJS checkerboardExample = Returned r).
Proof.
  assert (H1 : (numInputs oneInputExample < 2 \/ 6 < numInputs oneInputExample)%Z)
    by (left; simpl; lia).
  assert (H2 : (2 <= numInputs checkerboardExample <= 6)%Z) by (simpl; lia).
  split.
  - split; [exact H1|].
    exact (proj1 (numInputs_outside_range_throws oneInputExample) H1).
  - split; [exact H2|].
    exact (proj2 (numInputs_outside_range_throws checkerboardExample) H2).
Defined.

(** ** The choice made by Petrick's method *)

Lemma filter_none {A : Type} (f : A -> bool) (l : list A) :
  (forall x, In x l -> f x = false) -> filter f l = [].
Proof.
  induction l as [|x l IH]; intros H; simpl; [reflexivity|].
  rewrite (H x (or_introl eq_refl)). apply IH. intros y Hy. apply H. now right.
Qed.

(** With nothing left to cover, the selection is the essential set. *)
Lemma selection_without_remaining (opts : SolveOptions) (r : SolveResult) :
  minimizeKMapJS opts = Returned r ->
  (forall m, In m (minterms opts) ->
             exists e, In e (essentialPrimeImplicants r) /\ In m (covered e)) ->
  selectedImplicants r = essentialPrimeImplicants r.
Proof.
  intros Hr Hall.
  destruct (minimizeKMapJS_Returned opts r Hr)
    as (_ & allPrime & rounds & cm & _ & Hcm & Hsel & Hess & _).
  cbn zeta in *.
  set (primes := primeChart allPrime (mintermsOf opts) (Z.to_nat (numInputs opts))) in *.
  set (chart := buildChart 0 primes []) in *.
  set (essential := essentialOf chart (mintermsOf opts)) in *.
  assert (Hrem : remainingOf (mintermsOf opts) cm = []).
  { unfold remainingOf. apply filter_none. intros m Hm.
    apply negb_false_iff, (setHas_In Z.eqb Z.eqb_eq).
    apply (coveredMintermsOf_In primes essential cm m);
      [intros e He; eapply essential_index_valid; exact He|exact Hcm|].
    apply (proj1 (sortedSetZ_In (minterms opts) m)) in Hm.
    destruct (Hall m Hm) as (e & He & Hme).
    apply (lookupAll_In _ _ _ e Hess) in He. destruct He as (i & Hi & Hie).
    exists i, e. split; [now apply sortBy_In in Hi|auto]. }
  rewrite Hrem in Hsel. unfold chosenOf in Hsel. simpl in Hsel.
  rewrite (setFrom_NoDup_id Nat.eqb Nat.eqb_eq) in Hsel
    by apply essentialOf_NoDup.
  congruence.
Qed.

(** C4. When every clause is non-empty, [petricksMethod] returns a list of
    indices that holds an index of every clause; the list is one of the
    combinations left by the last fold ([petrickSolutions]) and none of
    those is shorter.  When no minterm remains, nothing is added to the
    essential set ([chosenOf] on an empty [remaining]), so that a run in
    which the essential implicants cover every minterm selects exactly the
    essential implicants. *)
Theorem petricksMethod_smallest_cover (coverSets : list (list nat)) :
  (forall c, In c coverSets -> c <> []) ->
  (forall c, In c coverSets ->
             exists i, In i c /\ In i (petricksMethod coverSets)) /\
  In (petricksMethod coverSets) (petrickSolutions coverSets) /\
  (forall s, In s (petrickSolutions coverSets) ->
             length (petricksMethod coverSets) <= length s) /\
  (forall mToImps essential,
     chosenOf mToImps essential [] = setFrom Nat.eqb essential) /\
  (forall opts r,
     minimizeKMapJS opts = Returned r ->
     (forall m, In m (minterms opts) ->
                exists e, In e (essentialPrimeImplicants r) /\ In m (covered e)) ->
     selectedImplicants r = essentialPrimeImplicants r).
Proof.
  intros Hne. destruct (petricksMethod_hits coverSets Hne) as [Hin Hhit].
  split; [exact Hhit|]. split; [exact Hin|]. split.
  - destruct (petricksMethod_head coverSets) as [[E _]|[_ Hmin]]; [|exact Hmin].
    rewrite E in Hin. destruct Hin.
  - split; [reflexivity|]. exact selection_without_remaining.
Qed.

Lemma clauses_nonempty_example :
  forall c, In c [[0; 1]; [1; 2]; [0; 2]] -> c <> [].
Proof.
  intros c [<-|[<-|[<-|[]]]]; discriminate.
Defined.

Lemma petricksMethod_smallest_cover_witness :
  (forall c, In c [[0; 1]; [1; 2]; [0; 2]] -> c <> []) /\
  petricksMethod [[0; 1]; [1; 2]; [0; 2]] = [0; 1] /\
  (forall c, In c [[0; 1]; [1; 2]; [0; 2]] ->
             exists i, In i c /\ In i (petricksMethod [[0; 1]; [1; 2]; [0; 2]])) /\
  (forall s, In s (petrickSolutions [[0; 1]; [1; 2]; [0; 2]]) ->
             length (petricksMethod [[0; 1]; [1; 2]; [0; 2]]) <= length s).
Proof.
  split; [exact clauses_nonempty_example|]. split; [reflexivity|].
  pose proof (petricksMethod_smallest_cover [[0; 1]; [1; 2]; [0; 2]]
                clauses_nonempty_example) as (H1 & _ & H3 & _).
  split; [exact H1|exact H3].
Defined.

(** ** The empty selection *)

Lemma no_minterms_no_selection (opts : SolveOptions) (r : SolveResult) :
  minimizeKMapJS opts = Returned r -> minterms opts = [] ->
  selectedImplicants r = [].
Proof.
  intros Hr Hm.
  destruct (selectedImplicants r) as [|p ps] eqn:E; [reflexivity|exfalso].
  assert (Hp : In p (selectedImplicants r)) by (rewrite E; now left).
  destruct (minimizeKMapJS_Returned opts r Hr)
    as (_ & allPrime & rounds & cm & _ & _ & Hsel & _).
  cbn zeta in *.
  apply (lookupAll_In _ _ _ p Hsel) in Hp. destruct Hp as (i & Hi & _).
  apply sortBy_In, chosenOf_In in Hi.
  assert (Hnone : mintermsOf opts = []) by (unfold mintermsOf; now rewrite Hm).
  rewrite Hnone in Hi. destruct Hi as [[]|[Hrem _]].
  now apply Hrem.
Qed.

(** C10. For a number of inputs between 2 and 6 the function returns a
    result; when its selection is empty, [expression] is the string 0 and
    [latex] is exactly the string $F = $, with nothing between the equals
    sign and the closing dollar.  An input without minterms is such a
    case. *)
Theorem empty_selection_renders_zero_and_bare_latex (opts : SolveOptions) :
  (2 <= numInputs opts <= 6)%Z ->
  exists r,
    minimizeKMapJS opts = Returned r /\
    (selectedImplicants r = [] ->
     expression r = lit "0" /\ latex r = lit "$F = $") /\
    (minterms opts = [] -> selectedImplicants r = []).
Proof.
  intros Hn. destruct (minimizeKMapJS_returns opts Hn) as (r & Hr).
  exists r. split; [exact Hr|]. split.
  - intros Hs.
    destruct (minimizeKMapJS_Returned opts r Hr)
      as (_ & allPrime & rounds & cm & _ & _ & _ & _ & _ & _ & Hex & Hlx).
    cbn zeta in *. rewrite Hex, Hlx, Hs. split; reflexivity.
  - apply no_minterms_no_selection. exact Hr.
Qed.

Lemma empty_selection_renders_zero_and_bare_latex_witness :
  (2 <= numInputs emptyExample <= 6)%Z /\
  minterms emptyExample = [] /\
  exists r,
    minimizeKMapJS emptyExample = Returned r /\
    selectedImplicants r = [] /\
    expression r = lit "0" /\ latex r = lit "$F = $".
Proof.
  assert (H : (2 <= numInputs emptyExample <= 6)%Z) by (simpl; lia).
  split; [exact H|]. split; [reflexivity|].
  destruct (empty_selection_renders_zero_and_bare_latex emptyExample H)
    as (r & Hr & Hzero & Hsel).
  exists r. split; [exact Hr|].
  split; [exact (Hsel eq_refl)|exact (Hzero (Hsel eq_refl))].
Defined.

(** ** Patterns of inputs within range *)

Lemma posDigits_length (p : positive) :
  forall acc, length (posDigits p acc) = Pos.size_nat p + length acc.
Proof.
  induction p as [q IH|q IH|]; intros acc; simpl; [| |reflexivity];
    rewrite IH; simpl; lia.
Qed.

Lemma posDigits_bits (p : positive) :
  forall acc, Forall isConcrete acc -> Forall isConcrete (posDigits p acc).
Proof.
  induction p as [q IH|q IH|]; intros acc H; simpl.
  - apply IH. constructor; [now right|exact H].
  - apply IH. constructor; [now left|exact H].
  - constructor; [now right|exact H].
Qed.

Lemma size_nat_bound (p : positive) :
  forall w : nat, (Zpos p < 2 ^ Z.of_nat w)%Z -> Pos.size_nat p <= w.
Proof.
  induction p as [q IH|q IH|]; intros [|w] H; simpl in *; try lia.
  - rewrite Pos2Z.inj_xI in H. change (Z.pow_pos 2 (Pos.of_succ_nat w))
      with (2 ^ Z.of_nat (S w))%Z in H.
    rewrite Nat2Z.inj_succ, Z.pow_succ_r in H by lia.
    apply le_n_S, IH. lia.
  - rewrite Pos2Z.inj_xO in H. change (Z.pow_pos 2 (Pos.of_succ_nat w))
      with (2 ^ Z.of_nat (S w))%Z in H.
    rewrite Nat2Z.inj_succ, Z.pow_succ_r in H by lia.
    apply le_n_S, IH. lia.
Qed.

Lemma toString2_in_range (m : Z) (w : nat) :
  0 < w -> (0 <= m < 2 ^ Z.of_nat w)%Z ->
  length (toString2 m) <= w /\ Forall isConcrete (toString2 m).
Proof.
  intros Hw [H0 H1]. destruct m as [|p|p]; simpl; [| |lia].
  - split; [lia|]. constructor; [now left|constructor].
  - rewrite posDigits_length. simpl. split.
    + pose proof (size_nat_bound p w H1). lia.
    + apply posDigits_bits. constructor.
Qed.

Lemma concrete_alphabet (s : str) : Forall isConcrete s -> overAlphabet s.
Proof.
  unfold overAlphabet. apply Forall_impl. intros c [H|H]; auto.
Qed.

Lemma toBinary_in_range (m : Z) (w : nat) :
  0 < w -> (0 <= m < 2 ^ Z.of_nat w)%Z ->
  length (toBinary m w) = w /\ overAlphabet (toBinary m w).
Proof.
  intros Hw Hm. destruct (toString2_in_range m w Hw Hm) as [Hl Hb].
  unfold toBinary, padStart. split.
  - rewrite length_app, repeat_length. lia.
  - apply concrete_alphabet, Forall_app. split; [|exact Hb].
    apply Forall_forall. intros c Hc. apply repeat_spec in Hc. now left.
Qed.

Lemma combine_alphabet (a b c : str) :
  overAlphabet a -> combine a b = Some c -> overAlphabet c.
Proof.
  unfold overAlphabet. intros Ha Hc. apply Forall_forall. intros x Hx.
  destruct (In_nth_error _ _ Hx) as (i & Hi).
  destruct (combine_chars _ _ _ Hc i x Hi) as [->|[Hai _]]; [auto|].
  rewrite Forall_forall in Ha. apply Ha. eapply nth_error_In. exact Hai.
Qed.

Lemma universe_in_range (opts : SolveOptions) (m : Z) :
  inRange opts -> In m (universeOf opts) -> fitsIn (numInputs opts) m.
Proof.
  intros [Hm Hd] H. unfold universeOf in H.
  apply sortedSetZ_In, in_app_or in H. rewrite Forall_forall in Hm, Hd.
  destruct H as [H|H]; apply (proj1 (sortedSetZ_In _ _)) in H; auto.
Qed.

Lemma fitsIn_nat (opts : SolveOptions) (m : Z) :
  (2 <= numInputs opts <= 6)%Z -> fitsIn (numInputs opts) m ->
  0 < Z.to_nat (numInputs opts) /\
  (0 <= m < 2 ^ Z.of_nat (Z.to_nat (numInputs opts)))%Z.
Proof.
  intros Hn Hm. split; [lia|]. rewrite Z2Nat.id by lia. exact Hm.
Qed.

(** With inputs in range every pattern the generator returns has
    [numInputs] characters, each 0, 1 or -. *)
Lemma generate_in_range (opts : SolveOptions) (allPrime : list Implicant)
    (rounds : nat) (x : Implicant) :
  (2 <= numInputs opts <= 6)%Z -> inRange opts ->
  generate (universeOf opts) (Z.to_nat (numInputs opts)) = Some (allPrime, rounds) ->
  In x allPrime ->
  length (bits x) = Z.to_nat (numInputs opts) /\ overAlphabet (bits x).
Proof.
  intros Hn Hr Hgen.
  apply (generate_keeps
           (fun s => length s = Z.to_nat (numInputs opts) /\ overAlphabet s)
           (universeOf opts) (Z.to_nat (numInputs opts)) allPrime rounds);
    [| |exact Hgen].
  - intros a b c [Hl Ha] Hc. split.
    + now rewrite (combine_length _ _ _ Hc).
    + eapply combine_alphabet; eassumption.
  - intros m Hm.
    destruct (fitsIn_nat opts m Hn (universe_in_range opts m Hr Hm)) as [Hw Hfit].
    now apply toBinary_in_range.
Qed.

Lemma universeOf_In (opts : SolveOptions) (m : Z) :
  In m (universeOf opts) <-> In m (minterms opts) \/ In m (givenDontCares opts).
Proof.
  unfold universeOf, mintermsOf, dontCaresOf, givenDontCares.
  rewrite sortedSetZ_In, in_app_iff, !sortedSetZ_In. tauto.
Qed.

(** *** Patterns of any input *)

(** [toBinary] writes 0, 1 and, for the sign of a negative number, '-'. *)
Lemma toBinary_alphabet (m : Z) (w : nat) : overAlphabet (toBinary m w).
Proof.
  unfold toBinary, padStart, overAlphabet. apply Forall_app. split.
  - apply Forall_forall. intros c Hc. apply repeat_spec in Hc. now left.
  - destruct m as [|p|p]; cbn [toString2].
    + constructor; [now left|constructor].
    + apply concrete_alphabet, posDigits_bits. constructor.
    + constructor; [auto|]. apply concrete_alphabet, posDigits_bits. constructor.
Qed.

(** The pattern has [w] characters for a number above [-2^(w-1)] and below
    [2^w]. *)
Lemma toBinary_length_fits (m : Z) (w : nat) :
  0 < w -> (- 2 ^ (Z.of_nat w - 1) < m < 2 ^ Z.of_nat w)%Z ->
  length (toBinary m w) = w.
Proof.
  intros Hw Hm. destruct m as [|p|p].
  - apply toBinary_in_range; [exact Hw|lia].
  - apply toBinary_in_range; [exact Hw|lia].
  - unfold toBinary, padStart. cbn [toString2].
    rewrite length_app, repeat_length. cbn [length]. rewrite posDigits_length.
    assert (Hp : Pos.size_nat p <= w - 1).
    { apply size_nat_bound. replace (Z.of_nat (w - 1)) with (Z.of_nat w - 1)%Z by lia.
      lia. }
    cbn [length]. lia.
Qed.

(** Every pattern the generator returns is over 0, 1, - and has the length
    of the pattern of a member of the universe. *)
Lemma generate_shape (universe : list Z) (w : nat) (allPrime : list Implicant)
    (rounds : nat) (x : Implicant) :
  generate universe w = Some (allPrime, rounds) -> In x allPrime ->
  overAlphabet (bits x) /\
  exists m, In m universe /\ length (bits x) = length (toBinary m w).
Proof.
  intros Hgen.
  apply (generate_keeps
           (fun s => overAlphabet s /\
                     exists m, In m universe /\ length s = length (toBinary m w))
           universe w allPrime rounds); [| |exact Hgen].
  - intros a b c [Ha (m & Hm & Hl)] Hc. split.
    + eapply combine_alphabet; eassumption.
    + exists m. split; [exact Hm|]. now rewrite (combine_length _ _ _ Hc).
  - intros m Hm. split; [apply toBinary_alphabet|]. now exists m.
Qed.

(** The same for the implicants a call returns. *)
Lemma returned_bits_shape (opts : SolveOptions) (r : SolveResult) (p : Implicant) :
  minimizeKMapJS opts = Returned r ->
  In p (primeImplicants r) \/ In p (essentialPrimeImplicants r)
  \/ In p (selectedImplicants r) ->
  overAlphabet (bits p) /\
  exists m, (In m (minterms opts) \/ In m (givenDontCares opts)) /\
            length (bits p) = length (toBinary m (Z.to_nat (numInputs opts))).
Proof.
  intros Hr Hp.
  assert (Hprime : In p (primeImplicants r)).
  { destruct Hp as [H|[H|H]]; [exact H| |].
    - now apply (essentials_are_primes opts r Hr).
    - now apply (selected_are_primes opts r Hr). }
  destruct (minimizeKMapJS_Returned opts r Hr)
    as (_ & allPrime & rounds & cm & Hgen & _ & _ & _ & Hpr & _).
  cbn zeta in *. rewrite Hpr in Hprime.
  destruct (primeChart_bits _ _ _ _ Hprime) as (x & Hx & <-).
  destruct (generate_shape _ _ _ _ x Hgen Hx) as [Ha (m & Hm & Hl)].
  split; [exact Ha|]. exists m. split; [now apply universeOf_In|exact Hl].
Qed.

Lemma returned_bits_length (opts : SolveOptions) (r : SolveResult) (p : Implicant) :
  (2 <= numInputs opts <= 6)%Z ->
  (forall m, In m (minterms opts) \/ In m (givenDontCares opts) ->
             (- 2 ^ (numInputs opts - 1) < m < 2 ^ numInputs opts)%Z) ->
  minimizeKMapJS opts = Returned r ->
  In p (primeImplicants r) \/ In p (essentialPrimeImplicants r)
  \/ In p (selectedImplicants r) ->
  length (bits p) = Z.to_nat (numInputs opts).
Proof.
  intros Hn Hfit Hr Hp.
  destruct (returned_bits_shape opts r p Hr Hp) as [_ (m & Hm & ->)].
  apply toBinary_length_fits; [lia|].
  rewrite Z2Nat.id by lia. now apply Hfit.
Qed.

(** With two inputs and the minterm 4, the prime implicant returned has the
    three-character pattern 100. *)
Lemma out_of_range_pattern_is_longer :
  exists r p,
    minimizeKMapJS outOfRangeExample = Returned r /\
    In p (primeImplicants r) /\ In p (essentialPrimeImplicants r) /\
    In p (selectedImplicants r) /\
    bits p = lit "100" /\
    length (bits p) <> Z.to_nat (numInputs outOfRangeExample).
Proof.
  eexists. exists {| bits := lit "100"; covered := [4%Z] |}.
  split; [vm_compute; reflexivity|].
  cbn [selectedImplicants primeImplicants essentialPrimeImplicants bits].
  repeat split; try (now left). vm_compute. discriminate.
Qed.

(** C3, as the code has it.  For a number of inputs between 2 and 6, every
    [bits] string of [primeImplicants], [essentialPrimeImplicants] and
    [selectedImplicants] holds only the characters 0, 1 and -, whatever the
    minterms and don't-cares are; it has at least [numInputs] characters,
    as many as the pattern [toBinary m numInputs] of some minterm or
    don't-care [m].  So it has exactly [numInputs] characters when every
    minterm and don't-care is above [-2^(numInputs-1)] and below
    [2^numInputs], as all those in [0, 2^numInputs) are. *)
Theorem bits_have_width_and_alphabet (opts : SolveOptions) :
  (2 <= numInputs opts <= 6)%Z ->
  exists r,
    minimizeKMapJS opts = Returned r /\
    (forall p,
       In p (primeImplicants r) \/ In p (essentialPrimeImplicants r)
       \/ In p (selectedImplicants r) ->
       overAlphabet (bits p) /\
       Z.to_nat (numInputs opts) <= length (bits p) /\
       exists m, (In m (minterms opts) \/ In m (givenDontCares opts)) /\
                 length (bits p)
                 = length (toBinary m (Z.to_nat (numInputs opts)))) /\
    ((forall m, In m (minterms opts) \/ In m (givenDontCares opts) ->
                (- 2 ^ (numInputs opts - 1) < m < 2 ^ numInputs opts)%Z) ->
     forall p,
       In p (primeImplicants r) \/ In p (essentialPrimeImplicants r)
       \/ In p (selectedImplicants r) ->
       length (bits p) = Z.to_nat (numInputs opts)).
Proof.
  intros Hn. destruct (minimizeKMapJS_returns opts Hn) as (r & Hr).
  exists r. split; [exact Hr|]. split.
  - intros p Hp.
    destruct (returned_bits_shape opts r p Hr Hp) as [Ha (m & Hm & Hl)].
    split; [exact Ha|]. split; [rewrite Hl; apply toBinary_min_length|].
    now exists m.
  - intros Hfit p Hp. exact (returned_bits_length opts r p Hn Hfit Hr Hp).
Qed.

Lemma checkerboard_in_range : inRange checkerboardExample.
Proof.
  split; [|constructor].
  repeat (apply Forall_cons; [unfold fitsIn; simpl; lia|]). constructor.
Defined.

Lemma checkerboard_fits (m : Z) :
  In m (minterms checkerboardExample) \/ In m (givenDontCares checkerboardExample) ->
  (- 2 ^ (numInputs checkerboardExample - 1) < m
   < 2 ^ numInputs checkerboardExample)%Z.
Proof.
  intros [H|[]]. cbn in H.
  repeat (destruct H as [<-|H]; [split; reflexivity|]). destruct H.
Defined.

Lemma bits_have_width_and_alphabet_witness :
  (2 <= numInputs checkerboardExample <= 6)%Z /\
  exists r,
    minimizeKMapJS checkerboardExample = Returned r /\
    forall p,
      In p (primeImplicants r) \/ In p (essentialPrimeImplicants r)
      \/ In p (selectedImplicants r) ->
      length (bits p) = Z.to_nat (numInputs checkerboardExample)
      /\ overAlphabet (bits p).
Proof.
  assert (H : (2 <= numInputs checkerboardExample <= 6)%Z) by (simpl; lia).
  split; [exact H|].
  destruct (bits_have_width_and_alphabet checkerboardExample H)
    as (r & Hr & Hshape & Hlen).
  exists r. split; [exact Hr|]. intros p Hp. split.
  - exact (Hlen checkerboard_fits p Hp).
  - exact (proj1 (Hshape p Hp)).
Defined.

(** ** The number of merging rounds *)

Lemma countDashes_app (s t : str) :
  countDashes (s ++ t) = countDashes s + countDashes t.
Proof. unfold countDashes. now rewrite filter_app, length_app. Qed.

Lemma combine_dashes_right (a b c : str) :
  length a = length b -> combine a b = Some c -> countDashes c = S (countDashes b).
Proof.
  intros Hl Hc. rewrite (combine_dashes _ _ _ Hc). f_equal.
  unfold combine in Hc.
  apply (combineFrom_iff a b 0 [] c Hl (Nat.le_0_l 1)) in Hc.
  destruct Hc as [[H _]|(_ & pre & ca & cb & post & -> & -> & _ & Ha & Hb & _)];
    [discriminate|].
  rewrite !countDashes_app. f_equal. unfold countDashes. simpl.
  apply Ascii.eqb_neq in Ha, Hb. now rewrite Ha, Hb.
Qed.

(** With two inputs and the numbers 8 to 15 the function returns a result,
    and the loop combined something in three rounds. *)
Lemma four_bit_universe_takes_three_rounds :
  (2 <= numInputs fourBitExample <= 6)%Z /\
  (exists r, minimizeKMapJS fourBitExample = Returned r) /\
  mergingRounds fourBitExample = Some 3 /\
  ~ (3 <= Z.to_nat (numInputs fourBitExample)).
Proof.
  split; [simpl; lia|]. split; [eexists; vm_compute; reflexivity|].
  split; [vm_compute; reflexivity|]. simpl. lia.
Qed.

(** C7, as the code has it.  For a number of inputs between 2 and 6 the
    combining loop ends.  When the minterms and don't-cares all lie in
    [0, 2^numInputs), it combines something in at most [numInputs] rounds.
    The reason: a pattern made by [combine] has the length of the first
    pattern it was made from and exactly one more '-' than it, and one more
    '-' than the second pattern too when the two have one length. *)
Theorem combining_loop_ends_within_numInputs_rounds (opts : SolveOptions) :
  (2 <= numInputs opts <= 6)%Z ->
  (exists rounds,
     mergingRounds opts = Some rounds /\
     (inRange opts -> rounds <= Z.to_nat (numInputs opts))) /\
  (forall a b c,
     combine a b = Some c ->
     length c = length a /\
     countDashes c = S (countDashes a) /\
     (length a = length b -> countDashes c = S (countDashes b))).
Proof.
  intros Hn. split.
  - unfold mergingRounds.
    destruct (generate_returns (universeOf opts) (Z.to_nat (numInputs opts)))
      as (allPrime & rounds & E & Hle).
    exists rounds. rewrite E. split; [reflexivity|].
    intros Hrange. etransitivity; [exact Hle|].
    apply list_max_le, Forall_forall. intros k Hk.
    apply in_map_iff in Hk. destruct Hk as (m & <- & Hm).
    destruct (fitsIn_nat opts m Hn (universe_in_range opts m Hrange Hm)) as [Hw Hfit].
    destruct (toBinary_in_range m _ Hw Hfit) as [-> _]. lia.
  - intros a b c Hc. split; [exact (combine_length _ _ _ Hc)|].
    split; [exact (combine_dashes _ _ _ Hc)|].
    intros Hl. exact (combine_dashes_right _ _ _ Hl Hc).
Qed.

Lemma combining_loop_ends_within_numInputs_rounds_witness :
  (2 <= numInputs checkerboardExample <= 6)%Z /\
  inRange checkerboardExample /\
  exists rounds,
    mergingRounds checkerboardExample = Some rounds /\
    rounds <= Z.to_nat (numInputs checkerboardExample).
Proof.
  assert (H : (2 <= numInputs checkerboardExample <= 6)%Z) by (simpl; lia).
  split; [exact H|]. split; [exact checkerboard_in_range|].
  destruct (combining_loop_ends_within_numInputs_rounds checkerboardExample H)
    as [(rounds & E & Hle) _].
  exists rounds. split; [exact E|exact (Hle checkerboard_in_range)].
Defined.

(** ** Rendering *)

Lemma plusFreeb_sound (s : str) : plusFreeb s = true -> plusFree s.
Proof.
  unfold plusFreeb, plusFree. intros H Hin.
  apply negb_true_iff in H.
  assert (E : existsb (Ascii.eqb "+"%char) s = true).
  { apply existsb_exists. exists "+"%char. split; [exact Hin|apply Ascii.eqb_refl]. }
  congruence.
Qed.

Lemma plusFree_app (s t : str) : plusFree (s ++ t) <-> plusFree s /\ plusFree t.
Proof. unfold plusFree. rewrite in_app_iff. tauto. Qed.

Lemma plusFree_nil : plusFree [].
Proof. intros []. Qed.

Lemma plusFree_cons (c : ascii) (s : str) :
  plusFree (c :: s) <-> c <> "+"%char /\ plusFree s.
Proof.
  unfold plusFree. simpl. split.
  - intros H. split; [intros E; apply H; left; now symmetry|tauto].
  - intros [H1 H2] [E|E]; [apply H1; now symmetry|contradiction].
Qed.

Lemma plusFree_join (sep : str) (l : list str) :
  plusFree sep -> Forall plusFree l -> plusFree (join sep l).
Proof.
  intros Hs Hl. induction Hl as [|x l Hx Hl IH]; [exact plusFree_nil|].
  destruct l as [|y l]; [exact Hx|].
  change (plusFree (x ++ sep ++ join sep (y :: l))).
  apply plusFree_app. split; [exact Hx|]. apply plusFree_app. auto.
Qed.

(** *** Splitting a joined string *)

Lemma startsWith_cons (x y : ascii) (p s : str) :
  startsWith (x :: p) (y :: s) = Ascii.eqb x y && startsWith p s.
Proof. reflexivity. Qed.

(** Reading the separator closes the current piece. *)
Lemma splitFrom_separator (rest cur : str) :
  splitFrom plusSep (plusSep ++ rest) 0 cur = cur :: splitFrom plusSep rest 0 [].
Proof. reflexivity. Qed.

Lemma splitFrom_step (sep s' : str) (c : ascii) (cur : str) :
  splitFrom sep (c :: s') 0 cur
  = if startsWith sep (c :: s') then cur :: splitFrom sep s' (length sep - 1) []
    else splitFrom sep s' 0 (cur ++ [c]).
Proof. reflexivity. Qed.

Lemma startsWith_prefix (p : str) : forall s, startsWith p s = true -> exists post, s = p ++ post.
Proof.
  induction p as [|x p IH]; intros s H; [now exists s|].
  destruct s as [|y s]; [discriminate|].
  rewrite startsWith_cons in H. apply andb_true_iff in H. destruct H as [E H].
  apply Ascii.eqb_eq in E. subst y. destruct (IH s H) as (post & ->).
  now exists post.
Qed.

Lemma occursIn_cons (p s : str) (c : ascii) : occursIn p s -> occursIn p (c :: s).
Proof. intros (pre & post & ->). now exists (c :: pre), post. Qed.

(** A " + " at the head of a term and what follows it lies in the term
    and the next two characters. *)
Lemma separator_at_head (c : ascii) (t rest : str) :
  startsWith plusSep ((c :: t) ++ rest) = true ->
  occursIn plusSep ((c :: t) ++ firstn 2 rest).
Proof.
  intros H. apply startsWith_prefix in H. destruct H as (post & E).
  exists []. cbn [app].
  destruct t as [|c2 [|c3 t]].
  - destruct rest as [|r1 [|r2 rest]]; try discriminate.
    injection E as -> -> -> _. now exists [].
  - destruct rest as [|r1 rest]; try discriminate.
    injection E as -> -> -> _. eexists. reflexivity.
  - injection E as -> -> -> _. eexists. reflexivity.
Qed.

(** Reading a term in which no " + " begins adds it to the current
    piece. *)
Lemma splitFrom_term (t : str) :
  forall (rest cur : str),
    ~ occursIn plusSep (t ++ firstn 2 rest) ->
    splitFrom plusSep (t ++ rest) 0 cur = splitFrom plusSep rest 0 (cur ++ t).
Proof.
  induction t as [|c t IH]; intros rest cur Hfree.
  - now rewrite app_nil_r.
  - change ((c :: t) ++ rest) with (c :: (t ++ rest)). rewrite splitFrom_step.
    destruct (startsWith plusSep (c :: t ++ rest)) eqn:E.
    + exfalso. apply Hfree. now apply separator_at_head.
    + rewrite IH, <- app_assoc; [reflexivity|].
      intros Hocc. apply Hfree. now apply occursIn_cons.
Qed.

(** The first piece ends where a " + " begins, or before. *)
Lemma splitFrom_head (pre : str) :
  forall (post cur : str),
    exists h tl,
      splitFrom plusSep (pre ++ plusSep ++ post) 0 cur = h :: tl /\
      length h <= length cur + length pre.
Proof.
  induction pre as [|c pre IH]; intros post cur.
  - cbn [app]. rewrite splitFrom_separator. eexists. eexists.
    split; [reflexivity|lia].
  - change ((c :: pre) ++ plusSep ++ post) with (c :: (pre ++ plusSep ++ post)).
    rewrite splitFrom_step. destruct (startsWith plusSep _).
    + eexists. eexists. split; [reflexivity|lia].
    + destruct (IH post (cur ++ [c])) as (h & tl & E & Hl).
      exists h, tl. split; [exact E|].
      rewrite length_app in Hl. cbn [length] in *. lia.
Qed.

(** A term and the " +" that follows it hold a " + " when the term holds
    one or ends in " +". *)
Lemma separator_in_followed (t : str) :
  occursIn plusSep (t ++ lit " +") <-> occursIn plusSep t \/ endsIn (lit " +") t.
Proof.
  split.
  - intros (pre & post & E).
    apply (f_equal (@rev ascii)) in E. rewrite !rev_app_distr in E.
    change (rev (lit " +")) with ["+"%char; " "%char] in E.
    change (rev plusSep) with plusSep in E.
    assert (Et : forall l, rev t = l -> t = rev l)
      by (intros l <-; now rewrite rev_involutive).
    destruct (rev post) as [|y [|x rpost]]; cbn in E.
    + discriminate.
    + injection E as _ E. right. exists pre. rewrite (Et _ E).
      cbn [rev]. rewrite rev_involutive, <- app_assoc. reflexivity.
    + injection E as _ _ E. left. exists pre, (rev rpost). rewrite (Et _ E).
      rewrite !rev_app_distr, rev_involutive. reflexivity.
  - intros [(pre & post & ->)|(pre & ->)].
    + exists pre, (post ++ lit " +"). now rewrite <- !app_assoc.
    + exists pre, ["+"%char]. rewrite <- app_assoc. reflexivity.
Qed.

Lemma apart_one (t : str) : apart [t] <-> ~ occursIn plusSep t.
Proof.
  unfold apart. cbn [removelast]. split.
  - intros [H _]. apply H. now left.
  - intros H. split; [|intros u []]. intros u [<-|[]]. exact H.
Qed.

Lemma apart_more (t t2 : str) (ts : list str) :
  apart (t :: t2 :: ts) <->
  ~ occursIn plusSep (t ++ lit " +") /\ apart (t2 :: ts).
Proof.
  unfold apart. rewrite separator_in_followed.
  change (removelast (t :: t2 :: ts)) with (t :: removelast (t2 :: ts)).
  split.
  - intros [H1 H2]. split; [|split].
    + intros [H|H]; [apply (H1 t); [now left|exact H]|].
      apply (H2 t); [now left|exact H].
    + intros u Hu. apply H1. now right.
    + intros u Hu. apply H2. now right.
  - intros [Ht [H1 H2]]. split.
    + intros u [<-|Hu]; [tauto|now apply H1].
    + intros u [<-|Hu]; [tauto|now apply H2].
Qed.

(** Splitting a join of terms that are apart gives the terms back. *)
Lemma splitFrom_join_apart (ts : list str) :
  forall cur : str,
    ts <> [] -> apart ts ->
    splitFrom plusSep (join plusSep ts) 0 cur = (cur ++ hd [] ts) :: tl ts.
Proof.
  induction ts as [|t ts IH]; intros cur Hne Hts; [contradiction|].
  destruct ts as [|t2 ts].
  - apply apart_one in Hts. cbn [join hd tl]. rewrite <- (app_nil_r t) at 1.
    rewrite splitFrom_term; [reflexivity|]. cbn [firstn]. now rewrite app_nil_r.
  - apply apart_more in Hts. destruct Hts as [Ht Hrest].
    change (join plusSep (t :: t2 :: ts))
      with (t ++ plusSep ++ join plusSep (t2 :: ts)).
    rewrite splitFrom_term by exact Ht.
    rewrite splitFrom_separator. cbn [hd tl]. f_equal.
    rewrite (IH [] ltac:(discriminate) Hrest). reflexivity.
Qed.

(** And only then. *)
Lemma splitOn_join_back (ts : list str) :
  ts <> [] -> splitOn plusSep (join plusSep ts) = ts -> apart ts.
Proof.
  induction ts as [|t ts IH]; intros Hne Hsplit; [contradiction|].
  unfold splitOn in *. destruct ts as [|t2 ts].
  - apply apart_one. cbn [join] in *. intros (pre & post & E).
    destruct (splitFrom_head pre post []) as (h & tl & Eh & Hl).
    rewrite <- E, Hsplit in Eh. injection Eh as <- _.
    rewrite E, !length_app in Hl. cbn [length] in Hl.
    unfold plusSep, lit in Hl. cbn in Hl. lia.
  - apply apart_more.
    change (join plusSep (t :: t2 :: ts))
      with (t ++ plusSep ++ join plusSep (t2 :: ts)) in Hsplit.
    assert (Ht : ~ occursIn plusSep (t ++ lit " +")).
    { intros (pre & post & E).
      assert (Ejoin : t ++ plusSep ++ join plusSep (t2 :: ts)
                      = pre ++ plusSep
                          ++ (post ++ lit " " ++ join plusSep (t2 :: ts))).
      { change plusSep with (lit " +" ++ lit " ") at 1.
        rewrite <- app_assoc, (app_assoc t), E, <- !app_assoc. reflexivity. }
      destruct (splitFrom_head pre (post ++ lit " " ++ join plusSep (t2 :: ts)) [])
        as (h & tl & Eh & Hl).
      rewrite <- Ejoin, Hsplit in Eh. injection Eh as <- _.
      apply (f_equal (@length ascii)) in E. rewrite !length_app in E.
      unfold plusSep, lit in E. cbn in E, Hl. lia. }
    split; [exact Ht|]. apply IH; [discriminate|].
    rewrite splitFrom_term in Hsplit by exact Ht.
    rewrite splitFrom_separator in Hsplit. now injection Hsplit.
Qed.

Lemma splitOn_join_iff (ts : list str) :
  ts <> [] -> (splitOn plusSep (join plusSep ts) = ts <-> apart ts).
Proof.
  intros Hne. split; [now apply splitOn_join_back|].
  intros H. unfold splitOn. rewrite splitFrom_join_apart by assumption.
  destruct ts; [contradiction|reflexivity].
Qed.

Lemma join_nil_single (sep : str) (ts : list str) :
  sep <> [] -> ts <> [] -> join sep ts = [] -> length ts = 1.
Proof.
  intros Hsep Hne E. destruct ts as [|t [|t2 ts]]; [contradiction|reflexivity|].
  change (t ++ sep ++ join sep (t2 :: ts) = []) in E.
  apply app_eq_nil in E. destruct E as [_ E].
  apply app_eq_nil in E. destruct E as [E _]. contradiction.
Qed.

(** *** The terms of one implicant *)

Lemma formatImplicant_plusFree (bs : str) (vars : list str) :
  Forall plusFree vars -> plusFree (formatImplicant bs vars).
Proof.
  intros Hv. unfold formatImplicant.
  match goal with |- context [fold_left ?f ?l ?a] =>
    assert (Hout : Forall (fun o => plusFree (joinElem o)) (fold_left f l a)) end.
  { apply fold_left_invariant; [|constructor].
    intros out i _ Hout.
    assert (Hvar : plusFree (toStr (nth_error vars i))).
    { destruct (nth_error vars i) as [v|] eqn:E; simpl.
      - rewrite Forall_forall in Hv. apply Hv. eapply nth_error_In. exact E.
      - now apply plusFreeb_sound. }
    assert (Hq : plusFree (toStr (nth_error vars i) ++ lit "'")).
    { apply plusFree_app. split; [exact Hvar|now apply plusFreeb_sound]. }
    destruct (charAt bs i) as [ch|].
    - destruct (Ascii.eqb ch dash); [exact Hout|].
      destruct (Ascii.eqb ch one); apply Forall_app; split; try exact Hout;
        constructor; try constructor; [|exact Hq].
      destruct (nth_error vars i); [exact Hvar|exact plusFree_nil].
    - apply Forall_app; split; [exact Hout|]. constructor; [exact Hq|constructor]. }
  destruct (length _ =? 0); [now apply plusFreeb_sound|].
  apply plusFree_join; [exact plusFree_nil|].
  apply Forall_map. exact Hout.
Qed.

Lemma formatImplicantLatex_plusFree (bs : str) (vars : list str) :
  Forall plusFree vars -> plusFree (formatImplicantLatex bs vars).
Proof.
  intros Hv. unfold formatImplicantLatex.
  match goal with |- context [fold_left ?f ?l ?a] =>
    assert (Hout : Forall (fun o => plusFree (joinElem o)) (fold_left f l a)) end.
  { apply fold_left_invariant; [|constructor].
    intros out i _ Hout.
    assert (Hvar : plusFree (toStr (nth_error vars i))).
    { destruct (nth_error vars i) as [v|] eqn:E; simpl.
      - rewrite Forall_forall in Hv. apply Hv. eapply nth_error_In. exact E.
      - now apply plusFreeb_sound. }
    assert (Hq : plusFree (lit "\overline{" ++ toStr (nth_error vars i) ++ lit "}")).
    { apply plusFree_app. split; [now apply plusFreeb_sound|].
      apply plusFree_app. split; [exact Hvar|now apply plusFreeb_sound]. }
    destruct (charAt bs i) as [ch|].
    - destruct (Ascii.eqb ch dash); [exact Hout|].
      destruct (Ascii.eqb ch one); apply Forall_app; split; try exact Hout;
        constructor; try constructor; [|exact Hq].
      destruct (nth_error vars i); [exact Hvar|exact plusFree_nil].
    - apply Forall_app; split; [exact Hout|]. constructor; [exact Hq|constructor]. }
  destruct (negb (length _ =? 0)); [|now apply plusFreeb_sound].
  apply plusFree_join; [now apply plusFreeb_sound|].
  apply Forall_map. exact Hout.
Qed.

Lemma all_dashes (bs : str) (c : ascii) :
  countConcrete bs = 0 -> In c bs -> c = dash.
Proof.
  unfold countConcrete, removeDashes. intros H Hc.
  apply length_zero_iff_nil in H.
  destruct (Ascii.eqb c dash) eqn:E; [now apply Ascii.eqb_eq|].
  assert (Hin : In c (filter (fun ch => negb (Ascii.eqb ch dash)) bs)).
  { apply filter_In. split; [exact Hc|]. now rewrite E. }
  rewrite H in Hin. destruct Hin.
Qed.

(** An implicant without concrete bits renders as the constant 1. *)
Lemma all_dashes_render_one (bs : str) (vars : list str) :
  countConcrete bs = 0 ->
  formatImplicant bs vars = lit "1" /\ formatImplicantLatex bs vars = lit "1".
Proof.
  intros H.
  assert (Hstep : forall i ch, charAt bs i = Some ch -> Ascii.eqb ch dash = true).
  { intros i ch Hi. apply Ascii.eqb_eq, (all_dashes bs); [exact H|].
    eapply nth_error_In. exact Hi. }
  assert (Hidx : forall i, In i (seq 0 (length bs)) -> exists ch, charAt bs i = Some ch).
  { intros i Hi. apply in_seq in Hi. unfold charAt.
    destruct (nth_error bs i) eqn:E; [eauto|].
    apply nth_error_None in E. lia. }
  split.
  - unfold formatImplicant.
    match goal with |- context [fold_left ?f ?l ?a] =>
      assert (Hout : fold_left f l a = []) end.
    { apply (fold_left_invariant _ (fun out => out = [])); [|reflexivity].
      intros out i Hi ->. destruct (Hidx i Hi) as (ch & E). rewrite E.
      now rewrite (Hstep i ch E). }
    rewrite Hout. reflexivity.
  - unfold formatImplicantLatex.
    match goal with |- context [fold_left ?f ?l ?a] =>
      assert (Hout : fold_left f l a = []) end.
    { apply (fold_left_invariant _ (fun out => out = [])); [|reflexivity].
      intros out i Hi ->. destruct (Hidx i Hi) as (ch & E). rewrite E.
      now rewrite (Hstep i ch E). }
    rewrite Hout. reflexivity.
Qed.

(** *** Terms of the two renderings *)

Lemma latexBody_wrapped (body : str) :
  latexBody (lit "$F = " ++ body ++ lit "$") = body.
Proof.
  unfold latexBody. change (skipn _ (lit "$F = " ++ body ++ lit "$"))
    with (body ++ lit "$").
  apply removelast_last.
Qed.

Lemma join_nil_cases (ts : list str) :
  join plusSep ts = [] -> ts = [] \/ ts = [[]].
Proof.
  intros E. destruct ts as [|t ts]; [now left|right].
  assert (Hl : length (t :: ts) = 1)
    by (apply (join_nil_single plusSep); [discriminate|discriminate|exact E]).
  destruct ts; [|discriminate]. cbn in E. now subst.
Qed.

(** The terms of a join are the terms joined exactly when these are
    apart. *)
Lemma termsOf_join (ts : list str) :
  termsOf (join plusSep ts) = ts <-> termsApart ts.
Proof.
  unfold termsApart. destruct (join plusSep ts) as [|c J] eqn:E.
  - destruct (join_nil_cases ts E) as [-> | ->]; cbn [termsOf].
    + split; [intros _; split; [discriminate|split; intros t []]|reflexivity].
    + split; [discriminate|intros [H _]; now contradiction H].
  - assert (Hne : ts <> []) by (intros ->; discriminate).
    assert (Hne' : ts <> [[]]) by (intros ->; discriminate).
    cbn [termsOf]. rewrite <- E, (splitOn_join_iff ts Hne). tauto.
Qed.

(** The same for [expression], where an empty join is replaced by 0. *)
Lemma termsOf_expression (ts : list str) :
  termsOf (orZero (join plusSep ts)) = ts <-> ts <> [] /\ termsApart ts.
Proof.
  destruct (join plusSep ts) as [|c J] eqn:E.
  - cbn [orZero]. destruct (join_nil_cases ts E) as [-> | ->].
    + split; [discriminate|intros [H _]; now contradiction H].
    + split; [discriminate|intros [_ [H _]]; now contradiction H].
  - cbn [orZero]. rewrite <- E, termsOf_join.
    assert (Hne : ts <> []) by (intros ->; discriminate). tauto.
Qed.

(** Terms without the character '+' are apart. *)
Lemma plusFree_no_separator (t : str) :
  plusFree t -> ~ occursIn plusSep (t ++ lit " +").
Proof.
  induction t as [|c t IH]; intros Ht (pre & post & E).
  - apply (f_equal (@length ascii)) in E. rewrite !length_app in E.
    cbn in E. lia.
  - apply plusFree_cons in Ht. destruct Ht as [Hc Ht].
    destruct pre as [|x pre].
    + cbn in E. injection E as _ E. destruct t as [|d t].
      * cbn in E. discriminate.
      * cbn in E. injection E as -> _. apply plusFree_cons in Ht. now destruct Ht.
    + cbn [app] in E. injection E as _ E. apply (IH Ht). now exists pre, post.
Qed.

Lemma occursIn_app_r (p s t : str) : occursIn p s -> occursIn p (s ++ t).
Proof.
  intros (pre & post & ->). exists pre, (post ++ t). now rewrite <- !app_assoc.
Qed.

Lemma plusFree_apart (ts : list str) : Forall plusFree ts -> apart ts.
Proof.
  induction 1 as [|t ts Ht Hts IH]; [split; intros t []|].
  destruct ts as [|t2 ts].
  - apply apart_one. intros H. apply (plusFree_no_separator t Ht).
    now apply occursIn_app_r.
  - apply apart_more. split; [now apply plusFree_no_separator|exact IH].
Qed.

(** *** Terms that are not empty *)

Lemma join_cons_nonempty (sep x : str) (rest : list str) :
  x <> [] -> join sep (x :: rest) <> [].
Proof.
  intros Hx. destruct rest as [|y rest]; [exact Hx|].
  change (x ++ sep ++ join sep (y :: rest) <> []).
  destruct x; [contradiction|discriminate].
Qed.

Lemma join_elements_nonempty (sep : str) (out : list (option str)) :
  Forall (fun o => joinElem o <> []) out -> out <> [] ->
  join sep (map joinElem out) <> [].
Proof.
  intros Hall Hne. destruct out as [|o out]; [contradiction|].
  inversion Hall; subst. cbn [map]. now apply join_cons_nonempty.
Qed.

(** With a name that is not empty for each position of the pattern, both
    renderings are not empty. *)
Lemma format_nonempty (bs : str) (vars : list str) :
  (forall i, i < length bs -> exists v, nth_error vars i = Some v /\ v <> []) ->
  formatImplicant bs vars <> [] /\ formatImplicantLatex bs vars <> [].
Proof.
  intros Hv. split.
  - unfold formatImplicant.
    match goal with |- context [fold_left ?f ?l ?a] =>
      assert (Hout : Forall (fun o => joinElem o <> []) (fold_left f l a));
      [|destruct (fold_left f l a) as [|o out] eqn:E] end.
    { apply fold_left_invariant; [|constructor].
      intros out i Hi Hout. apply in_seq in Hi.
      destruct (Hv i) as (v & -> & Hne); [lia|]. cbn [toStr].
      destruct (charAt bs i) as [ch|].
      - destruct (Ascii.eqb ch dash); [exact Hout|].
        destruct (Ascii.eqb ch one); apply Forall_app; split; try exact Hout;
          constructor; try constructor; cbn [joinElem]; [exact Hne|].
        destruct v; discriminate.
      - apply Forall_app; split; [exact Hout|].
        constructor; [|constructor]. cbn [joinElem]. destruct v; discriminate. }
    + discriminate.
    + cbn [length Nat.eqb]. apply join_elements_nonempty; [exact Hout|discriminate].
  - unfold formatImplicantLatex.
    match goal with |- context [fold_left ?f ?l ?a] =>
      assert (Hout : Forall (fun o => joinElem o <> []) (fold_left f l a));
      [|destruct (fold_left f l a) as [|o out] eqn:E] end.
    { apply fold_left_invariant; [|constructor].
      intros out i Hi Hout. apply in_seq in Hi.
      destruct (Hv i) as (v & -> & Hne); [lia|]. cbn [toStr].
      destruct (charAt bs i) as [ch|].
      - destruct (Ascii.eqb ch dash); [exact Hout|].
        destruct (Ascii.eqb ch one); apply Forall_app; split; try exact Hout;
          constructor; try constructor; cbn [joinElem]; [exact Hne|discriminate].
      - apply Forall_app; split; [exact Hout|].
        constructor; [|constructor]. cbn [joinElem]. discriminate. }
    + discriminate.
    + cbn [length Nat.eqb negb]. apply join_elements_nonempty;
        [exact Hout|discriminate].
Qed.

Lemma effectiveVars_length (opts : SolveOptions) :
  (2 <= numInputs opts <= 6)%Z ->
  Z.to_nat (numInputs opts) <= length (effectiveVars opts).
Proof.
  intros Hn. unfold effectiveVars.
  assert (Hd : Z.to_nat (numInputs opts)
               <= length (firstn (Z.to_nat (numInputs opts)) DEFAULT_VARS)).
  { rewrite length_firstn. cbn [DEFAULT_VARS length]. lia. }
  destruct (vars opts) as [v|]; [|exact Hd].
  destruct (numInputs opts <=? Z.of_nat (length v))%Z eqn:E; [|exact Hd].
  apply Z.leb_le in E. lia.
Qed.

Lemma firstn_subset {A : Type} (n : nat) (l : list A) (x : A) :
  In x (firstn n l) -> In x l.
Proof.
  intros H. rewrite <- (firstn_skipn n l). apply in_or_app. now left.
Qed.

(** The default variable names hold no '+' and are not empty. *)
Lemma effectiveVars_default (opts : SolveOptions) :
  vars opts = None ->
  Forall (fun v => plusFree v /\ v <> []) (effectiveVars opts).
Proof.
  intros H. unfold effectiveVars. rewrite H.
  apply Forall_forall. intros v Hv. apply firstn_subset in Hv.
  repeat (destruct Hv as [<-|Hv];
          [split; [now apply plusFreeb_sound|discriminate]|]).
  destruct Hv.
Qed.

(** With minterms and don't-cares in range and names that hold no '+' and
    are not empty, the terms of both renderings are apart. *)
Lemma rendered_terms_apart (opts : SolveOptions) (r : SolveResult) :
  (2 <= numInputs opts <= 6)%Z -> inRange opts ->
  Forall (fun v => plusFree v /\ v <> []) (effectiveVars opts) ->
  minimizeKMapJS opts = Returned r -> selectedImplicants r <> [] ->
  termsApart (renderedTerms opts r) /\ termsApart (renderedLatexTerms opts r).
Proof.
  intros Hn Hrange Hv Hr Hne.
  assert (Hplus : Forall plusFree (effectiveVars opts))
    by (eapply Forall_impl; [|exact Hv]; intros v [H _]; exact H).
  assert (Hnames : forall p, In p (selectedImplicants r) ->
            forall i, i < length (bits p) ->
              exists v, nth_error (effectiveVars opts) i = Some v /\ v <> []).
  { intros p Hp i Hi.
    assert (Hl : length (bits p) = Z.to_nat (numInputs opts)).
    { apply (returned_bits_length opts r p Hn); [|exact Hr|auto].
      intros m Hm. destruct Hrange as [H1 H2]. rewrite Forall_forall in H1, H2.
      assert (Hfit : fitsIn (numInputs opts) m)
        by (destruct Hm as [Hm|Hm]; [now apply H1|now apply H2]).
      unfold fitsIn in Hfit.
      assert (0 < 2 ^ (numInputs opts - 1))%Z by (apply Z.pow_pos_nonneg; lia).
      lia. }
    pose proof (effectiveVars_length opts Hn) as Hlen.
    destruct (nth_error (effectiveVars opts) i) as [v|] eqn:E.
    - exists v. split; [reflexivity|]. rewrite Forall_forall in Hv.
      apply (Hv v). eapply nth_error_In. exact E.
    - apply nth_error_None in E. lia. }
  unfold termsApart, renderedTerms, renderedLatexTerms.
  destruct (selectedImplicants r) as [|p ps] eqn:Es; [contradiction|].
  split; (split; [|apply plusFree_apart, Forall_map, Forall_forall; intros q _]).
  - cbn [map]. intros E. injection E as E _.
    now apply (proj1 (format_nonempty (bits p) _ (Hnames p (or_introl eq_refl)))).
  - now apply formatImplicant_plusFree.
  - cbn [map]. intros E. injection E as E _.
    now apply (proj2 (format_nonempty (bits p) _ (Hnames p (or_introl eq_refl)))).
  - now apply formatImplicantLatex_plusFree.
Qed.

(** With three inputs, the minterm 7 and the variable names A, + and B, the
    expression is A+B, one term, and the LaTeX string is $F = A + B$, whose
    body the separator cuts into the two terms A and B. *)
Lemma plus_in_a_variable_name_splits_the_latex_term :
  (2 <= numInputs plusVarExample <= 6)%Z /\
  exists r,
    minimizeKMapJS plusVarExample = Returned r /\
    length (selectedImplicants r) = 1 /\
    expression r = lit "A+B" /\
    latex r = lit "$F = A + B$" /\
    termsOf (expression r) = [lit "A+B"] /\
    termsOf (latexBody (latex r)) = [lit "A"; lit "B"] /\
    length (termsOf (expression r)) <> length (termsOf (latexBody (latex r))).
Proof.
  split; [simpl; lia|]. eexists. split; [vm_compute; reflexivity|].
  cbn [selectedImplicants expression latex].
  repeat split; try reflexivity. vm_compute. discriminate.
Qed.

(** With three inputs and no minterm, the expression is the one term 0 and
    the LaTeX string is $F = $, which has no term. *)
Example empty_selection_has_a_term_in_the_expression_only :
  exists r,
    minimizeKMapJS emptyExample = Returned r /\
    selectedImplicants r = [] /\
    termsOf (expression r) = [lit "0"] /\
    termsOf (latexBody (latex r)) = [].
Proof. eexists. split; [vm_compute; reflexivity|]. repeat split. Qed.

(** C9, as the code has it.  For a number of inputs between 2 and 6:
    [expression] is the join by " + " of the terms that [formatImplicant]
    gives for the selected implicants in their order, or 0 when that join is
    empty; [latex] is the join of the terms that [formatImplicantLatex]
    gives for the same implicants in the same order, between "$F = " and "$";
    an implicant without concrete bits renders as 1 in both; and an empty
    selection renders the expression as 0.

    The two strings do not always have the same number of terms.  With an
    empty selection the expression has the one term 0 and the LaTeX string
    has none.  In general, splitting the two strings at " + " gives back the
    two lists of terms, the k-th term of each rendering the k-th selected
    implicant, exactly when the selection is not empty and in each list no
    term holds " + ", no term but the last ends in " +", and the list is not
    the empty string alone; both strings then have as many terms as there
    are selected implicants.  This is so whenever the selection is not
    empty, the minterms and don't-cares lie in [0, 2^numInputs), and the
    names in use hold no '+' and are not empty, as the default names are. *)
Theorem expression_and_latex_terms_agree (opts : SolveOptions) :
  (2 <= numInputs opts <= 6)%Z ->
  exists r,
    minimizeKMapJS opts = Returned r /\
    expression r = orZero (join plusSep (renderedTerms opts r)) /\
    latex r = lit "$F = " ++ join plusSep (renderedLatexTerms opts r) ++ lit "$" /\
    (forall bs vs, countConcrete bs = 0 ->
       formatImplicant bs vs = lit "1" /\ formatImplicantLatex bs vs = lit "1") /\
    (selectedImplicants r = [] ->
     expression r = lit "0" /\
     termsOf (expression r) = [lit "0"] /\
     termsOf (latexBody (latex r)) = []) /\
    (termsOf (expression r) = renderedTerms opts r /\
     termsOf (latexBody (latex r)) = renderedLatexTerms opts r
     <->
     selectedImplicants r <> [] /\
     termsApart (renderedTerms opts r) /\
     termsApart (renderedLatexTerms opts r)) /\
    (selectedImplicants r <> [] /\
     termsApart (renderedTerms opts r) /\
     termsApart (renderedLatexTerms opts r) ->
     length (termsOf (expression r)) = length (selectedImplicants r) /\
     length (termsOf (latexBody (latex r))) = length (selectedImplicants r)) /\
    (inRange opts ->
     Forall (fun v => plusFree v /\ v <> []) (effectiveVars opts) ->
     selectedImplicants r <> [] ->
     termsApart (renderedTerms opts r) /\
     termsApart (renderedLatexTerms opts r)).
Proof.
  intros Hn. destruct (minimizeKMapJS_returns opts Hn) as (r & Hr).
  exists r. split; [exact Hr|].
  destruct (minimizeKMapJS_Returned opts r Hr)
    as (_ & allPrime & rounds & cm & _ & _ & _ & _ & _ & _ & Hex & Hlx).
  cbn zeta in *. fold plusSep in Hex, Hlx.
  fold (renderedTerms opts r) in Hex. fold (renderedLatexTerms opts r) in Hlx.
  assert (Hiff : termsOf (expression r) = renderedTerms opts r /\
                 termsOf (latexBody (latex r)) = renderedLatexTerms opts r
                 <->
                 selectedImplicants r <> [] /\
                 termsApart (renderedTerms opts r) /\
                 termsApart (renderedLatexTerms opts r)).
  { rewrite Hex, Hlx, latexBody_wrapped, termsOf_expression, termsOf_join.
    assert (Hsel : renderedTerms opts r <> [] <-> selectedImplicants r <> []).
    { unfold renderedTerms. destruct (selectedImplicants r);
        split; intros H; try contradiction; discriminate. }
    tauto. }
  split; [exact Hex|]. split; [exact Hlx|]. split; [|split; [|split; [|split]]].
  - intros bs vs. apply all_dashes_render_one.
  - intros Hs. rewrite Hex, Hlx, latexBody_wrapped.
    unfold renderedTerms, renderedLatexTerms. rewrite Hs. repeat split.
  - exact Hiff.
  - intros Hcond. destruct (proj2 Hiff Hcond) as [E1 E2].
    rewrite E1, E2. unfold renderedTerms, renderedLatexTerms.
    rewrite !length_map. split; reflexivity.
  - intros Hrange Hv Hne.
    exact (rendered_terms_apart opts r Hn Hrange Hv Hr Hne).
Qed.

Lemma expression_and_latex_terms_agree_witness :
  (2 <= numInputs checkerboardExample <= 6)%Z /\
  exists r,
    minimizeKMapJS checkerboardExample = Returned r /\
    expression r = lit "B'D' + BD" /\
    termsOf (expression r) = renderedTerms checkerboardExample r /\
    termsOf (latexBody (latex r)) = renderedLatexTerms checkerboardExample r /\
    length (termsOf (expression r)) = length (termsOf (latexBody (latex r))).
Proof.
  assert (H : (2 <= numInputs checkerboardExample <= 6)%Z) by (simpl; lia).
  split; [exact H|].
  destruct (expression_and_latex_terms_agree checkerboardExample H)
    as (r & Hr & _ & _ & _ & _ & Hiff & Hcount & Hapart).
  exists r. split; [exact Hr|].
  assert (E : minimizeKMapJS checkerboardExample = Returned r ->
              expression r = lit "B'D' + BD" /\ selectedImplicants r <> []).
  { vm_compute. intros E. injection E as <-. split; [reflexivity|discriminate]. }
  destruct (E Hr) as [Hex Hne]. split; [exact Hex|].
  destruct (Hapart checkerboard_in_range
              (effectiveVars_default checkerboardExample eq_refl) Hne)
    as [H1 H2].
  destruct (proj2 Hiff (conj Hne (conj H1 H2))) as [E1 E2].
  destruct (Hcount (conj Hne (conj H1 H2))) as [L1 L2].
  split; [exact E1|]. split; [exact E2|]. now rewrite L1, L2.
Defined.

(** ** The scenarios of the specification, run *)

Example scenario_checkerboard :
  exists r,
    minimizeKMapJS checkerboardExample = Returned r /\
    selectedImplicants r
      = [ {| bits := lit "-0-0"; covered := [0; 2; 8; 10]%Z |};
          {| bits := lit "-1-1"; covered := [5; 7; 13; 15]%Z |} ] /\
    expression r = lit "B'D' + BD" /\
    latex r = lit "$F = \overline{B} \overline{D} + B D$".
Proof. eexists. split; [vm_compute; reflexivity|]. repeat split. Qed.

Example scenario_tautology :
  exists r,
    minimizeKMapJS tautologyExample = Returned r /\
    selectedImplicants r = [ {| bits := lit "--"; covered := [0; 1; 2; 3]%Z |} ] /\
    expression r = lit "1".
Proof. eexists. split; [vm_compute; reflexivity|]. repeat split. Qed.

Example scenario_no_minterm :
  exists r,
    minimizeKMapJS emptyExample = Returned r /\
    selectedImplicants r = [] /\ expression r = lit "0".
Proof. eexists. split; [vm_compute; reflexivity|]. repeat split. Qed.

Example scenario_named_variables :
  exists r,
    minimizeKMapJS namedVarsExample = Returned r /\
    expression r = lit "1" /\ latex r = lit "$F = 1$".
Proof. eexists. split; [vm_compute; reflexivity|]. repeat split. Qed.

Example scenario_one_input :
  minimizeKMapJS oneInputExample = Threw (lit "numInputs must be between 2 and 6.").
Proof. reflexivity. Qed.

(** Don't-cares help to merge but are not reported as covered. *)
Example scenario_dont_cares :
  exists r,
    minimizeKMapJS dontCareExample = Returned r /\
    primeImplicants r
      = [ {| bits := lit "-100"; covered := [4; 12]%Z |};
          {| bits := lit "10--"; covered := [8; 10; 11]%Z |};
          {| bits := lit "1--0"; covered := [8; 10; 12]%Z |};
          {| bits := lit "1-1-"; covered := [10; 11; 15]%Z |} ] /\
    map bits (essentialPrimeImplicants r) = [lit "-100"; lit "1-1-"] /\
    map bits (selectedImplicants r) = [lit "-100"; lit "10--"; lit "1-1-"] /\
    expression r = lit "BC'D' + AB' + AC".
Proof. eexists. split; [vm_compute; reflexivity|]. repeat split. Qed.

(** In a cyclic chart nothing is essential and Petrick's method picks three
    of the six prime implicants. *)
Example scenario_cyclic :
  exists r,
    minimizeKMapJS cyclicExample = Returned r /\
    length (primeImplicants r) = 6 /\
    essentialPrimeImplicants r = [] /\
    map bits (selectedImplicants r) = [lit "0-0"; lit "-01"; lit "11-"] /\
    expression r = lit "A'C' + B'C + AB".
Proof. eexists. split; [vm_compute; reflexivity|]. repeat split. Qed.

(** A minterm that does not fit: the pattern is longer than the list of
    names, and the name read past its end prints as undefined. *)
Example scenario_out_of_range :
  exists r,
    minimizeKMapJS outOfRangeExample = Returned r /\
    selectedImplicants r = [ {| bits := lit "100"; covered := [4]%Z |} ] /\
    expression r = lit "AB'undefined'".
Proof. eexists. split; [vm_compute; reflexivity|]. repeat split. Qed.

(** * Further properties of the code *)

(** ** toBinary *)

Lemma binValue_fold_posDigits (p : positive) :
  forall (acc : str),
    binValue (posDigits p acc)
    = fold_left (fun v ch => (2 * v + (if Ascii.eqb ch one then 1 else 0))%Z)
        acc (Zpos p).
Proof.
  unfold binValue. induction p as [q IH|q IH|]; intros acc; simpl.
  - rewrite IH. reflexivity.
  - rewrite IH. reflexivity.
  - reflexivity.
Qed.

Lemma binValue_leading_zeros (k : nat) (s : str) :
  binValue (repeat zero k ++ s) = binValue s.
Proof.
  unfold binValue. rewrite fold_left_app. f_equal.
  induction k as [|k IH]; simpl; [reflexivity|exact IH].
Qed.

Lemma binValue_toString2 (n : Z) : (0 <= n)%Z -> binValue (toString2 n) = n.
Proof.
  intros H. destruct n as [|p|p]; [reflexivity| |lia].
  simpl. now rewrite binValue_fold_posDigits.
Qed.

Lemma binValue_toBinary (n : Z) (width : nat) :
  (0 <= n)%Z -> binValue (toBinary n width) = n.
Proof.
  intros Hn. unfold toBinary, padStart.
  now rewrite binValue_leading_zeros, binValue_toString2.
Qed.

Lemma toBinary_injective (n n' : Z) (width : nat) :
  (0 <= n)%Z -> (0 <= n')%Z -> toBinary n' width = toBinary n width -> n' = n.
Proof.
  intros Hn Hn' E.
  rewrite <- (binValue_toBinary n' width Hn'), E. now apply binValue_toBinary.
Qed.

(** X1. [toBinary] writes a number that is not negative in binary: reading
    the digits of [toBinary n width] back gives [n], whatever the width.  So
    two such numbers never get the same pattern. *)
Theorem toBinary_reads_back (n : Z) (width : nat) :
  (0 <= n)%Z ->
  binValue (toBinary n width) = n /\
  forall n', (0 <= n')%Z -> toBinary n' width = toBinary n width -> n' = n.
Proof.
  intros Hn. split; [now apply binValue_toBinary|].
  intros n' Hn' E. now apply (toBinary_injective n n' width).
Qed.

Lemma toBinary_reads_back_witness :
  (0 <= 5)%Z /\ toBinary 5 4 = lit "0101" /\ binValue (toBinary 5 4) = 5%Z.
Proof.
  assert (H : (0 <= 5)%Z) by lia.
  split; [exact H|]. split; [reflexivity|].
  exact (proj1 (toBinary_reads_back 5 4 H)).
Defined.

Lemma pow2_succ (w : nat) : (2 ^ Z.of_nat (S w) = 2 * 2 ^ Z.of_nat w)%Z.
Proof. rewrite Nat2Z.inj_succ, Z.pow_succ_r; lia. Qed.

Lemma size_nat_lower (p : positive) :
  forall w : nat, (2 ^ Z.of_nat w <= Zpos p)%Z -> w < Pos.size_nat p.
Proof.
  induction p as [q IH|q IH|]; intros [|w] H; cbn [Pos.size_nat]; try lia.
  - rewrite pow2_succ in H. apply -> Nat.succ_lt_mono. apply IH. lia.
  - rewrite pow2_succ in H. apply -> Nat.succ_lt_mono. apply IH. lia.
  - rewrite pow2_succ in H.
    assert (0 < 2 ^ Z.of_nat w)%Z by (apply Z.pow_pos_nonneg; lia). lia.
Qed.

(** X2. [padStart] pads and never cuts: for a positive width and a number
    that is not negative, the pattern has exactly [width] characters when
    the number is below [2^width], and more than [width] otherwise. *)
Theorem toBinary_length_tells_range (n : Z) (width : nat) :
  0 < width -> (0 <= n)%Z ->
  (length (toBinary n width) = width <-> (n < 2 ^ Z.of_nat width)%Z) /\
  ((2 ^ Z.of_nat width <= n)%Z -> width < length (toBinary n width)).
Proof.
  intros Hw Hn.
  assert (Hbig : (2 ^ Z.of_nat width <= n)%Z -> width < length (toBinary n width)).
  { intros H. unfold toBinary, padStart. rewrite length_app, repeat_length.
    destruct n as [|p|p]; simpl.
    - assert (0 < 2 ^ Z.of_nat width)%Z by (apply Z.pow_pos_nonneg; lia). lia.
    - rewrite posDigits_length. simpl. pose proof (size_nat_lower p width H). lia.
    - lia. }
  split; [|exact Hbig]. split.
  - intros Hl. destruct (Z.lt_ge_cases n (2 ^ Z.of_nat width)) as [H|H];
      [exact H|]. specialize (Hbig H). lia.
  - intros H. now apply toBinary_in_range.
Qed.

Lemma toBinary_length_tells_range_witness :
  0 < 2 /\ (0 <= 4)%Z /\ (2 ^ Z.of_nat 2 <= 4)%Z /\
  2 < length (toBinary 4 2).
Proof.
  assert (H1 : 0 < 2) by lia. assert (H2 : (0 <= 4)%Z) by lia.
  assert (H3 : (2 ^ Z.of_nat 2 <= 4)%Z) by (simpl; lia).
  split; [exact H1|]. split; [exact H2|]. split; [exact H3|].
  exact (proj2 (toBinary_length_tells_range 4 2 H1 H2) H3).
Defined.

(** ** combine, countOnes and coveredBy *)

Lemma countOnes_acc (s : str) :
  forall n,
    fold_left (fun c ch => if Ascii.eqb ch one then S c else c) s n
    = n + countOnes s.
Proof.
  unfold countOnes. induction s as [|ch s IH]; intros n; simpl; [lia|].
  rewrite IH, (IH (if Ascii.eqb ch one then 1 else 0)).
  destruct (Ascii.eqb ch one); lia.
Qed.

Lemma countOnes_cons (ch : ascii) (s : str) :
  countOnes (ch :: s) = (if Ascii.eqb ch one then 1 else 0) + countOnes s.
Proof. unfold countOnes at 1. simpl. now rewrite countOnes_acc. Qed.

Lemma countOnes_app (s t : str) : countOnes (s ++ t) = countOnes s + countOnes t.
Proof.
  induction s as [|ch s IH]; [reflexivity|].
  simpl app. rewrite !countOnes_cons, IH. lia.
Qed.

Lemma countOnes_removeDashes (s : str) : countOnes (removeDashes s) = countOnes s.
Proof.
  induction s as [|ch s IH]; [reflexivity|].
  unfold removeDashes in *. simpl. rewrite countOnes_cons.
  destruct (Ascii.eqb ch dash) eqn:E; simpl.
  - apply Ascii.eqb_eq in E. subst ch. exact IH.
  - now rewrite countOnes_cons, IH.
Qed.

(** Two patterns of one length that [combine] merges, taken apart at the
    position where they differ. *)
Lemma combine_split (a b c : str) :
  length a = length b -> combine a b = Some c ->
  exists pre ca cb post,
    a = pre ++ ca :: post /\ b = pre ++ cb :: post /\ c = pre ++ dash :: post /\
    ca <> cb /\ ca <> dash /\ cb <> dash.
Proof.
  intros Hl Hc. unfold combine in Hc.
  apply (combineFrom_iff a b 0 [] c Hl (Nat.le_0_l 1)) in Hc.
  destruct Hc as [[H _]|(_ & pre & ca & cb & post & Ea & Eb & H1 & H2 & H3 & Ec)];
    [discriminate|].
  exists pre, ca, cb, post. simpl in Ec. auto 10.
Qed.

Lemma combine_of_split (pre post : str) (ca cb : ascii) :
  ca <> cb -> ca <> dash -> cb <> dash ->
  combine (pre ++ ca :: post) (pre ++ cb :: post) = Some (pre ++ dash :: post).
Proof.
  intros H1 H2 H3. unfold combine.
  apply (combineFrom_iff _ _ 0 [] _);
    [now rewrite !length_app|apply Nat.le_0_l|].
  right. split; [reflexivity|]. exists pre, ca, cb, post. auto 10.
Qed.

(** X3. [combine] merges two patterns of one length over 0, 1, - only when
    their numbers of ones differ by exactly one, and the merged pattern,
    with its dashes removed as the caller does, has the smaller of the two
    numbers of ones: only neighbouring groups can merge, and the result
    belongs to the lower one. *)
Theorem combine_joins_neighbouring_groups (a b c : str) :
  length a = length b -> overAlphabet a -> overAlphabet b ->
  combine a b = Some c ->
  (countOnes b = S (countOnes a) \/ countOnes a = S (countOnes b)) /\
  countOnes (removeDashes c) = Nat.min (countOnes a) (countOnes b).
Proof.
  intros Hl Ha Hb Hc.
  destruct (combine_split a b c Hl Hc)
    as (pre & ca & cb & post & -> & -> & -> & Hne & Hca & Hcb).
  assert (Ca : isConcrete ca).
  { eapply alphabet_concrete; [exact Ha| |exact Hca].
    apply in_or_app. right. now left. }
  assert (Cb : isConcrete cb).
  { eapply alphabet_concrete; [exact Hb| |exact Hcb].
    apply in_or_app. right. now left. }
  rewrite countOnes_removeDashes, !countOnes_app, !countOnes_cons.
  destruct Ca as [-> | ->], Cb as [-> | ->]; try contradiction;
    change (Ascii.eqb zero one) with false; change (Ascii.eqb one one) with true;
    change (Ascii.eqb dash one) with false; cbv iota; lia.
Qed.

Lemma combine_joins_neighbouring_groups_witness :
  length (lit "10-1") = length (lit "11-1") /\
  combine (lit "10-1") (lit "11-1") = Some (lit "1--1") /\
  countOnes (lit "11-1") = S (countOnes (lit "10-1")) /\
  countOnes (removeDashes (lit "1--1")) = 2.
Proof.
  split; [reflexivity|]. split; [reflexivity|].
  destruct (combine_joins_neighbouring_groups (lit "10-1") (lit "11-1") (lit "1--1")
              eq_refl overAlphabet_lit_10d1 overAlphabet_lit_11d1 eq_refl)
    as [_ Hmin].
  split; [reflexivity|exact Hmin].
Defined.

(** X4. For two strings of one length [combine] does not depend on the
    order of its arguments. *)
Theorem combine_is_symmetric (a b : str) :
  length a = length b -> combine b a = combine a b.
Proof.
  intros Hl.
  assert (Hsym : forall x y z, length x = length y ->
                               combine x y = Some z -> combine y x = Some z).
  { intros x y z Hxy Hz.
    destruct (combine_split x y z Hxy Hz)
      as (pre & cx & cy & post & -> & -> & -> & Hne & Hx & Hy).
    apply combine_of_split; auto. }
  destruct (combine a b) as [c|] eqn:Eab.
  - now apply Hsym.
  - destruct (combine b a) as [c|] eqn:Eba; [|reflexivity].
    apply Hsym in Eba; [congruence|now symmetry].
Qed.

Lemma combine_is_symmetric_witness :
  length (lit "10-1") = length (lit "11-1") /\
  combine (lit "11-1") (lit "10-1") = combine (lit "10-1") (lit "11-1") /\
  combine (lit "10-1") (lit "11-1") = Some (lit "1--1").
Proof.
  split; [reflexivity|].
  split; [exact (combine_is_symmetric (lit "10-1") (lit "11-1") eq_refl)|reflexivity].
Defined.

Lemma coveredBy_forall (bs : str) (m : Z) (w : nat) :
  coveredBy bs m w = true <->
  forall i, i < w ->
    charAt bs i = Some dash \/ charAt bs i = charAt (toBinary m w) i.
Proof.
  unfold coveredBy. rewrite forallb_forall. split.
  - intros H i Hi. specialize (H i). rewrite in_seq in H.
    specialize (H ltac:(lia)). apply orb_true_iff in H.
    destruct H as [H|H]; apply ascii_eqb_opt_true in H; auto.
  - intros H i Hi. apply in_seq in Hi. apply orb_true_iff.
    destruct (H i ltac:(lia)) as [E|E]; [left|right]; now apply ascii_eqb_opt_true.
Qed.

Lemma toBinary_bit (m : Z) (w i : nat) :
  0 < w -> (0 <= m < 2 ^ Z.of_nat w)%Z -> i < w ->
  exists c, charAt (toBinary m w) i = Some c /\ isConcrete c.
Proof.
  intros Hw Hm Hi. destruct (toBinary_in_range m w Hw Hm) as [Hl Ha].
  unfold charAt. destruct (nth_error (toBinary m w) i) as [c|] eqn:E.
  - exists c. split; [reflexivity|].
    assert (Hin : In c (toBinary m w)) by (eapply nth_error_In; exact E).
    unfold toBinary, padStart in Hin. apply in_app_or in Hin.
    destruct Hin as [Hin|Hin].
    + apply repeat_spec in Hin. now left.
    + destruct (toString2_in_range m w Hw Hm) as [_ Hb].
      rewrite Forall_forall in Hb. now apply Hb.
  - apply nth_error_None in E. lia.
Qed.

Lemma coveredBy_combine_exact (a b c : str) (m : Z) (width : nat) :
  0 < width -> length a = width -> length b = width ->
  overAlphabet a -> overAlphabet b ->
  (0 <= m < 2 ^ Z.of_nat width)%Z ->
  combine a b = Some c ->
  (coveredBy c m width = true <->
   coveredBy a m width = true \/ coveredBy b m width = true).
Proof.
  intros Hw Hla Hlb Ha Hb Hm Hc. split.
  2:{ apply (coveredBy_combine a b c m width Hc). lia. }
  intros Hcov.
  destruct (combine_split a b c ltac:(congruence) Hc)
    as (pre & ca & cb & post & Ea & Eb & Ec & Hne & Hca & Hcb).
  assert (Ca : isConcrete ca).
  { eapply alphabet_concrete; [exact Ha| |exact Hca].
    rewrite Ea. apply in_or_app. right. now left. }
  assert (Cb : isConcrete cb).
  { eapply alphabet_concrete; [exact Hb| |exact Hcb].
    rewrite Eb. apply in_or_app. right. now left. }
  assert (Hi : length pre < width).
  { rewrite <- Hla, Ea, length_app. simpl. lia. }
  destruct (toBinary_bit m width (length pre) Hw Hm Hi) as (bit & Hbit & Cbit).
  rewrite coveredBy_forall in Hcov.
  assert (Hother : forall x j, j < width -> j <> length pre ->
            charAt (pre ++ x :: post) j = Some dash \/
            charAt (pre ++ x :: post) j = charAt (toBinary m width) j).
  { intros x j Hj Hne'. specialize (Hcov j Hj). rewrite Ec in Hcov.
    unfold charAt in *.
    destruct (Nat.lt_ge_cases j (length pre)) as [Hlt|Hge].
    - rewrite nth_error_app1 in * by lia. exact Hcov.
    - rewrite nth_error_app2 in * by lia.
      destruct (j - length pre) as [|k] eqn:E; [lia|]. exact Hcov. }
  assert (Hat : forall x, charAt (pre ++ x :: post) (length pre) = Some x).
  { intros x. unfold charAt. rewrite nth_error_app2 by lia.
    now rewrite Nat.sub_diag. }
  assert (Hpick : bit = ca \/ bit = cb).
  { destruct Ca as [-> | ->], Cb as [-> | ->], Cbit as [-> | ->]; auto;
      contradiction. }
  destruct Hpick as [-> | ->]; [left; rewrite Ea|right; rewrite Eb];
    apply coveredBy_forall; intros j Hj;
    (destruct (Nat.eq_dec j (length pre)) as [-> |Hne'];
     [right; now rewrite Hat, Hbit|now apply Hother]).
Qed.

(** X5. Merging loses and adds nothing: for patterns of [width] characters
    over 0, 1, - that [combine] merges, and a cell [m] of the map, the
    merged pattern covers [m] exactly when one of the two patterns does. *)
Theorem combine_covers_the_union (a b c : str) (m : Z) (width : nat) :
  0 < width -> length a = width -> length b = width ->
  overAlphabet a -> overAlphabet b ->
  (0 <= m < 2 ^ Z.of_nat width)%Z ->
  combine a b = Some c ->
  (coveredBy c m width = true <->
   coveredBy a m width = true \/ coveredBy b m width = true).
Proof. apply coveredBy_combine_exact. Qed.

Lemma combine_covers_the_union_witness :
  combine (lit "10-1") (lit "11-1") = Some (lit "1--1") /\
  (0 <= 15 < 2 ^ Z.of_nat 4)%Z /\
  (coveredBy (lit "1--1") 15 4 = true <->
   coveredBy (lit "10-1") 15 4 = true \/ coveredBy (lit "11-1") 15 4 = true).
Proof.
  assert (Hm : (0 <= 15 < 2 ^ Z.of_nat 4)%Z) by (simpl; lia).
  split; [reflexivity|]. split; [exact Hm|].
  exact (combine_covers_the_union (lit "10-1") (lit "11-1") (lit "1--1") 15 4
           (Nat.lt_0_succ 3) eq_refl eq_refl
           overAlphabet_lit_10d1 overAlphabet_lit_11d1 Hm eq_refl).
Defined.

Lemma coveredBy_full_pattern (m m' : Z) (width : nat) :
  0 < width ->
  (0 <= m < 2 ^ Z.of_nat width)%Z -> (0 <= m' < 2 ^ Z.of_nat width)%Z ->
  (coveredBy (toBinary m' width) m width = true <-> m = m').
Proof.
  intros Hw Hm Hm'. split.
  - intros Hcov. rewrite coveredBy_forall in Hcov.
    destruct (toBinary_in_range m width Hw Hm) as [Hl _].
    destruct (toBinary_in_range m' width Hw Hm') as [Hl' _].
    assert (E : toBinary m' width = toBinary m width).
    { apply nth_error_ext. intros i.
      destruct (Nat.lt_ge_cases i width) as [Hi|Hi].
      - destruct (Hcov i Hi) as [Hd|He]; [|exact He].
        destruct (toBinary_bit m' width i Hw Hm' Hi) as (c & Hc & Cc).
        rewrite Hc in Hd. injection Hd as ->.
        destruct Cc; discriminate.
      - transitivity (@None ascii); [|symmetry]; apply nth_error_None; lia. }
    symmetry. apply (toBinary_injective m m' width); [lia|lia|exact E].
  - intros ->. apply coveredBy_own_pattern.
Qed.

(** X6. The pattern of a cell covers that cell and no other cell of the
    map: for [m] and [m'] in [0, 2^width), [toBinary m' width] covers [m]
    exactly when [m = m']. *)
Theorem full_pattern_covers_its_cell_only (m m' : Z) (width : nat) :
  0 < width ->
  (0 <= m < 2 ^ Z.of_nat width)%Z -> (0 <= m' < 2 ^ Z.of_nat width)%Z ->
  (coveredBy (toBinary m' width) m width = true <-> m = m').
Proof. apply coveredBy_full_pattern. Qed.

Lemma full_pattern_covers_its_cell_only_witness :
  (0 <= 5 < 2 ^ Z.of_nat 3)%Z /\ (0 <= 4 < 2 ^ Z.of_nat 3)%Z /\
  coveredBy (toBinary 4 3) 5 3 = false /\
  (coveredBy (toBinary 4 3) 5 3 = true <-> 5%Z = 4%Z).
Proof.
  assert (H5 : (0 <= 5 < 2 ^ Z.of_nat 3)%Z) by (simpl; lia).
  assert (H4 : (0 <= 4 < 2 ^ Z.of_nat 3)%Z) by (simpl; lia).
  split; [exact H5|]. split; [exact H4|]. split; [reflexivity|].
  exact (full_pattern_covers_its_cell_only 5 4 3 (Nat.lt_0_succ 2) H5 H4).
Defined.

(** ** The keys of minimizeSets *)

Lemma string_of_uint_digits (d : Decimal.uint) (c : ascii) :
  In c (list_ascii_of_string (NilEmpty.string_of_uint d)) -> c <> comma.
Proof.
  induction d as [|d IH|d IH|d IH|d IH|d IH|d IH|d IH|d IH|d IH|d IH]; simpl;
    [intros []|..];
    intros [<-|H]; try (now apply IH); discriminate.
Qed.

Lemma natToStr_no_comma (n : nat) : ~ In comma (natToStr n).
Proof.
  unfold natToStr, NilZero.string_of_uint. intros H.
  destruct (Nat.to_uint n) eqn:E;
    try (now apply string_of_uint_digits in H).
  simpl in H. destruct H as [H|[]]. discriminate.
Qed.

Lemma natToStr_nonempty (n : nat) : natToStr n <> [].
Proof.
  unfold natToStr, NilZero.string_of_uint.
  destruct (Nat.to_uint n); discriminate.
Qed.

Lemma to_uint_not_Nil (n : nat) : Nat.to_uint n <> Decimal.Nil.
Proof.
  rewrite <- (DecimalNat.Unsigned.of_to n) at 1.
  rewrite DecimalNat.Unsigned.to_of. apply DecimalFacts.unorm_nonnil.
Qed.

Lemma natToStr_injective (n m : nat) : natToStr n = natToStr m -> n = m.
Proof.
  unfold natToStr. intros E.
  apply (f_equal string_of_list_ascii) in E.
  rewrite !string_of_list_ascii_of_string in E.
  apply DecimalNat.Unsigned.to_uint_inj.
  pose proof (NilZero.usu (Nat.to_uint n) (to_uint_not_Nil n)) as Hn.
  pose proof (NilZero.usu (Nat.to_uint m) (to_uint_not_Nil m)) as Hm.
  rewrite E in Hn. congruence.
Qed.

Lemma first_comma (x : str) :
  forall (x' r r' : str),
    ~ In comma x -> ~ In comma x' ->
    x ++ comma :: r = x' ++ comma :: r' -> x = x' /\ r = r'.
Proof.
  induction x as [|c x IH]; intros [|c' x'] r r' Hx Hx' E; simpl in *.
  - injection E as ->. auto.
  - injection E as <- _. exfalso. apply Hx'. now left.
  - injection E as -> _. exfalso. apply Hx. now left.
  - injection E as -> E. destruct (IH x' r r') as [-> ->]; auto.
Qed.

Lemma join_comma_injective (l : list str) :
  forall l' : list str,
    Forall (fun s => ~ In comma s /\ s <> []) l ->
    Forall (fun s => ~ In comma s /\ s <> []) l' ->
    join [comma] l = join [comma] l' -> l = l'.
Proof.
  induction l as [|x l IH]; intros [|x' l'] Hl Hl' E.
  - reflexivity.
  - exfalso. inversion Hl' as [|? ? [_ Hne] _]; subst.
    destruct l' as [|y l']; simpl in E; [now apply Hne|].
    destruct x'; [now apply Hne|discriminate].
  - exfalso. inversion Hl as [|? ? [_ Hne] _]; subst.
    destruct l as [|y l]; simpl in E; [now apply Hne|].
    destruct x; [now apply Hne|discriminate].
  - inversion Hl as [|? ? [Hx _] Hl1]; subst.
    inversion Hl' as [|? ? [Hx' _] Hl1']; subst.
    destruct l as [|y l], l' as [|y' l'].
    + simpl in E. now subst.
    + exfalso. change (x = x' ++ comma :: join [comma] (y' :: l')) in E.
      apply Hx. rewrite E. apply in_or_app. right. now left.
    + exfalso. change (x ++ comma :: join [comma] (y :: l) = x') in E.
      apply Hx'. rewrite <- E. apply in_or_app. right. now left.
    + change (x ++ comma :: join [comma] (y :: l)
              = x' ++ comma :: join [comma] (y' :: l')) in E.
      destruct (first_comma x x' _ _ Hx Hx' E) as [-> E'].
      f_equal. now apply IH.
Qed.

Lemma key_injective (a b : list nat) : key a = key b -> a = b.
Proof.
  unfold key. intros E.
  assert (Hwf : forall l : list nat,
            Forall (fun s => ~ In comma s /\ s <> []) (map natToStr l)).
  { intros l. apply Forall_map, Forall_forall. intros n _.
    split; [apply natToStr_no_comma|apply natToStr_nonempty]. }
  apply (join_comma_injective _ _ (Hwf a) (Hwf b)) in E.
  revert b E. induction a as [|x a IH]; intros [|y b] E; simpl in E;
    try discriminate; [reflexivity|].
  injection E as Ex E. f_equal; [now apply natToStr_injective|now apply IH].
Qed.

(** X7. The key under which [minimizeSets] remembers a set, its indices
    printed in decimal and joined by commas, tells any two arrays of indices
    apart: equal keys mean equal arrays. *)
Theorem key_tells_arrays_apart (a b : list nat) : key a = key b <-> a = b.
Proof.
  split; [apply key_injective|]. now intros ->.
Qed.

(** ** minimizeSets keeps the minimal sets *)

Lemma isSubset_incl (a b : list nat) : isSubset a b = true <-> incl a b.
Proof.
  unfold isSubset, incl. rewrite forallb_forall. split; intros H x Hx.
  - now apply (setHas_In Nat.eqb Nat.eqb_eq), H.
  - now apply (setHas_In Nat.eqb Nat.eqb_eq), H.
Qed.

Lemma isSubset_refl (a : list nat) : isSubset a a = true.
Proof. apply isSubset_incl, incl_refl. Qed.

Lemma isSubset_trans (a b c : list nat) :
  isSubset a b = true -> isSubset b c = true -> isSubset a c = true.
Proof.
  rewrite !isSubset_incl. intros H1 H2. eapply incl_tran; eassumption.
Qed.

Lemma FOP_snoc {A : Type} (R : A -> A -> Prop) (l : list A) (x : A) :
  ForallOrdPairs R l -> Forall (fun y => R y x) l -> ForallOrdPairs R (l ++ [x]).
Proof.
  induction 1 as [|a l Ha Hl IH]; intros Hx; simpl.
  - constructor; constructor.
  - inversion Hx; subst. constructor; [|now apply IH].
    apply Forall_app. split; [exact Ha|]. constructor; [assumption|constructor].
Qed.

Lemma FOP_nth {A : Type} (R : A -> A -> Prop) (l : list A) :
  ForallOrdPairs R l ->
  forall i j x y, i < j -> nth_error l i = Some x -> nth_error l j = Some y -> R x y.
Proof.
  induction 1 as [|a l Ha Hl IH]; intros i j x y Hij Hi Hj.
  - destruct i; discriminate.
  - destruct j as [|j]; [lia|]. simpl in Hj. destruct i as [|i]; simpl in Hi.
    + injection Hi as <-. rewrite Forall_forall in Ha. apply Ha.
      eapply nth_error_In. exact Hj.
    + apply (IH i j); [lia|assumption|assumption].
Qed.

(** What the scan of [unique] for a set [s] leaves and reports. *)
Lemma scanUnique_full (s : list nat) (unique : list (list nat)) :
  (forall x, In x (snd (scanUnique s unique)) -> In x unique) /\
  (forall x, In x unique ->
             In x (snd (scanUnique s unique)) \/ isSubset s x = true) /\
  (fst (scanUnique s unique) = true ->
   exists x, In x (snd (scanUnique s unique)) /\ isSubset x s = true) /\
  (fst (scanUnique s unique) = false ->
   forall x, In x (snd (scanUnique s unique)) -> incomparable x s) /\
  (forall R : list nat -> list nat -> Prop,
     ForallOrdPairs R unique -> ForallOrdPairs R (snd (scanUnique s unique))).
Proof.
  induction unique as [|u rest (IH1 & IH2 & IH3 & IH4 & IH5)]; simpl.
  - split; [tauto|]. split; [tauto|]. split; [discriminate|].
    split; [intros _ x []|tauto].
  - destruct (isSubset u s) eqn:Eus; simpl.
    + split; [tauto|]. split; [tauto|].
      split; [intros _; exists u; auto|]. split; [discriminate|tauto].
    + destruct (isSubset s u) eqn:Esu.
      * split; [intros x Hx; right; now apply IH1|].
        split; [intros x [<-|Hx]; [now right|now apply IH2]|].
        split; [exact IH3|]. split; [exact IH4|].
        intros R HR. inversion HR; subst. now apply IH5.
      * destruct (scanUnique s rest) as [d rest'] eqn:Escan; simpl in *.
        split; [intros x [->|Hx]; auto|].
        split.
        { intros x [<-|Hx]; [left; now left|]. destruct (IH2 x Hx); auto. }
        split.
        { intros Hd. destruct (IH3 Hd) as (x & Hx & Hs). exists x. auto. }
        split.
        { intros Hd x [<-|Hx]; [split; assumption|now apply IH4]. }
        intros R HR. inversion HR as [|? ? Hall Hrest]; subst.
        constructor; [|now apply IH5].
        rewrite Forall_forall in *. intros x Hx. apply Hall. now apply IH1.
Qed.

Lemma minimizeStep_dominates (st : list (list nat) * list str) (s : list nat)
    (P : list (list nat)) :
  (forall t, In t P -> exists u, In u (fst st) /\ isSubset u t = true) ->
  (forall k, In k (snd st) -> exists t, In t P /\ key t = k) ->
  (forall t, In t (P ++ [s]) ->
     exists u, In u (fst (minimizeStep st s)) /\ isSubset u t = true) /\
  (forall k, In k (snd (minimizeStep st s)) ->
     exists t, In t (P ++ [s]) /\ key t = k).
Proof.
  destruct st as [unique seen]. unfold minimizeStep. cbn [fst snd].
  intros HA HB.
  assert (HB' : forall k, In k seen -> exists t, In t (P ++ [s]) /\ key t = k).
  { intros k Hk. destruct (HB k Hk) as (t & Ht & E). exists t. split; [|exact E].
    apply in_or_app. now left. }
  destruct (setHas str_eqb seen (key s)) eqn:Eseen.
  - cbn [fst snd]. split; [|exact HB'].
    intros t Ht. apply in_app_or in Ht. destruct Ht as [Ht|[<-|[]]]; [auto|].
    apply (setHas_In str_eqb str_eqb_eq) in Eseen.
    destruct (HB _ Eseen) as (t & Ht & E). apply key_injective in E. subst t. auto.
  - destruct (scanUnique_full s unique) as (S1 & S2 & S3 & S4 & _).
    destruct (scanUnique s unique) as [d unique']. cbn [fst snd] in *.
    assert (Hold : forall w, (exists u, In u w /\ isSubset u s = true) ->
                             (forall x, In x unique' -> In x w) ->
                             forall t, In t P -> exists u, In u w /\ isSubset u t = true).
    { intros w (u0 & Hu0 & Hs0) Hw t Ht.
      destruct (HA t Ht) as (u & Hu & Hut).
      destruct (S2 u Hu) as [Hin|Hsu]; [exists u; auto|].
      exists u0. split; [exact Hu0|].
      eapply isSubset_trans; [exact Hs0|]. eapply isSubset_trans; eassumption. }
    destruct d; cbn [fst snd].
    + split; [|exact HB'].
      destruct (S3 eq_refl) as (u0 & Hu0 & Hs0).
      intros t Ht. apply in_app_or in Ht. destruct Ht as [Ht|[<-|[]]].
      * apply (Hold unique'); eauto.
      * eauto.
    + split.
      * assert (Hs : exists u, In u (unique' ++ [s]) /\ isSubset u s = true).
        { exists s. split; [apply in_or_app; right; now left|apply isSubset_refl]. }
        intros t Ht. apply in_app_or in Ht. destruct Ht as [Ht|[<-|[]]]; [|exact Hs].
        apply (Hold (unique' ++ [s])); [exact Hs| |exact Ht].
        intros x Hx. apply in_or_app. now left.
      * intros k Hk. apply (setAdd_In str_eqb str_eqb_eq) in Hk.
        destruct Hk as [Hk| ->]; [now apply HB'|].
        exists s. split; [apply in_or_app; right; now left|reflexivity].
Qed.

Lemma fold_minimizeStep_dominates (l : list (list nat)) :
  forall (st : list (list nat) * list str) (P : list (list nat)),
    (forall t, In t P -> exists u, In u (fst st) /\ isSubset u t = true) ->
    (forall k, In k (snd st) -> exists t, In t P /\ key t = k) ->
    forall t, In t (P ++ l) ->
      exists u, In u (fst (fold_left minimizeStep l st)) /\ isSubset u t = true.
Proof.
  induction l as [|s l IH]; intros st P HA HB t Ht; simpl.
  - rewrite app_nil_r in Ht. now apply HA.
  - destruct (minimizeStep_dominates st s P HA HB) as [HA' HB'].
    apply (IH (minimizeStep st s) (P ++ [s]) HA' HB').
    rewrite <- app_assoc. exact Ht.
Qed.

Lemma minimizeStep_antichain (st : list (list nat) * list str) (s : list nat) :
  ForallOrdPairs incomparable (fst st) ->
  ForallOrdPairs incomparable (fst (minimizeStep st s)).
Proof.
  destruct st as [unique seen]. unfold minimizeStep. cbn [fst]. intros H.
  destruct (setHas str_eqb seen (key s)); [exact H|].
  destruct (scanUnique_full s unique) as (_ & _ & _ & S4 & S5).
  destruct (scanUnique s unique) as [d unique']. cbn [fst snd] in *.
  destruct d; cbn [fst]; [now apply S5|].
  apply FOP_snoc; [now apply S5|].
  apply Forall_forall. intros x Hx. now apply S4.
Qed.

Lemma minimizeSets_dominates (sets : list (list nat)) (t : list nat) :
  In t sets -> exists u, In u (minimizeSets sets) /\ isSubset u t = true.
Proof.
  intros Ht. unfold minimizeSets.
  apply (fold_minimizeStep_dominates (sortBy byLength sets) ([], []) []).
  - intros x [].
  - intros k [].
  - simpl. now apply sortBy_In.
Qed.

Lemma minimizeSets_antichain (sets : list (list nat)) :
  ForallOrdPairs incomparable (minimizeSets sets).
Proof.
  unfold minimizeSets.
  apply (fold_left_invariant minimizeStep
           (fun st => ForallOrdPairs incomparable (fst st))).
  - intros st s _. apply minimizeStep_antichain.
  - constructor.
Qed.

(** X8. [minimizeSets] returns the minimal sets of its input: every set it
    returns is one of the input; every input set has a subset among those
    returned; and no returned set is a subset of the one at another index
    (in particular none is returned twice). *)
Theorem minimizeSets_returns_the_minimal_sets (sets : list (list nat)) :
  (forall u, In u (minimizeSets sets) -> In u sets) /\
  (forall t, In t sets ->
     exists u, In u (minimizeSets sets) /\ isSubset u t = true) /\
  (forall i j u u',
     i <> j ->
     nth_error (minimizeSets sets) i = Some u ->
     nth_error (minimizeSets sets) j = Some u' ->
     isSubset u u' = false).
Proof.
  split; [apply minimizeSets_subset|]. split; [apply minimizeSets_dominates|].
  intros i j u u' Hij Hi Hj.
  pose proof (FOP_nth incomparable _ (minimizeSets_antichain sets)) as H.
  destruct (Nat.lt_ge_cases i j) as [Hlt|Hge].
  - exact (proj1 (H i j u u' Hlt Hi Hj)).
  - exact (proj2 (H j i u' u ltac:(lia) Hj Hi)).
Qed.

(** ** petricksMethod returns a smallest cover *)

Lemma insertSorted_strict_nat (x : nat) (l : list nat) :
  StronglySorted lt l -> ~ In x l ->
  StronglySorted lt (insertSorted Nat.leb x l).
Proof.
  induction l as [|y l IH]; intros Hs Hx; simpl.
  - repeat constructor.
  - inversion Hs as [|? ? Hs' Hall]; subst.
    destruct (Nat.leb x y) eqn:E.
    + apply Nat.leb_le in E.
      assert (Hlt : x < y) by (assert (x <> y) by (intros ->; apply Hx; now left); lia).
      constructor; [exact Hs|]. constructor; [exact Hlt|].
      eapply Forall_impl; [|exact Hall]. intros z Hz. simpl in Hz. lia.
    + apply Nat.leb_gt in E. constructor.
      * apply IH; [exact Hs'|]. intros H. apply Hx. now right.
      * apply Forall_forall. intros z Hz. apply insertSorted_In in Hz.
        destruct Hz as [->|Hz]; [exact E|].
        rewrite Forall_forall in Hall. now apply Hall.
Qed.

Lemma sortBy_strict_nat (l : list nat) :
  NoDup l -> StronglySorted lt (sortBy Nat.leb l).
Proof.
  induction 1 as [|x l Hx Hl IH]; simpl; [constructor|].
  apply insertSorted_strict_nat; [exact IH|]. now rewrite sortBy_In.
Qed.

Lemma sortedSetNat_strict (l : list nat) : StronglySorted lt (sortedSetNat l).
Proof. apply sortBy_strict_nat, setFrom_NoDup, Nat.eqb_eq. Qed.

Lemma strict_sorted_NoDup (l : list nat) : StronglySorted lt l -> NoDup l.
Proof.
  induction 1 as [|x l Hs IH Hall]; constructor; [|exact IH].
  intros Hin. rewrite Forall_forall in Hall. specialize (Hall x Hin). lia.
Qed.

Lemma fold_petrickFold_sorted (coverSets : list (list nat)) :
  forall solutions : list (list nat),
    (forall s, In s solutions -> StronglySorted lt s) ->
    forall t, In t (fold_left petrickFold coverSets solutions) ->
              StronglySorted lt t.
Proof.
  induction coverSets as [|c cs IH]; intros solutions Hs t Ht; simpl in Ht;
    [now apply Hs|].
  apply (IH (petrickFold solutions c)); [|exact Ht].
  intros s Hin. apply petrickFold_spec in Hin.
  destruct Hin as (sol & x & _ & _ & ->). apply sortedSetNat_strict.
Qed.

(** A set of indices that meets every clause holds one of the combinations
    the folds leave. *)
Lemma fold_petrickFold_complete (coverSets : list (list nat)) :
  forall (solutions : list (list nat)) (H : list nat),
    (exists s, In s solutions /\ incl s H) ->
    (forall c, In c coverSets -> exists i, In i c /\ In i H) ->
    exists t, In t (fold_left petrickFold coverSets solutions) /\ incl t H.
Proof.
  induction coverSets as [|c cs IH]; intros solutions H Hs Hhit; simpl;
    [exact Hs|].
  apply IH; [|intros c' Hc'; apply Hhit; now right].
  destruct Hs as (s & Hs & Hincl).
  destruct (Hhit c (or_introl eq_refl)) as (x & Hxc & HxH).
  destruct (minimizeSets_dominates
              (flat_map (fun sol => map (fun c0 => sortedSetNat (sol ++ [c0])) c)
                 solutions)
              (sortedSetNat (s ++ [x]))) as (u & Hu & Hsub).
  { apply in_flat_map. exists s. split; [exact Hs|].
    apply in_map_iff. exists x. auto. }
  exists u. split; [exact Hu|].
  apply isSubset_incl in Hsub. intros i Hi.
  apply Hsub, sortedSetNat_In, in_app_or in Hi.
  destruct Hi as [Hi|[<-|[]]]; [now apply Hincl|exact HxH].
Qed.

Lemma petricksMethod_minimum (coverSets : list (list nat)) (H : list nat) :
  (forall c, In c coverSets -> exists i, In i c /\ In i H) ->
  length (petricksMethod coverSets) <= length H.
Proof.
  intros Hhit.
  destruct (fold_petrickFold_complete coverSets [[]] H) as (t & Ht & Hincl);
    [exists []; split; [now left|intros i []]|exact Hhit|].
  destruct (petricksMethod_head coverSets) as [[E _]|[_ Hmin]].
  - unfold petrickSolutions in E. rewrite E in Ht. destruct Ht.
  - etransitivity; [apply (Hmin t Ht)|].
    apply NoDup_incl_length; [|exact Hincl].
    apply strict_sorted_NoDup.
    apply (fold_petrickFold_sorted coverSets [[]]); [|exact Ht].
    intros s [<-|[]]. constructor.
Qed.

Lemma hit_clauses_nonempty (coverSets : list (list nat)) (H : list nat) :
  (forall c, In c coverSets -> exists i, In i c /\ In i H) ->
  forall c, In c coverSets -> c <> [].
Proof.
  intros Hhit c Hc E. destruct (Hhit c Hc) as (i & Hi & _).
  rewrite E in Hi. destruct Hi.
Qed.

(** X9. [petricksMethod] returns a smallest set of indices that meets every
    clause: whenever some list [H] of indices holds an index of each clause,
    the list returned holds an index of each clause too and is not longer
    than [H]. *)
Theorem petricksMethod_returns_a_smallest_cover
    (coverSets : list (list nat)) (H : list nat) :
  (forall c, In c coverSets -> exists i, In i c /\ In i H) ->
  (forall c, In c coverSets ->
     exists i, In i c /\ In i (petricksMethod coverSets)) /\
  length (petricksMethod coverSets) <= length H.
Proof.
  intros Hhit. split; [|now apply petricksMethod_minimum].
  apply petricksMethod_hits. eapply hit_clauses_nonempty. exact Hhit.
Qed.

Lemma example_cover_meets_clauses :
  forall c, In c [[0; 1]; [1; 2]; [0; 2]] -> exists i, In i c /\ In i [2; 0; 1].
Proof.
  intros c [<-|[<-|[<-|[]]]].
  - exists 0. split; simpl; auto.
  - exists 1. split; simpl; auto.
  - exists 0. split; simpl; auto.
Defined.

Lemma petricksMethod_returns_a_smallest_cover_witness :
  (forall c, In c [[0; 1]; [1; 2]; [0; 2]] -> exists i, In i c /\ In i [2; 0; 1]) /\
  length (petricksMethod [[0; 1]; [1; 2]; [0; 2]]) <= length [2; 0; 1].
Proof.
  split; [exact example_cover_meets_clauses|].
  exact (proj2 (petricksMethod_returns_a_smallest_cover
                  [[0; 1]; [1; 2]; [0; 2]] [2; 0; 1] example_cover_meets_clauses)).
Defined.

Lemma flat_map_nil {A B : Type} (l : list A) :
  flat_map (fun _ : A => @nil B) l = [].
Proof. induction l as [|x l IH]; simpl; [reflexivity|exact IH]. Qed.

Lemma fold_petrickFold_from_nil (coverSets : list (list nat)) :
  fold_left petrickFold coverSets [] = [].
Proof. induction coverSets as [|c cs IH]; simpl; [reflexivity|exact IH]. Qed.

Lemma petrickFold_empty_clause (solutions : list (list nat)) :
  petrickFold solutions [] = [].
Proof. unfold petrickFold. simpl. now rewrite flat_map_nil. Qed.

(** X10. A clause without candidates is not reported: when some clause is
    the empty list, [petricksMethod] returns the empty list, which meets no
    clause. *)
Theorem petricksMethod_with_an_empty_clause (coverSets : list (list nat)) :
  In [] coverSets ->
  petrickSolutions coverSets = [] /\ petricksMethod coverSets = [].
Proof.
  intros Hin. apply in_split in Hin. destruct Hin as (pre & post & ->).
  assert (E : petrickSolutions (pre ++ [] :: post) = []).
  { unfold petrickSolutions. rewrite fold_left_app. simpl.
    rewrite petrickFold_empty_clause. apply fold_petrickFold_from_nil. }
  split; [exact E|]. unfold petricksMethod. now rewrite E.
Qed.

Lemma petricksMethod_with_an_empty_clause_witness :
  In [] [[0; 1]; []; [2]] /\ petricksMethod [[0; 1]; []; [2]] = [].
Proof.
  assert (H : In (@nil nat) [[0; 1]; []; [2]]) by (right; now left).
  split; [exact H|].
  exact (proj2 (petricksMethod_with_an_empty_clause [[0; 1]; []; [2]] H)).
Defined.

(** X11. The list [petricksMethod] returns is strictly ascending: sorted
    and without a repeated index. *)
Theorem petricksMethod_is_strictly_ascending (coverSets : list (list nat)) :
  StronglySorted lt (petricksMethod coverSets).
Proof.
  destruct (petricksMethod_head coverSets) as [[_ E]|[Hin _]].
  - rewrite E. constructor.
  - apply (fold_petrickFold_sorted coverSets [[]]); [|exact Hin].
    intros s [<-|[]]. constructor.
Qed.

(** ** The patterns returned cover no absent cell *)

Section PairProperty.
Variable P : str -> Prop.
Hypothesis P_pair : forall a b c, P a -> P b -> combine a b = Some c -> P c.

Lemma runRound_keeps_pair (cur : Groups) :
  (forall x, In x (members cur) -> P (bits x)) ->
  forall x, In x (members (nextGroups (runRound cur))) -> P (bits x).
Proof.
  intros Hcur.
  apply (runRound_invariant cur
           (fun st => forall x, In x (members (nextGroups st)) -> P (bits x))).
  - intros x [].
  - intros a b st Ha Hb Hst x Hx.
    destruct (tryCombine_spec a b st) as [E|(comb & Hc & _ & _ & _ & _ & Hnew)].
    + rewrite E in Hx. now apply Hst.
    + destruct (Hnew x Hx) as [H|H]; [now apply Hst|].
      rewrite H. eapply P_pair; [| |exact Hc]; now apply Hcur.
Qed.

Lemma combineLoop_keeps_pair (fuel : nat) :
  forall (cur : Groups) (allPrime : list Implicant) (r : nat)
         (res : list Implicant) (n : nat),
    (forall x, In x (members cur) -> P (bits x)) ->
    (forall x, In x allPrime -> P (bits x)) ->
    combineLoop fuel cur allPrime r = Some (res, n) ->
    forall x, In x res -> P (bits x).
Proof.
  induction fuel as [|fuel IH]; intros cur allPrime r res n Hcur Hall H;
    simpl in H; [discriminate|].
  assert (Hall' : forall x, In x (collectPrimes cur (taken (runRound cur)) allPrime)
                            -> P (bits x)).
  { intros x Hx. apply collectPrimes_spec in Hx. destruct Hx; auto. }
  destruct (anyCombined (runRound cur)).
  - eapply IH; [| |exact H]; [|exact Hall'].
    now apply runRound_keeps_pair.
  - injection H as <- _. exact Hall'.
Qed.

Lemma generate_keeps_pair (universe : list Z) (w : nat)
    (allPrime : list Implicant) (rounds : nat) :
  (forall m, In m universe -> P (toBinary m w)) ->
  generate universe w = Some (allPrime, rounds) ->
  forall x, In x allPrime -> P (bits x).
Proof.
  unfold generate. intros Pinit H.
  eapply combineLoop_keeps_pair; [| |exact H].
  - intros x Hx. apply initGroups_members in Hx. destruct Hx as (m & Hm & ->).
    simpl. now apply Pinit.
  - intros x [].
Qed.
End PairProperty.

(** With inputs in range, a cell matched by a pattern of the generator is
    in the universe. *)
Lemma generate_sound (opts : SolveOptions) (allPrime : list Implicant)
    (rounds : nat) (x : Implicant) (m : Z) :
  (2 <= numInputs opts <= 6)%Z -> inRange opts ->
  generate (universeOf opts) (Z.to_nat (numInputs opts)) = Some (allPrime, rounds) ->
  In x allPrime -> fitsIn (numInputs opts) m ->
  coveredBy (bits x) m (Z.to_nat (numInputs opts)) = true ->
  In m (universeOf opts).
Proof.
  intros Hn Hrange Hgen Hx Hm Hcov.
  set (w := Z.to_nat (numInputs opts)) in *.
  assert (Hw : 0 < w) by (unfold w; lia).
  assert (Hcell : forall k, fitsIn (numInputs opts) k ->
                            (0 <= k < 2 ^ Z.of_nat w)%Z).
  { intros k Hk. unfold w. rewrite Z2Nat.id by lia. exact Hk. }
  set (P := fun s : str =>
              length s = w /\ overAlphabet s /\
              forall k, fitsIn (numInputs opts) k ->
                        coveredBy s k w = true -> In k (universeOf opts)).
  assert (HP : P (bits x)).
  { apply (generate_keeps_pair P) with (universe := universeOf opts) (w := w)
                                      (allPrime := allPrime) (rounds := rounds);
      [| |exact Hgen|exact Hx].
    - intros a b c (Hla & Haa & Hsa) (Hlb & Hab & Hsb) Hc. unfold P.
      split; [rewrite (combine_length _ _ _ Hc); exact Hla|].
      split; [exact (combine_alphabet a b c Haa Hc)|].
      intros k Hk Hck.
      apply (coveredBy_combine_exact a b c k w Hw Hla Hlb Haa Hab (Hcell k Hk) Hc)
        in Hck.
      destruct Hck; auto.
    - intros m' Hm'.
      pose proof (universe_in_range opts m' Hrange Hm') as Hfit.
      destruct (toBinary_in_range m' w Hw (Hcell m' Hfit)) as [Hl Ha].
      unfold P. split; [exact Hl|]. split; [exact Ha|].
      intros k Hk Hck.
      apply (coveredBy_full_pattern k m' w Hw (Hcell k Hk) (Hcell m' Hfit)) in Hck.
      now subst k. }
  destruct HP as (_ & _ & Hsound). now apply Hsound.
Qed.

(** X12. With a number of inputs between 2 and 6 and minterms and
    don't-cares in [0, 2^numInputs), the selection is a correct cover of the
    map: every minterm is matched by the pattern of a selected implicant,
    and a cell matched by the pattern of any returned prime implicant, the
    selected ones among them, is a minterm or a don't-care. *)
Theorem selection_is_a_correct_cover (opts : SolveOptions) :
  (2 <= numInputs opts <= 6)%Z -> inRange opts ->
  exists r,
    minimizeKMapJS opts = Returned r /\
    (forall m, In m (minterms opts) ->
       exists p, In p (selectedImplicants r) /\
                 coveredBy (bits p) m (Z.to_nat (numInputs opts)) = true) /\
    (forall p m,
       In p (primeImplicants r) -> fitsIn (numInputs opts) m ->
       coveredBy (bits p) m (Z.to_nat (numInputs opts)) = true ->
       In m (minterms opts) \/ In m (givenDontCares opts)) /\
    (forall p, In p (selectedImplicants r) -> In p (primeImplicants r)).
Proof.
  intros Hn Hrange. destruct (minimizeKMapJS_returns opts Hn) as (r & Hr).
  exists r. split; [exact Hr|]. split; [|split].
  - intros m Hm.
    assert (Hm' : In m (mintermsOf opts)) by now apply sortedSetZ_In.
    destruct (selected_covers_minterm opts r Hr m Hm') as (p & Hp & Hc).
    exists p. split; [exact Hp|].
    apply (prime_covered_spec opts r Hr p m); [|exact Hc].
    now apply (selected_are_primes opts r Hr).
  - intros p m Hp Hm Hcov.
    destruct (minimizeKMapJS_Returned opts r Hr)
      as (_ & allPrime & rounds & cm & Hgen & _ & _ & _ & Hpr & _).
    cbn zeta in *. rewrite Hpr in Hp.
    destruct (primeChart_bits _ _ _ _ Hp) as (x & Hx & Hb).
    apply universeOf_In.
    apply (generate_sound opts allPrime rounds x m Hn Hrange Hgen Hx Hm).
    now rewrite Hb.
  - apply (selected_are_primes opts r Hr).
Qed.

Lemma dontCareExample_in_range : inRange dontCareExample.
Proof.
  split; repeat (apply Forall_cons; [unfold fitsIn; simpl; lia|]); constructor.
Defined.

Lemma selection_is_a_correct_cover_witness :
  (2 <= numInputs dontCareExample <= 6)%Z /\ inRange dontCareExample /\
  exists r,
    minimizeKMapJS dontCareExample = Returned r /\
    (forall p m,
       In p (primeImplicants r) -> fitsIn (numInputs dontCareExample) m ->
       coveredBy (bits p) m (Z.to_nat (numInputs dontCareExample)) = true ->
       In m (minterms dontCareExample) \/ In m (givenDontCares dontCareExample)).
Proof.
  assert (H : (2 <= numInputs dontCareExample <= 6)%Z) by (simpl; lia).
  split; [exact H|]. split; [exact dontCareExample_in_range|].
  destruct (selection_is_a_correct_cover dontCareExample H dontCareExample_in_range)
    as (r & Hr & _ & Hsound & _).
  exists r. split; [exact Hr|exact Hsound].
Defined.

(** ** The shape of the lists returned *)

Lemma uniqueByBits_NoDup_acc (imps : list Implicant) :
  forall (seen : list str) (res : list Implicant),
    (forall b, In b seen <-> In b (map bits res)) ->
    NoDup (map bits res) ->
    NoDup (map bits
             (snd (fold_left
                     (fun '(seen, res) imp =>
                        if setHas str_eqb seen (bits imp) then (seen, res)
                        else (setAdd str_eqb seen (bits imp), res ++ [imp]))
                     imps (seen, res)))).
Proof.
  induction imps as [|imp imps IH]; intros seen res Hseen Hnd; simpl;
    [exact Hnd|].
  destruct (setHas str_eqb seen (bits imp)) eqn:E; [now apply IH|].
  apply (setHas_not_In str_eqb str_eqb_eq) in E.
  apply IH.
  - intros b. rewrite (setAdd_In str_eqb str_eqb_eq), map_app, in_app_iff, Hseen.
    simpl. intuition.
  - rewrite map_app. simpl.
    apply NoDup_rev in Hnd. rewrite <- (rev_involutive (map bits res ++ [bits imp])).
    apply NoDup_rev. rewrite rev_app_distr. simpl. constructor; [|exact Hnd].
    rewrite <- in_rev, <- Hseen. exact E.
Qed.

Lemma uniqueByBits_NoDup (imps : list Implicant) :
  NoDup (map bits (uniqueByBits imps)).
Proof.
  apply uniqueByBits_NoDup_acc; [simpl; tauto|constructor].
Qed.

Lemma primeChart_bits_map (allPrime : list Implicant) (minterms : list Z) (w : nat) :
  map bits (primeChart allPrime minterms w) = map bits (uniqueByBits allPrime).
Proof. unfold primeChart. rewrite map_map. reflexivity. Qed.

Lemma lookupAll_length (primes : list Implicant) (indices : list nat) :
  forall ps, lookupAll primes indices = Some ps -> length ps = length indices.
Proof.
  induction indices as [|i indices IH]; intros ps H; simpl in H.
  - now injection H as <-.
  - destruct (nth_error primes i); [|discriminate].
    destruct (lookupAll primes indices) as [qs|]; [|discriminate].
    injection H as <-. simpl. f_equal. now apply IH.
Qed.

Lemma chosenOf_NoDup (mToImps : Chart) (essential : list nat) (remaining : list Z) :
  NoDup (chosenOf mToImps essential remaining).
Proof.
  unfold chosenOf. destruct (0 <? length remaining).
  - apply (fold_setAdd_NoDup Nat.eqb Nat.eqb_eq), (setFrom_NoDup Nat.eqb Nat.eqb_eq).
  - apply (setFrom_NoDup Nat.eqb Nat.eqb_eq).
Qed.

(** X13. For a number of inputs between 2 and 6 the three lists returned
    are nested and free of repetition: every essential implicant is
    selected, every selected implicant is a prime implicant, no two prime
    implicants have the same pattern, and both [selectedImplicants] and
    [essentialPrimeImplicants] list prime implicants at strictly increasing
    indices. *)
Theorem returned_lists_are_nested (opts : SolveOptions) :
  (2 <= numInputs opts <= 6)%Z ->
  exists r,
    minimizeKMapJS opts = Returned r /\
    (forall p, In p (essentialPrimeImplicants r) -> In p (selectedImplicants r)) /\
    (forall p, In p (selectedImplicants r) -> In p (primeImplicants r)) /\
    NoDup (map bits (primeImplicants r)) /\
    (exists idx, StronglySorted lt idx /\
                 lookupAll (primeImplicants r) idx = Some (selectedImplicants r)) /\
    (exists idx, StronglySorted lt idx /\
                 lookupAll (primeImplicants r) idx
                 = Some (essentialPrimeImplicants r)).
Proof.
  intros Hn. destruct (minimizeKMapJS_returns opts Hn) as (r & Hr).
  exists r. split; [exact Hr|].
  destruct (minimizeKMapJS_Returned opts r Hr)
    as (_ & allPrime & rounds & cm & _ & _ & Hsel & Hess & Hpr & _).
  cbn zeta in *. rewrite Hpr.
  split; [|split; [|split; [|split]]].
  - intros p Hp. apply (lookupAll_In _ _ _ p Hess) in Hp.
    destruct Hp as (i & Hi & Hp). apply (lookupAll_In _ _ _ p Hsel).
    exists i. split; [|exact Hp].
    apply sortBy_In, chosenOf_In. left. now apply sortBy_In in Hi.
  - intros p. rewrite <- Hpr. apply (selected_are_primes opts r Hr).
  - rewrite primeChart_bits_map. apply uniqueByBits_NoDup.
  - eexists. split; [|exact Hsel].
    apply sortBy_strict_nat, chosenOf_NoDup.
  - eexists. split; [|exact Hess].
    apply sortBy_strict_nat, essentialOf_NoDup.
Qed.

Lemma returned_lists_are_nested_witness :
  (2 <= numInputs dontCareExample <= 6)%Z /\
  exists r,
    minimizeKMapJS dontCareExample = Returned r /\
    (forall p, In p (essentialPrimeImplicants r) -> In p (selectedImplicants r)) /\
    NoDup (map bits (primeImplicants r)).
Proof.
  assert (H : (2 <= numInputs dontCareExample <= 6)%Z) by (simpl; lia).
  split; [exact H|].
  destruct (returned_lists_are_nested dontCareExample H)
    as (r & Hr & H1 & _ & H3 & _).
  exists r. auto.
Defined.

Lemma filter_strict (f : Z -> bool) (l : list Z) :
  StronglySorted Z.lt l -> StronglySorted Z.lt (filter f l).
Proof.
  induction 1 as [|x l Hs IH Hall]; simpl; [constructor|].
  destruct (f x); [|exact IH]. constructor; [exact IH|].
  rewrite Forall_forall in *. intros y Hy. apply Hall.
  apply filter_In in Hy. tauto.
Qed.

(** X14. For a number of inputs between 2 and 6, the [covered] array of
    every prime implicant returned is strictly ascending and holds minterms
    only, and the [covered] array of every selected implicant holds at least
    one minterm. *)
Theorem covered_arrays_are_sorted_minterms (opts : SolveOptions) :
  (2 <= numInputs opts <= 6)%Z ->
  exists r,
    minimizeKMapJS opts = Returned r /\
    (forall p, In p (primeImplicants r) ->
       StronglySorted Z.lt (covered p) /\
       forall m, In m (covered p) -> In m (minterms opts)) /\
    (forall p, In p (selectedImplicants r) -> covered p <> []).
Proof.
  intros Hn. destruct (minimizeKMapJS_returns opts Hn) as (r & Hr).
  exists r. split; [exact Hr|].
  destruct (minimizeKMapJS_Returned opts r Hr)
    as (_ & allPrime & rounds & cm & _ & _ & Hsel & _ & Hpr & _).
  cbn zeta in *. split.
  - intros p Hp. split.
    + rewrite Hpr in Hp. apply primeChart_In in Hp. destruct Hp as (x & _ & ->).
      simpl. unfold expandCoverage. apply filter_strict, sortedSetZ_strict.
    + intros m Hm. apply (prime_covered_spec opts r Hr p m Hp) in Hm.
      destruct Hm as [Hm _]. now apply (proj1 (sortedSetZ_In _ _)) in Hm.
  - intros p Hp E. apply (lookupAll_In _ _ _ p Hsel) in Hp.
    destruct Hp as (i & Hi & Hp). apply sortBy_In, chosenOf_In in Hi.
    assert (Hm : exists m, In i (getOrEmpty Z.eqb
                   (buildChart 0 (primeChart allPrime (mintermsOf opts)
                                    (Z.to_nat (numInputs opts))) []) m)).
    { destruct Hi as [Hi|[_ Hi]].
      - apply essentialOf_In in Hi. destruct Hi as (m & _ & Hone).
        exists m. rewrite Hone. now left.
      - apply petricksMethod_elements in Hi. destruct Hi as (c & Hc & Hic).
        apply in_map_iff in Hc. destruct Hc as (m & <- & _). exists m. exact Hic. }
    destruct Hm as (m & Hm). apply chart_get in Hm.
    destruct Hm as (q & Hq & Hmq).
    assert (q = p) by congruence. subst q. rewrite E in Hmq. destruct Hmq.
Qed.

Lemma covered_arrays_are_sorted_minterms_witness :
  (2 <= numInputs dontCareExample <= 6)%Z /\
  exists r,
    minimizeKMapJS dontCareExample = Returned r /\
    (forall p, In p (selectedImplicants r) -> covered p <> []).
Proof.
  assert (H : (2 <= numInputs dontCareExample <= 6)%Z) by (simpl; lia).
  split; [exact H|].
  destruct (covered_arrays_are_sorted_minterms dontCareExample H)
    as (r & Hr & _ & H2).
  exists r. auto.
Defined.

(** ** The selection is a smallest cover by prime implicants *)

Lemma setAdd_length {A : Type} (eqb : A -> A -> bool) (s : list A) (x : A) :
  length (setAdd eqb s x) <= S (length s).
Proof.
  unfold setAdd. destruct (setHas eqb s x); [lia|].
  rewrite length_app. simpl. lia.
Qed.

Lemma fold_setAdd_length {A : Type} (eqb : A -> A -> bool) (l : list A) :
  forall s, length (fold_left (setAdd eqb) l s) <= length s + length l.
Proof.
  induction l as [|x l IH]; intros s; simpl; [lia|].
  etransitivity; [apply IH|]. pose proof (setAdd_length eqb s x). lia.
Qed.

Section SmallestCover.
Variables (opts : SolveOptions) (r : SolveResult) (cover : list nat).
Hypothesis Hrun : minimizeKMapJS opts = Returned r.
Hypothesis Hcover :
  forall m, In m (minterms opts) ->
    exists i p, In i cover /\ nth_error (primeImplicants r) i = Some p /\
                In m (covered p).

Lemma selection_not_longer_than_cover :
  length (selectedImplicants r) <= length cover.
Proof.
  destruct (minimizeKMapJS_Returned opts r Hrun)
    as (_ & allPrime & rounds & cm & _ & Hcm & Hsel & _ & Hpr & _).
  cbn zeta in *.
  set (primes := primeChart allPrime (mintermsOf opts) (Z.to_nat (numInputs opts))) in *.
  set (chart := buildChart 0 primes []) in *.
  set (essential := essentialOf chart (mintermsOf opts)) in *.
  set (remaining := remainingOf (mintermsOf opts) cm) in *.
  assert (Hcov : forall m, In m (mintermsOf opts) ->
                   exists i, In i cover /\ In i (getOrEmpty Z.eqb chart m)).
  { intros m Hm. apply (proj1 (sortedSetZ_In _ _)) in Hm.
    destruct (Hcover m Hm) as (i & p & Hi & Hp & Hmp).
    exists i. split; [exact Hi|]. apply chart_get. exists p.
    rewrite Hpr in Hp. auto. }
  (* every essential index is in the cover *)
  assert (Hess : incl essential cover).
  { intros e He. apply essentialOf_In in He. destruct He as (m & Hm & Hone).
    destruct (Hcov m Hm) as (i & Hi & Hic). rewrite Hone in Hic.
    destruct Hic as [<-|[]]. exact Hi. }
  set (isEss := fun i => setHas Nat.eqb essential i).
  assert (HlenE : length essential <= length (filter isEss cover)).
  { apply NoDup_incl_length; [apply essentialOf_NoDup|].
    intros e He. apply filter_In. split; [now apply Hess|].
    now apply (setHas_In Nat.eqb Nat.eqb_eq). }
  pose proof (filter_length isEss cover) as Hsplit.
  rewrite (lookupAll_length _ _ _ Hsel), sortBy_length.
  unfold chosenOf. destruct remaining as [|m0 rem] eqn:Erem.
  - simpl. rewrite (setFrom_NoDup_id Nat.eqb Nat.eqb_eq) by apply essentialOf_NoDup.
    fold essential. lia.
  - cbn [length Nat.ltb Nat.leb].
    etransitivity; [apply fold_setAdd_length|].
    rewrite (setFrom_NoDup_id Nat.eqb Nat.eqb_eq) by apply essentialOf_NoDup.
    fold essential.
    assert (Hpick : length (petricksMethod (map (getOrEmpty Z.eqb chart) (m0 :: rem)))
                    <= length (filter (fun i => negb (isEss i)) cover)).
    { apply petricksMethod_minimum. intros c Hc.
      apply in_map_iff in Hc. destruct Hc as (m & <- & Hm).
      rewrite <- Erem in Hm. unfold remaining, remainingOf in Hm.
      apply filter_In in Hm. destruct Hm as [Hm Hnot].
      destruct (Hcov m Hm) as (i & Hi & Hic).
      exists i. split; [exact Hic|]. apply filter_In. split; [exact Hi|].
      unfold isEss. destruct (setHas Nat.eqb essential i) eqn:Ei; [|reflexivity].
      exfalso. apply (setHas_In Nat.eqb Nat.eqb_eq) in Ei.
      apply chart_get in Hic. destruct Hic as (p & Hp & Hmp).
      assert (Hin : In m cm).
      { apply (coveredMintermsOf_In primes essential cm m);
          [intros e He; eapply essential_index_valid; exact He|exact Hcm|].
        exists i, p. auto. }
      apply (setHas_In Z.eqb Z.eqb_eq) in Hin. rewrite Hin in Hnot. discriminate. }
    lia.
Qed.
End SmallestCover.

(** X15. For a number of inputs between 2 and 6, no cover by prime
    implicants is smaller than the selection: any list of indices into
    [primeImplicants] whose implicants together hold every minterm in their
    [covered] arrays is at least as long as [selectedImplicants]. *)
Theorem selection_is_a_smallest_cover (opts : SolveOptions) :
  (2 <= numInputs opts <= 6)%Z ->
  exists r,
    minimizeKMapJS opts = Returned r /\
    forall cover : list nat,
      (forall m, In m (minterms opts) ->
         exists i p, In i cover /\ nth_error (primeImplicants r) i = Some p /\
                     In m (covered p)) ->
      length (selectedImplicants r) <= length cover.
Proof.
  intros Hn. destruct (minimizeKMapJS_returns opts Hn) as (r & Hr).
  exists r. split; [exact Hr|]. intros cover Hcover.
  exact (selection_not_longer_than_cover opts r cover Hr Hcover).
Qed.

Lemma selection_is_a_smallest_cover_witness :
  (2 <= numInputs cyclicExample <= 6)%Z /\
  exists r,
    minimizeKMapJS cyclicExample = Returned r /\
    length (primeImplicants r) = 6 /\
    length (selectedImplicants r) = 3 /\
    forall cover : list nat,
      (forall m, In m (minterms cyclicExample) ->
         exists i p, In i cover /\ nth_error (primeImplicants r) i = Some p /\
                     In m (covered p)) ->
      length (selectedImplicants r) <= length cover.
Proof.
  assert (H : (2 <= numInputs cyclicExample <= 6)%Z) by (simpl; lia).
  split; [exact H|].
  destruct (selection_is_a_smallest_cover cyclicExample H) as (r & Hr & Hmin).
  exists r. split; [exact Hr|].
  assert (E : minimizeKMapJS cyclicExample = Returned r ->
              length (primeImplicants r) = 6 /\ length (selectedImplicants r) = 3).
  { vm_compute. intros E. injection E as <-. split; reflexivity. }
  destruct (E Hr) as [E1 E2]. auto.
Defined.

(** ** What of the input matters *)

Lemma strict_sorted_same_members (l : list Z) :
  forall l', StronglySorted Z.lt l -> StronglySorted Z.lt l' ->
             (forall m, In m l <-> In m l') -> l = l'.
Proof.
  induction l as [|x l IH]; intros [|y l'] Hs Hs' Hsame.
  - reflexivity.
  - exfalso. apply (proj2 (Hsame y)). now left.
  - exfalso. apply (proj1 (Hsame x)). now left.
  - inversion Hs as [|? ? Hl Hx]; inversion Hs' as [|? ? Hl' Hy]; subst.
    rewrite Forall_forall in Hx, Hy.
    assert (E : x = y).
    { destruct (proj1 (Hsame x) (or_introl eq_refl)) as [E|Hin]; [now symmetry|].
      destruct (proj2 (Hsame y) (or_introl eq_refl)) as [E|Hin']; [exact E|].
      specialize (Hx y Hin'). specialize (Hy x Hin). lia. }
    subst y. f_equal. apply IH; [assumption|assumption|].
    intros m. split; intros Hm.
    + destruct (proj1 (Hsame m) (or_intror Hm)) as [<-|H]; [|exact H].
      specialize (Hx x Hm). lia.
    + destruct (proj2 (Hsame m) (or_intror Hm)) as [<-|H]; [|exact H].
      specialize (Hy x Hm). lia.
Qed.

Lemma sortedSetZ_same_members (l l' : list Z) :
  (forall m, In m l <-> In m l') -> sortedSetZ l = sortedSetZ l'.
Proof.
  intros H. apply strict_sorted_same_members; try apply sortedSetZ_strict.
  intros m. rewrite !sortedSetZ_In. apply H.
Qed.

(** X16. Only the sets of numbers matter.  Two calls with the same
    [numInputs] and [vars], the same minterms up to order and repetition,
    and the same minterms and don't-cares taken together, have the same
    outcome: the order of the lists, repeated numbers, a missing
    [dontCares] instead of an empty one, and don't-cares that are minterms
    too change nothing. *)
Theorem outcome_depends_on_the_sets_only (o1 o2 : SolveOptions) :
  numInputs o1 = numInputs o2 -> vars o1 = vars o2 ->
  (forall m, In m (minterms o1) <-> In m (minterms o2)) ->
  (forall m, In m (minterms o1) \/ In m (givenDontCares o1) <->
             In m (minterms o2) \/ In m (givenDontCares o2)) ->
  minimizeKMapJS o1 = minimizeKMapJS o2.
Proof.
  intros Hn Hv Hm Hu.
  assert (Em : mintermsOf o1 = mintermsOf o2)
    by (apply sortedSetZ_same_members; exact Hm).
  assert (Eu : universeOf o1 = universeOf o2).
  { apply strict_sorted_same_members; try apply sortedSetZ_strict.
    intros m. rewrite !universeOf_In. apply Hu. }
  assert (Ev : effectiveVars o1 = effectiveVars o2).
  { unfold effectiveVars. now rewrite Hn, Hv. }
  unfold minimizeKMapJS. rewrite Hn, Em, Eu, Ev. reflexivity.
Qed.

Lemma shuffled_same_minterms :
  forall m, In m (minterms checkerboardExample) <-> In m (minterms shuffledExample).
Proof. intros m. simpl. intuition. Defined.

Lemma shuffled_same_universe :
  forall m,
    In m (minterms checkerboardExample) \/ In m (givenDontCares checkerboardExample)
    <-> In m (minterms shuffledExample) \/ In m (givenDontCares shuffledExample).
Proof. intros m. simpl. intuition. Defined.

Lemma outcome_depends_on_the_sets_only_witness :
  minterms checkerboardExample <> minterms shuffledExample /\
  minimizeKMapJS checkerboardExample = minimizeKMapJS shuffledExample.
Proof.
  split; [discriminate|].
  exact (outcome_depends_on_the_sets_only checkerboardExample shuffledExample
           eq_refl eq_refl shuffled_same_minterms shuffled_same_universe).
Defined.

(** ** Variable names *)

Lemma fold_left_ext_in {S X : Type} (f g : S -> X -> S) (l : list X) :
  (forall s x, In x l -> f s x = g s x) ->
  forall s, fold_left f l s = fold_left g l s.
Proof.
  induction l as [|x l IH]; intros H s; simpl; [reflexivity|].
  rewrite (H s x (or_introl eq_refl)). apply IH.
  intros s' x' Hx'. apply H. now right.
Qed.

Lemma nth_error_firstn_lt {A : Type} (n i : nat) (l : list A) :
  i < n -> nth_error (firstn n l) i = nth_error l i.
Proof.
  intros H. rewrite nth_error_firstn.
  apply Nat.ltb_lt in H. now rewrite H.
Qed.

(** A pattern reads the names at its own positions only. *)
Lemma formatImplicant_firstn (bs : str) (n : nat) (v : list str) :
  length bs <= n ->
  formatImplicant bs (firstn n v) = formatImplicant bs v /\
  formatImplicantLatex bs (firstn n v) = formatImplicantLatex bs v.
Proof.
  intros Hl. unfold formatImplicant, formatImplicantLatex.
  split.
  - erewrite fold_left_ext_in; [reflexivity|].
    intros out i Hi. apply in_seq in Hi.
    now rewrite nth_error_firstn_lt by lia.
  - erewrite fold_left_ext_in; [reflexivity|].
    intros out i Hi. apply in_seq in Hi.
    now rewrite nth_error_firstn_lt by lia.
Qed.

Lemma withVars_minterms (opts : SolveOptions) (v : option (list str)) :
  mintermsOf (withVars opts v) = mintermsOf opts.
Proof. reflexivity. Qed.

Lemma withVars_universe (opts : SolveOptions) (v : option (list str)) :
  universeOf (withVars opts v) = universeOf opts.
Proof. reflexivity. Qed.

(** Two lists of names that render every pattern of [numInputs] characters
    alike give the same outcome when the inputs are in range. *)
Lemma names_agreeing_on_width (opts : SolveOptions) (v1 v2 : option (list str)) :
  (2 <= numInputs opts <= 6)%Z -> inRange opts ->
  (forall bs, length bs = Z.to_nat (numInputs opts) ->
     formatImplicant bs (effectiveVars (withVars opts v1))
     = formatImplicant bs (effectiveVars (withVars opts v2)) /\
     formatImplicantLatex bs (effectiveVars (withVars opts v1))
     = formatImplicantLatex bs (effectiveVars (withVars opts v2))) ->
  minimizeKMapJS (withVars opts v1) = minimizeKMapJS (withVars opts v2).
Proof.
  intros Hn Hrange Hsame. unfold minimizeKMapJS.
  rewrite !withVars_minterms, !withVars_universe.
  change (numInputs (withVars opts v1)) with (numInputs opts).
  change (numInputs (withVars opts v2)) with (numInputs opts).
  destruct ((numInputs opts <? 2) || (6 <? numInputs opts))%Z; [reflexivity|].
  destruct (generate (universeOf opts) (Z.to_nat (numInputs opts)))
    as [[allPrime rounds]|] eqn:Hgen; [|reflexivity].
  destruct (coveredMintermsOf _ _) as [cm|]; [|reflexivity].
  destruct (lookupAll _ (sortBy Nat.leb (chosenOf _ _ _))) as [selected|] eqn:Hsel;
    [|reflexivity].
  destruct (lookupAll _ (sortBy Nat.leb (essentialOf _ _))) as [essentials|];
    [|reflexivity].
  assert (Hlen : forall p, In p selected ->
                           length (bits p) = Z.to_nat (numInputs opts)).
  { intros p Hp. apply (lookupAll_members _ _ _ _ Hsel) in Hp.
    destruct (primeChart_bits _ _ _ _ Hp) as (x & Hx & <-).
    exact (proj1 (generate_in_range opts allPrime rounds x Hn Hrange Hgen Hx)). }
  assert (E1 : map (fun imp => formatImplicant (bits imp)
                                 (effectiveVars (withVars opts v1))) selected
               = map (fun imp => formatImplicant (bits imp)
                                   (effectiveVars (withVars opts v2))) selected).
  { apply map_ext_in. intros p Hp. apply Hsame. now apply Hlen. }
  assert (E2 : map (fun imp => formatImplicantLatex (bits imp)
                                 (effectiveVars (withVars opts v1))) selected
               = map (fun imp => formatImplicantLatex (bits imp)
                                   (effectiveVars (withVars opts v2))) selected).
  { apply map_ext_in. intros p Hp. apply Hsame. now apply Hlen. }
  rewrite E1, E2. reflexivity.
Qed.

(** X17. With inputs in range, a list of at least [numInputs] names counts
    by its first [numInputs] names only, and a shorter list does not count
    at all: the outcome is the one of a call without names. *)
Theorem names_beyond_numInputs_are_ignored (opts : SolveOptions) (v : list str) :
  (2 <= numInputs opts <= 6)%Z -> inRange opts ->
  ((numInputs opts <= Z.of_nat (length v))%Z ->
   minimizeKMapJS (withVars opts (Some v))
   = minimizeKMapJS (withVars opts (Some (firstn (Z.to_nat (numInputs opts)) v)))) /\
  ((Z.of_nat (length v) < numInputs opts)%Z ->
   minimizeKMapJS (withVars opts (Some v)) = minimizeKMapJS (withVars opts None)).
Proof.
  intros Hn Hrange. split; intros Hv.
  - apply names_agreeing_on_width; [exact Hn|exact Hrange|].
    intros bs Hbs. unfold effectiveVars, withVars. cbn [vars numInputs].
    assert (E1 : (numInputs opts <=? Z.of_nat (length v))%Z = true)
      by now apply Z.leb_le.
    assert (E2 : (numInputs opts
                  <=? Z.of_nat (length (firstn (Z.to_nat (numInputs opts)) v)))%Z
                 = true).
    { apply Z.leb_le. rewrite firstn_length_le by lia. lia. }
    rewrite E1, E2.
    destruct (formatImplicant_firstn bs (Z.to_nat (numInputs opts)) v) as [F1 F2];
      [lia|]. now rewrite F1, F2.
  - apply names_agreeing_on_width; [exact Hn|exact Hrange|].
    intros bs _. unfold effectiveVars, withVars. cbn [vars numInputs].
    assert (E : (numInputs opts <=? Z.of_nat (length v))%Z = false)
      by now apply Z.leb_gt.
    rewrite E. auto.
Qed.

Lemma names_beyond_numInputs_are_ignored_witness :
  (numInputs checkerboardExample <= Z.of_nat 8)%Z /\
  (Z.of_nat 3 < numInputs checkerboardExample)%Z /\
  minimizeKMapJS longNamesExample
  = minimizeKMapJS
      (withVars checkerboardExample (Some [lit "w"; lit "x"; lit "y"; lit "z"])) /\
  minimizeKMapJS shortNamesExample = minimizeKMapJS checkerboardExample.
Proof.
  assert (Hn : (2 <= numInputs checkerboardExample <= 6)%Z) by (simpl; lia).
  assert (H8 : (numInputs checkerboardExample <= Z.of_nat 8)%Z) by (simpl; lia).
  assert (H3 : (Z.of_nat 3 < numInputs checkerboardExample)%Z) by (simpl; lia).
  split; [exact H8|]. split; [exact H3|]. split.
  - exact (proj1 (names_beyond_numInputs_are_ignored checkerboardExample
             [lit "w"; lit "x"; lit "y"; lit "z"; lit "p"; lit "q"; lit "r"; lit "s"]
             Hn checkerboard_in_range) H8).
  - exact (proj2 (names_beyond_numInputs_are_ignored checkerboardExample
             [lit "w"; lit "x"; lit "y"] Hn checkerboard_in_range) H3).
Defined.

(** ** The generator returns exactly the prime implicants *)

(** *** Bit strings and numbers *)

Lemma binValue_acc (s : str) :
  forall v : Z,
    fold_left (fun v ch => (2 * v + (if Ascii.eqb ch one then 1 else 0))%Z) s v
    = (v * 2 ^ Z.of_nat (length s) + binValue s)%Z.
Proof.
  unfold binValue. induction s as [|c s IH]; intros v.
  - simpl. lia.
  - cbn [fold_left length]. rewrite IH, (IH (2 * 0 + _)%Z), pow2_succ. lia.
Qed.

Lemma binValue_cons (c : ascii) (s : str) :
  binValue (c :: s)
  = ((if Ascii.eqb c one then 1 else 0) * 2 ^ Z.of_nat (length s) + binValue s)%Z.
Proof. unfold binValue at 1. cbn [fold_left]. rewrite binValue_acc. lia. Qed.

Lemma binValue_bound (s : str) : (0 <= binValue s < 2 ^ Z.of_nat (length s))%Z.
Proof.
  induction s as [|c s IH].
  - cbn. lia.
  - rewrite binValue_cons. cbn [length]. rewrite pow2_succ.
    destruct (Ascii.eqb c one); lia.
Qed.

Lemma binValue_injective (s : str) :
  forall t, length s = length t -> Forall isConcrete s -> Forall isConcrete t ->
            binValue s = binValue t -> s = t.
Proof.
  induction s as [|c s IH]; intros [|d t] Hl Hs Ht E; try discriminate;
    [reflexivity|].
  injection Hl as Hl. inversion Hs as [|? ? Hc Hs']; inversion Ht as [|? ? Hd Ht'];
    subst.
  rewrite !binValue_cons, <- Hl in E.
  pose proof (binValue_bound s) as Bs. pose proof (binValue_bound t) as Bt.
  rewrite <- Hl in Bt.
  assert (Hcd : c = d /\ binValue s = binValue t).
  { destruct Hc as [-> | ->], Hd as [-> | ->];
      change (Ascii.eqb zero one) with false in E;
      change (Ascii.eqb one one) with true in E; cbv iota in E;
      split; try reflexivity; lia. }
  destruct Hcd as [-> E']. f_equal. now apply IH.
Qed.

(** A string of [w] bits is the pattern of the cell it stands for. *)
Lemma bits_are_a_pattern (s : str) (w : nat) :
  0 < w -> length s = w -> Forall isConcrete s ->
  (0 <= binValue s < 2 ^ Z.of_nat w)%Z /\ toBinary (binValue s) w = s.
Proof.
  intros Hw Hl Hs. pose proof (binValue_bound s) as B. rewrite Hl in B.
  split; [exact B|].
  destruct (toBinary_in_range (binValue s) w Hw B) as [Hl' Ha'].
  symmetry. apply binValue_injective.
  - congruence.
  - exact Hs.
  - unfold toBinary, padStart. apply Forall_app. split.
    + apply Forall_forall. intros c Hc. apply repeat_spec in Hc. now left.
    + now apply toString2_in_range with (w := w).
  - symmetry. apply binValue_toBinary. lia.
Qed.

(** *** Implicants *)

Lemma overAlphabet_app (s t : str) :
  overAlphabet (s ++ t) <-> overAlphabet s /\ overAlphabet t.
Proof. unfold overAlphabet. apply Forall_app. Qed.

Lemma overAlphabet_middle (pre post : str) (c d : ascii) :
  overAlphabet (pre ++ c :: post) -> (d = zero \/ d = one \/ d = dash) ->
  overAlphabet (pre ++ d :: post).
Proof.
  rewrite !overAlphabet_app. intros [H1 H2] Hd. split; [exact H1|].
  inversion H2; subst. constructor; assumption.
Qed.

Lemma countDashes_middle (pre post : str) (c : ascii) :
  countDashes (pre ++ c :: post)
  = countDashes pre + (if Ascii.eqb c dash then 1 else 0) + countDashes post.
Proof.
  rewrite countDashes_app. unfold countDashes. simpl.
  destruct (Ascii.eqb c dash); simpl; lia.
Qed.

Lemma setChar_middle (pre post : str) (c d : ascii) :
  setChar (pre ++ c :: post) (length pre) d = pre ++ d :: post.
Proof. apply replace_at_split. Qed.

Lemma has_dash (s : str) :
  0 < countDashes s -> exists pre post, s = pre ++ dash :: post.
Proof.
  unfold countDashes. intros H.
  destruct (filter (fun ch => Ascii.eqb ch dash) s) as [|c l] eqn:E;
    [simpl in H; lia|].
  assert (Hin : In c (filter (fun ch => Ascii.eqb ch dash) s))
    by (rewrite E; now left).
  apply filter_In in Hin. destruct Hin as [Hin Hc].
  apply Ascii.eqb_eq in Hc. subst c. now apply in_split.
Qed.

Section Implicants.
Variables (universe : list Z) (w : nat).
Hypothesis Hw : 0 < w.

(** The two halves of an implicant at one of its dashes are implicants. *)
Lemma implicant_halves (pre post : str) (z : ascii) :
  isImplicantOf universe w (pre ++ dash :: post) -> isConcrete z ->
  isImplicantOf universe w (pre ++ z :: post).
Proof.
  intros (Hl & Ha & Hcells) Hz. split; [|split].
  - rewrite <- Hl, !length_app. reflexivity.
  - eapply overAlphabet_middle; [exact Ha|]. destruct Hz; auto.
  - intros m Hm Hcov. apply Hcells; [exact Hm|].
    assert (Hother : exists z', isConcrete z' /\ z <> z').
    { destruct Hz as [-> | ->]; [exists one|exists zero]; split;
        try (now left); try (now right); discriminate. }
    destruct Hother as (z' & Hz' & Hne).
    apply (coveredBy_combine (pre ++ z :: post) (pre ++ z' :: post)).
    + apply combine_of_split; [exact Hne| |]; now apply dash_not_concrete.
    + rewrite <- Hl, !length_app. simpl. lia.
    + now left.
Qed.

(** What [combine] makes of two implicants is an implicant. *)
Lemma implicant_combine (a b c : str) :
  isImplicantOf universe w a -> isImplicantOf universe w b ->
  combine a b = Some c -> isImplicantOf universe w c.
Proof.
  intros (Hla & Haa & Hsa) (Hlb & Hab & Hsb) Hc. split; [|split].
  - rewrite (combine_length _ _ _ Hc). exact Hla.
  - exact (combine_alphabet a b c Haa Hc).
  - intros m Hm Hcov.
    apply (coveredBy_combine_exact a b c m w Hw Hla Hlb Haa Hab Hm Hc) in Hcov.
    destruct Hcov; auto.
Qed.

(** An implicant with dashes has under it implicants with any smaller
    number of dashes. *)
Lemma implicant_with_fewer_dashes (d : nat) :
  forall s j, isImplicantOf universe w s -> countDashes s = j + d ->
              exists g, isImplicantOf universe w g /\ countDashes g = j.
Proof.
  induction d as [|d IH]; intros s j Hs Hd.
  - exists s. split; [exact Hs|lia].
  - assert (Hpos : 0 < countDashes s) by lia.
    destruct (has_dash s Hpos) as (pre & post & ->). clear Hpos.
    apply (IH (pre ++ zero :: post) j).
    + apply implicant_halves; [exact Hs|now left].
    + rewrite countDashes_middle in *.
      change (Ascii.eqb dash dash) with true in Hd.
      change (Ascii.eqb zero dash) with false. cbv iota in Hd |- *. lia.
Qed.

(** An implicant without dashes is the pattern of a cell of the universe. *)
Lemma implicant_without_dashes (s : str) :
  isImplicantOf universe w s -> countDashes s = 0 ->
  exists m, In m universe /\ (0 <= m < 2 ^ Z.of_nat w)%Z /\ s = toBinary m w.
Proof.
  intros (Hl & Ha & Hcells) Hd.
  assert (Hbits : Forall isConcrete s).
  { apply Forall_forall. intros c Hc.
    apply (alphabet_concrete s c Ha Hc). intros ->.
    unfold countDashes in Hd. apply length_zero_iff_nil in Hd.
    assert (Hin : In dash (filter (fun ch => Ascii.eqb ch dash) s))
      by (apply filter_In; split; [exact Hc|reflexivity]).
    rewrite Hd in Hin. destruct Hin. }
  destruct (bits_are_a_pattern s w Hw Hl Hbits) as [Hm E].
  exists (binValue s). split; [|split; [exact Hm|now symmetry]].
  apply Hcells; [exact Hm|]. rewrite <- E at 1. apply coveredBy_own_pattern.
Qed.
End Implicants.

(** *** Groups *)

Lemma getOrEmpty_key {V : Type} (g : list (nat * list V)) (k : nat) (x : V) :
  In x (getOrEmpty Nat.eqb g k) -> In k (map fst g).
Proof.
  unfold getOrEmpty. induction g as [|[k' v] g IH]; simpl; [tauto|].
  destruct (Nat.eqb k' k) eqn:E.
  - apply Nat.eqb_eq in E. now left.
  - intros H. right. now apply IH.
Qed.

Lemma getOrEmpty_mapSet_same {V : Type} (g : list (nat * list V)) (k : nat)
    (v : list V) :
  getOrEmpty Nat.eqb (mapSet Nat.eqb g k v) k = v.
Proof. unfold getOrEmpty. now rewrite (mapGet_mapSet_same Nat.eqb Nat.eqb_eq). Qed.

Lemma getOrEmpty_mapSet_other {V : Type} (g : list (nat * list V)) (k k' : nat)
    (v : list V) :
  k <> k' -> getOrEmpty Nat.eqb (mapSet Nat.eqb g k v) k' = getOrEmpty Nat.eqb g k'.
Proof.
  intros H. unfold getOrEmpty. now rewrite (mapGet_mapSet_other Nat.eqb Nat.eqb_eq).
Qed.

(** Adding implicants with [ones] ones to the group [ones] keeps the
    groups in order. *)
Lemma groupedByOnes_mapSet (g : Groups) (ones : nat) (arr' : list Implicant) :
  groupedByOnes g ->
  (forall x, In x (getOrEmpty Nat.eqb g ones) -> In x arr') ->
  (forall x, In x arr' ->
             In x (getOrEmpty Nat.eqb g ones) \/ countOnes (bits x) = ones) ->
  groupedByOnes (mapSet Nat.eqb g ones arr').
Proof.
  intros Hg Hold Hnew.
  assert (Hmem : forall x, In x (members g) ->
            In x (getOrEmpty Nat.eqb (mapSet Nat.eqb g ones arr')
                    (countOnes (bits x)))).
  { intros x Hx. specialize (Hg x Hx).
    destruct (Nat.eq_dec ones (countOnes (bits x))) as [E|E].
    - rewrite <- E in *. rewrite getOrEmpty_mapSet_same. now apply Hold.
    - now rewrite getOrEmpty_mapSet_other. }
  intros x Hx. apply mapSet_members in Hx. destruct Hx as [Hx|Hx]; [|now apply Hmem].
  destruct (Hnew x Hx) as [H|H].
  - apply Hmem. eapply getOrEmpty_members. exact H.
  - rewrite H, getOrEmpty_mapSet_same. exact Hx.
Qed.

Lemma initGroups_grouped (universe : list Z) (w : nat) :
  groupedByOnes (initGroups universe w).
Proof.
  unfold initGroups. apply fold_left_invariant.
  - intros g m _ Hg. apply groupedByOnes_mapSet; [exact Hg| |].
    + intros x Hx. apply in_or_app. now left.
    + intros x Hx. apply in_app_or in Hx. destruct Hx as [Hx|[<-|[]]]; auto.
  - intros x [].
Qed.

Lemma tryCombine_grouped (a b : Implicant) (st : RoundState) :
  groupedByOnes (nextGroups st) -> groupedByOnes (nextGroups (tryCombine a b st)).
Proof.
  intros Hg. unfold tryCombine.
  destruct (combine (bits a) (bits b)) as [[|c cs]|]; [exact Hg| |exact Hg].
  cbn [nextGroups]. apply groupedByOnes_mapSet; [exact Hg| |].
  - intros x Hx. destruct (existsb _ _); [exact Hx|]. apply in_or_app. now left.
  - intros x Hx. destruct (existsb _ _); [now left|].
    apply in_app_or in Hx. destruct Hx as [Hx|[<-|[]]]; [now left|right].
    cbn [bits]. symmetry. apply countOnes_removeDashes.
Qed.

(** What a pair that combines does to the state of a round. *)
Lemma tryCombine_success (a b : Implicant) (st : RoundState) (c : ascii) (cs : str) :
  combine (bits a) (bits b) = Some (c :: cs) ->
  (exists x, In x (members (nextGroups (tryCombine a b st))) /\ bits x = c :: cs) /\
  In (bits a) (taken (tryCombine a b st)) /\
  In (bits b) (taken (tryCombine a b st)) /\
  anyCombined (tryCombine a b st) = true.
Proof.
  intros E. unfold tryCombine. rewrite E. cbn [nextGroups taken anyCombined].
  split; [|split; [|split; [|reflexivity]]].
  - destruct (existsb (sameBits (c :: cs)) _) eqn:Ex.
    + apply existsb_exists in Ex. destruct Ex as (x & Hx & Hb).
      exists x. split; [now apply mapSet_members_new|].
      unfold sameBits in Hb. now apply str_eqb_eq in Hb.
    + eexists. split; [apply mapSet_members_new, in_or_app; right; now left|].
      reflexivity.
  - apply (setAdd_In str_eqb str_eqb_eq). left.
    apply (setAdd_In str_eqb str_eqb_eq). now right.
  - apply (setAdd_In str_eqb str_eqb_eq). now right.
Qed.

(** *** A pair of neighbouring groups is visited *)

Section Reach.
Variables (cur : Groups) (a b : Implicant) (Q : RoundState -> Prop).
Hypothesis Q_mono : forall a' b' st, Q st -> Q (tryCombine a' b' st).
Hypothesis Q_here : forall st, Q (tryCombine a b st).

Lemma inner_mono (a' : Implicant) (gB : list Implicant) (st : RoundState) :
  Q st -> Q (fold_left (fun st b' => tryCombine a' b' st) gB st).
Proof. revert st. apply fold_left_invariant. intros st b' _. apply Q_mono. Qed.

Lemma inner_reach (gB : list Implicant) (st : RoundState) :
  In b gB -> Q (fold_left (fun st b' => tryCombine a b' st) gB st).
Proof.
  intros H. apply in_split in H. destruct H as (l1 & l2 & ->).
  rewrite fold_left_app. cbn [fold_left]. apply inner_mono, Q_here.
Qed.

Lemma combineGroups_mono (gA gB : list Implicant) (st : RoundState) :
  Q st -> Q (combineGroups gA gB st).
Proof.
  unfold combineGroups. revert st. apply fold_left_invariant.
  intros st a' _. apply inner_mono.
Qed.

Lemma combineGroups_reach (gA gB : list Implicant) (st : RoundState) :
  In a gA -> In b gB -> Q (combineGroups gA gB st).
Proof.
  intros HA HB. apply in_split in HA. destruct HA as (l1 & l2 & ->).
  unfold combineGroups. rewrite fold_left_app. cbn [fold_left].
  apply (combineGroups_mono l2 gB). now apply inner_reach.
Qed.

Lemma combineAdjacent_mono (keys : list nat) (st : RoundState) :
  Q st -> Q (combineAdjacent cur keys st).
Proof.
  revert st. induction keys as [|k1 keys IH]; intros st Hst; [exact Hst|].
  destruct keys as [|k2 keys]; [exact Hst|].
  change (Q (combineAdjacent cur (k2 :: keys)
               (combineGroups (getOrEmpty Nat.eqb cur k1)
                              (getOrEmpty Nat.eqb cur k2) st))).
  apply IH. now apply combineGroups_mono.
Qed.

Lemma combineAdjacent_reach (pre post : list nat) (j j' : nat) (st : RoundState) :
  In a (getOrEmpty Nat.eqb cur j) -> In b (getOrEmpty Nat.eqb cur j') ->
  Q (combineAdjacent cur (pre ++ j :: j' :: post) st).
Proof.
  intros HA HB. revert st. induction pre as [|p pre IH]; intros st.
  - change (Q (combineAdjacent cur (j' :: post)
                 (combineGroups (getOrEmpty Nat.eqb cur j)
                                (getOrEmpty Nat.eqb cur j') st))).
    apply combineAdjacent_mono. now apply combineGroups_reach.
  - cbn [app]. destruct (pre ++ j :: j' :: post) as [|k2 rest] eqn:E.
    + destruct pre; discriminate.
    + change (Q (combineAdjacent cur (k2 :: rest)
                   (combineGroups (getOrEmpty Nat.eqb cur p)
                                  (getOrEmpty Nat.eqb cur k2) st))).
      apply IH.
Qed.
End Reach.

(** The sorted keys: two keys that differ by one are neighbours. *)
Lemma insertSorted_sorted_nat (x : nat) (l : list nat) :
  StronglySorted le l -> StronglySorted le (insertSorted Nat.leb x l).
Proof.
  induction 1 as [|y l Hl IH Hy]; simpl.
  - constructor; constructor.
  - destruct (Nat.leb x y) eqn:E.
    + apply Nat.leb_le in E. constructor; [now constructor|].
      constructor; [exact E|]. rewrite Forall_forall in *. intros z Hz.
      specialize (Hy z Hz). lia.
    + apply Nat.leb_gt in E. constructor; [exact IH|].
      rewrite Forall_forall in *. intros z Hz.
      apply insertSorted_In in Hz. destruct Hz as [-> | Hz]; [lia|auto].
Qed.

Lemma sortBy_sorted_nat (l : list nat) : StronglySorted le (sortBy Nat.leb l).
Proof.
  induction l as [|x l IH]; simpl; [constructor|].
  now apply insertSorted_sorted_nat.
Qed.

Lemma neighbours_in_sorted (l : list nat) (j : nat) :
  StronglySorted le l -> In j l -> In (S j) l ->
  exists pre post, l = pre ++ j :: S j :: post.
Proof.
  induction 1 as [|x l Hl IH Hx]; intros Hj HSj; [destruct Hj|].
  rewrite Forall_forall in Hx.
  destruct (Nat.eq_dec x j) as [->|Hne].
  - destruct HSj as [E|HSj]; [lia|].
    destruct l as [|y l']; [destruct HSj|].
    pose proof (Hx y (or_introl eq_refl)) as Hy.
    inversion Hl as [|? ? Hl' Hy']; subst. rewrite Forall_forall in Hy'.
    destruct (Nat.eq_dec y j) as [->|Hyj].
    + destruct (IH (or_introl eq_refl) HSj) as (pre & post & E).
      exists (j :: pre), post. now rewrite E.
    + destruct (Nat.eq_dec y (S j)) as [->|HyS].
      * exists [], l'. reflexivity.
      * exfalso. destruct HSj as [E|HSj]; [lia|]. specialize (Hy' _ HSj). lia.
  - destruct Hj as [E|Hj]; [congruence|].
    destruct HSj as [E|HSj].
    + exfalso. specialize (Hx j Hj). lia.
    + destruct (IH Hj HSj) as (pre & post & E).
      exists (x :: pre), post. now rewrite E.
Qed.

(** *** One turn of the loop *)

Lemma halvesMet_mono (pre post : str) (a b : Implicant) (st : RoundState) :
  halvesMet pre post st -> halvesMet pre post (tryCombine a b st).
Proof.
  intros H. destruct (tryCombine_spec a b st) as [-> | Hs]; [exact H|].
  destruct Hs as (comb & _ & Ht & Hany & Hmono & _).
  destruct H as ((x & Hx & Hb) & H0 & H1 & _).
  split; [|split; [|split]].
  - exists x. split; [now apply Hmono|exact Hb].
  - rewrite Ht. apply (setAdd_In str_eqb str_eqb_eq). left.
    apply (setAdd_In str_eqb str_eqb_eq). now left.
  - rewrite Ht. apply (setAdd_In str_eqb str_eqb_eq). left.
    apply (setAdd_In str_eqb str_eqb_eq). now left.
  - exact Hany.
Qed.

Lemma countOnes_middle (pre post : str) (c : ascii) :
  countOnes (pre ++ c :: post)
  = countOnes pre + (if Ascii.eqb c one then 1 else 0) + countOnes post.
Proof.
  rewrite countOnes_app, countOnes_cons. destruct (Ascii.eqb c one); lia.
Qed.

Section Turn.
Variables (universe : list Z) (w : nat).
Hypothesis Hw : 0 < w.
Variables (cur : Groups) (k : nat).
Hypothesis Hcur : holdsImplicantsWith universe w k cur.

(** The patterns made in this turn are implicants with one more dash. *)
Lemma turn_makes_implicants (x : Implicant) :
  In x (members (nextGroups (runRound cur))) ->
  isImplicantOf universe w (bits x) /\ countDashes (bits x) = S k.
Proof.
  destruct Hcur as (Hsound & _ & _). revert x.
  apply (runRound_invariant cur
           (fun st => forall x, In x (members (nextGroups st)) ->
              isImplicantOf universe w (bits x) /\ countDashes (bits x) = S k)).
  - intros x [].
  - intros a b st Ha Hb Hst x Hx.
    destruct (tryCombine_spec a b st) as [E | Hs]; [rewrite E in Hx; auto|].
    destruct Hs as (comb & Hc & _ & _ & _ & _ & Hnew).
    destruct (Hnew x Hx) as [Hold | Hbits]; [auto|]. rewrite Hbits.
    destruct (Hsound a Ha) as [Hia Hda]. destruct (Hsound b Hb) as [Hib _].
    split; [exact (implicant_combine universe w Hw _ _ _ Hia Hib Hc)|].
    rewrite (combine_dashes _ _ _ Hc). now rewrite Hda.
Qed.

(** A pattern is taken in this turn only when one of its concrete bits can
    be replaced by a dash. *)
Lemma turn_takes_the_covered (t : str) :
  In t (taken (runRound cur)) ->
  exists i c, nth_error t i = Some c /\ c <> dash /\
              isImplicantOf universe w (setChar t i dash).
Proof.
  destruct Hcur as (Hsound & _ & _). revert t.
  apply (runRound_invariant cur
           (fun st => forall t, In t (taken st) ->
              exists i c, nth_error t i = Some c /\ c <> dash /\
                          isImplicantOf universe w (setChar t i dash))).
  - intros t [].
  - intros a b st Ha Hb Hst t Ht.
    destruct (tryCombine_spec a b st) as [E | Hs]; [rewrite E in Ht; auto|].
    destruct Hs as (comb & Hc & Htk & _).
    rewrite Htk in Ht.
    apply (setAdd_In str_eqb str_eqb_eq) in Ht. destruct Ht as [Ht|Ht].
    1: apply (setAdd_In str_eqb str_eqb_eq) in Ht; destruct Ht as [Ht|Ht];
         [now apply Hst|].
    all: destruct (Hsound a Ha) as [Hia _]; destruct (Hsound b Hb) as [Hib _];
      pose proof (implicant_combine universe w Hw _ _ _ Hia Hib Hc) as Hic;
      destruct Hia as (Hla & _); destruct Hib as (Hlb & _);
      destruct (combine_split _ _ _ (eq_trans Hla (eq_sym Hlb)) Hc)
        as (pre & ca & cb & post & Ea & Eb & Ec & _ & Hca & Hcb);
      subst t; exists (length pre).
    + exists ca. rewrite Ea. split; [|split; [exact Hca|]].
      * rewrite nth_error_app2, Nat.sub_diag by lia. reflexivity.
      * rewrite setChar_middle, <- Ec. exact Hic.
    + exists cb. rewrite Eb. split; [|split; [exact Hcb|]].
      * rewrite nth_error_app2, Nat.sub_diag by lia. reflexivity.
      * rewrite setChar_middle, <- Ec. exact Hic.
Qed.

Lemma turn_keeps_groups : groupedByOnes (nextGroups (runRound cur)).
Proof.
  apply (runRound_invariant cur (fun st => groupedByOnes (nextGroups st))).
  - intros x [].
  - intros a b st _ _. apply tryCombine_grouped.
Qed.

(** The two halves of an implicant with one more dash meet in this turn. *)
Lemma turn_joins_halves (pre post : str) :
  isImplicantOf universe w (pre ++ dash :: post) ->
  countDashes (pre ++ dash :: post) = S k ->
  halvesMet pre post (runRound cur).
Proof.
  intros Himp Hd. destruct Hcur as (_ & Hall & Hgrp).
  assert (Hhalf : forall z, isConcrete z ->
            exists x, In x (members cur) /\ bits x = pre ++ z :: post).
  { intros z Hz. apply Hall.
    - now apply implicant_halves.
    - rewrite countDashes_middle in *.
      change (Ascii.eqb dash dash) with true in Hd.
      replace (Ascii.eqb z dash) with false
        by (destruct Hz as [-> | ->]; reflexivity).
      cbv iota in Hd |- *. lia. }
  destruct (Hhalf zero (or_introl eq_refl)) as (xa & Hxa & Ea).
  destruct (Hhalf one (or_intror eq_refl)) as (xb & Hxb & Eb).
  pose proof (Hgrp xa Hxa) as Hga. pose proof (Hgrp xb Hxb) as Hgb.
  rewrite Ea in Hga. rewrite Eb in Hgb. rewrite countOnes_middle in Hga, Hgb.
  change (Ascii.eqb zero one) with false in Hga.
  change (Ascii.eqb one one) with true in Hgb. cbv iota in Hga, Hgb.
  set (j := countOnes pre + 0 + countOnes post) in *.
  replace (countOnes pre + 1 + countOnes post) with (S j) in Hgb by (unfold j; lia).
  destruct (neighbours_in_sorted (sortBy Nat.leb (map fst cur)) j
              (sortBy_sorted_nat _)) as (kpre & kpost & Ekeys).
  { apply sortBy_In. eapply getOrEmpty_key. exact Hga. }
  { apply sortBy_In. eapply getOrEmpty_key. exact Hgb. }
  unfold runRound. rewrite Ekeys.
  apply (combineAdjacent_reach cur xa xb (halvesMet pre post)).
  - intros a' b' st. apply halvesMet_mono.
  - intros st.
    assert (Hc : combine (bits xa) (bits xb) = Some (pre ++ dash :: post)).
    { rewrite Ea, Eb. apply combine_of_split; discriminate. }
    assert (Hne : exists c cs, pre ++ dash :: post = c :: cs)
      by (destruct pre; simpl; eauto).
    destruct Hne as (c & cs & Ecs). rewrite Ecs in Hc.
    destruct (tryCombine_success xa xb st c cs Hc) as (Hx & H0 & H1 & Hany).
    unfold halvesMet. rewrite Ecs, <- Ea, <- Eb. auto.
  - exact Hga.
  - exact Hgb.
Qed.

(** The next turn starts from the implicants with one more dash. *)
Lemma turn_hands_over :
  holdsImplicantsWith universe w (S k) (nextGroups (runRound cur)).
Proof.
  split; [exact turn_makes_implicants|]. split; [|exact turn_keeps_groups].
  intros s Hs Hd.
  assert (Hpos : 0 < countDashes s) by lia.
  destruct (has_dash s Hpos) as (pre & post & ->).
  destruct (turn_joins_halves pre post Hs Hd) as (Hx & _). exact Hx.
Qed.

(** An implicant of this turn that is not taken is prime. *)
Lemma turn_leaves_primes (x : Implicant) :
  In x (members cur) -> ~ In (bits x) (taken (runRound cur)) ->
  isPrimeImplicantOf universe w (bits x).
Proof.
  intros Hx Hfree. destruct Hcur as (Hsound & _ & _).
  destruct (Hsound x Hx) as [Himp Hd]. split; [exact Himp|].
  intros i c Hnth Hc Hbig. apply Hfree.
  apply nth_error_split in Hnth. destruct Hnth as (pre & post & E & Hi).
  subst i. rewrite E in *. rewrite setChar_middle in Hbig.
  assert (Hd' : countDashes (pre ++ dash :: post) = S k).
  { rewrite countDashes_middle in *.
    replace (Ascii.eqb c dash) with false in Hd
      by (symmetry; now apply Ascii.eqb_neq).
    change (Ascii.eqb dash dash) with true. cbv iota in Hd |- *. lia. }
  destruct (turn_joins_halves pre post Hbig Hd') as (_ & H0 & H1 & _).
  destruct Himp as (_ & Ha & _).
  destruct (alphabet_concrete _ c Ha) as [-> | ->];
    [apply in_elt|exact Hc|exact H0|exact H1].
Qed.

(** A prime implicant with [k] dashes is not taken in this turn. *)
Lemma turn_spares_primes (s : str) :
  isPrimeImplicantOf universe w s -> ~ In s (taken (runRound cur)).
Proof.
  intros [_ Hprime] Ht.
  destruct (turn_takes_the_covered s Ht) as (i & c & Hnth & Hc & Hbig).
  exact (Hprime i c Hnth Hc Hbig).
Qed.

(** While there is an implicant with more dashes the loop goes on. *)
Lemma turn_goes_on (s : str) :
  isImplicantOf universe w s -> k < countDashes s ->
  anyCombined (runRound cur) = true.
Proof.
  intros Hs Hd.
  destruct (implicant_with_fewer_dashes universe w Hw (countDashes s - S k) s (S k)
              Hs ltac:(lia)) as (g & Hg & Hgd).
  assert (Hpos : 0 < countDashes g) by lia.
  destruct (has_dash g Hpos) as (pre & post & ->).
  destruct (turn_joins_halves pre post Hg Hgd) as (_ & _ & _ & Hany). exact Hany.
Qed.
End Turn.

(** *** The whole loop *)

Lemma collectOne_free (tk : list str) (allPrime : list Implicant) (imp x : Implicant) :
  In x (collectOne tk allPrime imp) ->
  In x allPrime \/ (x = imp /\ ~ In (bits x) tk).
Proof.
  unfold collectOne. destruct (setHas str_eqb tk (bits imp)) eqn:E; [now left|].
  apply (setHas_not_In str_eqb str_eqb_eq) in E.
  destruct (existsb (sameBits (bits imp)) allPrime); [now left|].
  intros H. apply in_app_or in H. destruct H as [H|[<-|[]]]; auto.
Qed.

Lemma collectPrimes_free (cur : Groups) (tk : list str) (allPrime : list Implicant)
    (x : Implicant) :
  In x (collectPrimes cur tk allPrime) ->
  In x allPrime \/ (In x (members cur) /\ ~ In (bits x) tk).
Proof.
  unfold collectPrimes.
  apply (fold_left_invariant _
           (fun acc => In x acc ->
                       In x allPrime \/ (In x (members cur) /\ ~ In (bits x) tk))).
  - intros acc [key arr] Hentry Hacc. cbn [snd].
    apply (fold_left_invariant _
             (fun acc => In x acc ->
                In x allPrime \/ (In x (members cur) /\ ~ In (bits x) tk)));
      [|exact Hacc].
    intros acc' imp Himp Hacc' Hx.
    apply collectOne_free in Hx. destruct Hx as [Hx|[-> Hfree]]; [auto|].
    right. split; [|exact Hfree].
    unfold members. apply in_flat_map. exists (key, arr). auto.
  - now left.
Qed.

Section Loop.
Variables (universe : list Z) (w : nat).
Hypothesis Hw : 0 < w.

Lemma combineLoop_primes (fuel : nat) :
  forall (cur : Groups) (allPrime : list Implicant) (r k : nat)
         (res : list Implicant) (n : nat),
    holdsImplicantsWith universe w k cur ->
    (forall x, In x allPrime -> isPrimeImplicantOf universe w (bits x)) ->
    combineLoop fuel cur allPrime r = Some (res, n) ->
    (forall x, In x res -> isPrimeImplicantOf universe w (bits x)) /\
    (forall s, isPrimeImplicantOf universe w s ->
               k <= countDashes s \/ (exists x, In x allPrime /\ bits x = s) ->
               exists x, In x res /\ bits x = s).
Proof.
  induction fuel as [|fuel IH]; intros cur allPrime r k res n Hcur Hall Hrun;
    [discriminate|].
  cbn [combineLoop] in Hrun. cbv zeta in Hrun.
  set (st := runRound cur) in *.
  set (allPrime' := collectPrimes cur (taken st) allPrime) in *.
  assert (Hall' : forall x, In x allPrime' ->
                            isPrimeImplicantOf universe w (bits x)).
  { intros x Hx. apply collectPrimes_free in Hx.
    destruct Hx as [Hx|[Hx Hfree]]; [now apply Hall|].
    exact (turn_leaves_primes universe w Hw cur k Hcur x Hx Hfree). }
  assert (Hhere : forall s, isPrimeImplicantOf universe w s ->
            countDashes s = k \/ (exists x, In x allPrime /\ bits x = s) ->
            exists x, In x allPrime' /\ bits x = s).
  { intros s Hs [Hd|(x & Hx & Hb)].
    - destruct (proj1 (proj2 Hcur) s (proj1 Hs) Hd) as (x & Hx & Hb).
      destruct (collectPrimes_adds cur (taken st) allPrime x Hx) as (y & Hy & Hyb).
      + apply (setHas_not_In str_eqb str_eqb_eq). rewrite Hb.
        exact (turn_spares_primes universe w Hw cur k Hcur s Hs).
      + exists y. split; [exact Hy|congruence].
    - exists x. split; [now apply collectPrimes_mono|exact Hb]. }
  destruct (anyCombined st) eqn:Eany.
  - destruct (IH _ _ _ (S k) _ _
                (turn_hands_over universe w Hw cur k Hcur) Hall' Hrun)
      as [Hsound Hcomplete].
    split; [exact Hsound|]. intros s Hs Hor. apply Hcomplete; [exact Hs|].
    destruct Hor as [Hd|Hin].
    + destruct (Nat.eq_dec (countDashes s) k) as [E|E].
      * right. apply Hhere; auto.
      * left. lia.
    + right. apply Hhere; auto.
  - injection Hrun as <- _. split; [exact Hall'|].
    intros s Hs Hor. apply Hhere; [exact Hs|].
    destruct Hor as [Hd|Hin]; [left|now right].
    destruct (Nat.eq_dec (countDashes s) k) as [E|E]; [exact E|exfalso].
    assert (Hmore : k < countDashes s) by lia.
    pose proof (turn_goes_on universe w Hw cur k Hcur s (proj1 Hs) Hmore) as Hgo.
    fold st in Hgo. congruence.
Qed.

Hypothesis Hrange : forall m, In m universe -> (0 <= m < 2 ^ Z.of_nat w)%Z.

(** The loop starts from the implicants without dashes. *)
Lemma initGroups_holds : holdsImplicantsWith universe w 0 (initGroups universe w).
Proof.
  split; [|split; [|apply initGroups_grouped]].
  - intros x Hx. apply initGroups_members in Hx. destruct Hx as (m & Hm & ->).
    cbn [bits]. pose proof (Hrange m Hm) as Hfit.
    destruct (toBinary_in_range m w Hw Hfit) as [Hl Ha].
    split; [split; [exact Hl|split; [exact Ha|]]|].
    + intros m' Hm' Hcov.
      apply (coveredBy_full_pattern m' m w Hw Hm' Hfit) in Hcov. now subst m'.
    + pose proof (countDashes_concrete (toBinary m w)) as Hsum.
      assert (Hbits : Forall isConcrete (toBinary m w)).
      { unfold toBinary, padStart. apply Forall_app. split.
        - apply Forall_forall. intros c Hc. apply repeat_spec in Hc. now left.
        - now apply toString2_in_range with (w := w). }
      unfold countDashes. apply length_zero_iff_nil.
      destruct (filter _ (toBinary m w)) as [|c l] eqn:E; [reflexivity|exfalso].
      assert (Hin : In c (filter (fun ch => Ascii.eqb ch dash) (toBinary m w)))
        by (rewrite E; now left).
      apply filter_In in Hin. destruct Hin as [Hin Hc]. apply Ascii.eqb_eq in Hc.
      rewrite Forall_forall in Hbits. specialize (Hbits c Hin).
      now apply dash_not_concrete in Hbits.
  - intros s Hs Hd.
    destruct (implicant_without_dashes universe w Hw s Hs Hd) as (m & Hm & _ & ->).
    exists {| bits := toBinary m w; covered := [m] |}. split; [|reflexivity].
    apply initGroups_members. eauto.
Qed.

(** What the generator returns: prime implicants, and all of them. *)
Lemma generate_primes (allPrime : list Implicant) (rounds : nat) :
  generate universe w = Some (allPrime, rounds) ->
  forall s, (exists x, In x allPrime /\ bits x = s) <->
            isPrimeImplicantOf universe w s.
Proof.
  unfold generate. intros Hrun s.
  destruct (combineLoop_primes _ _ _ _ 0 _ _ initGroups_holds
              (fun x (H : In x []) => match H with end) Hrun)
    as [Hsound Hcomplete].
  split.
  - intros (x & Hx & <-). now apply Hsound.
  - intros Hs. apply Hcomplete; [exact Hs|]. left. lia.
Qed.
End Loop.

Lemma isImplicantOf_same_cells (u u' : list Z) (w : nat) (s : str) :
  (forall m, In m u <-> In m u') -> isImplicantOf u w s -> isImplicantOf u' w s.
Proof.
  intros Hsame (Hl & Ha & Hcells). split; [exact Hl|split; [exact Ha|]].
  intros m Hm Hcov. apply Hsame. now apply Hcells.
Qed.

Lemma isPrimeImplicantOf_same_cells (u u' : list Z) (w : nat) (s : str) :
  (forall m, In m u <-> In m u') ->
  isPrimeImplicantOf u w s -> isPrimeImplicantOf u' w s.
Proof.
  intros Hsame [Himp Hprime]. split.
  - exact (isImplicantOf_same_cells u u' w s Hsame Himp).
  - intros i c Hnth Hc Hbig. apply (Hprime i c Hnth Hc).
    apply (isImplicantOf_same_cells u' u w _); [|exact Hbig].
    intros m. symmetry. apply Hsame.
Qed.

(** The patterns of [primeImplicants] of a call in range. *)
Lemma primeImplicants_spec (opts : SolveOptions) (r : SolveResult) (s : str) :
  (2 <= numInputs opts <= 6)%Z -> inRange opts ->
  minimizeKMapJS opts = Returned r ->
  ((exists p, In p (primeImplicants r) /\ bits p = s) <->
   isPrimeImplicantOf (minterms opts ++ givenDontCares opts)
                      (Z.to_nat (numInputs opts)) s).
Proof.
  intros Hn Hrange Hr.
  destruct (minimizeKMapJS_Returned opts r Hr)
    as (_ & allPrime & rounds & cm & Hgen & _ & _ & _ & Hpr & _).
  cbn zeta in *. rewrite Hpr.
  set (w := Z.to_nat (numInputs opts)) in *.
  assert (Hw : 0 < w) by (unfold w; lia).
  assert (Hfit : forall m, In m (universeOf opts) -> (0 <= m < 2 ^ Z.of_nat w)%Z).
  { intros m Hm. pose proof (universe_in_range opts m Hrange Hm) as H.
    unfold fitsIn in H. unfold w. rewrite Z2Nat.id by lia. exact H. }
  pose proof (generate_primes (universeOf opts) w Hw Hfit allPrime rounds Hgen s)
    as Hprimes.
  assert (Hcells : forall m, In m (universeOf opts) <->
                             In m (minterms opts ++ givenDontCares opts)).
  { intros m. rewrite universeOf_In, in_app_iff. tauto. }
  split.
  - intros (p & Hp & Hb).
    apply (isPrimeImplicantOf_same_cells (universeOf opts) _ w s Hcells).
    apply Hprimes. destruct (primeChart_bits _ _ _ _ Hp) as (x & Hx & Hxb).
    exists x. split; [exact Hx|congruence].
  - intros Hs.
    apply (isPrimeImplicantOf_same_cells _ (universeOf opts) w s) in Hs;
      [|intros m; symmetry; apply Hcells].
    apply Hprimes in Hs. destruct Hs as (x & Hx & Hb).
    destruct (uniqueByBits_keeps allPrime x Hx) as (y & Hy & Hyb).
    exists {| bits := bits y;
              covered := expandCoverage (bits y) (mintermsOf opts) w |}.
    split; [|cbn [bits]; congruence].
    apply primeChart_In. exists y. split; [exact Hy|reflexivity].
Qed.

(** X18. With a number of inputs between 2 and 6 and minterms and
    don't-cares in [0, 2^numInputs), the patterns of [primeImplicants] are
    exactly the prime implicants of the function: the patterns of
    [numInputs] characters over 0, 1, - that match only minterms and
    don't-cares and in which no 0 or 1 can be replaced by '-' without
    matching another cell.  None is missing and none is not prime. *)
Theorem primeImplicants_are_the_prime_implicants (opts : SolveOptions) :
  (2 <= numInputs opts <= 6)%Z -> inRange opts ->
  exists r,
    minimizeKMapJS opts = Returned r /\
    forall s, (exists p, In p (primeImplicants r) /\ bits p = s) <->
              isPrimeImplicantOf (minterms opts ++ givenDontCares opts)
                                 (Z.to_nat (numInputs opts)) s.
Proof.
  intros Hn Hrange. destruct (minimizeKMapJS_returns opts Hn) as (r & Hr).
  exists r. split; [exact Hr|]. intros s.
  exact (primeImplicants_spec opts r s Hn Hrange Hr).
Qed.

Lemma primeImplicants_are_the_prime_implicants_witness :
  (2 <= numInputs dontCareExample <= 6)%Z /\ inRange dontCareExample /\
  exists r,
    minimizeKMapJS dontCareExample = Returned r /\
    forall p, In p (primeImplicants r) ->
              isPrimeImplicantOf
                (minterms dontCareExample ++ givenDontCares dontCareExample)
                (Z.to_nat (numInputs dontCareExample)) (bits p).
Proof.
  assert (H : (2 <= numInputs dontCareExample <= 6)%Z) by (simpl; lia).
  split; [exact H|]. split; [exact dontCareExample_in_range|].
  destruct (primeImplicants_are_the_prime_implicants dontCareExample H
              dontCareExample_in_range) as (r & Hr & Hiff).
  exists r. split; [exact Hr|]. intros p Hp.
  exact (proj1 (Hiff (bits p)) (ex_intro _ p (conj Hp eq_refl))).
Defined.

(** ** No sum of products has fewer terms *)

Lemma cells_decided (P : Z -> Prop) (n : nat) :
  (forall m, P m \/ ~ P m) ->
  (forall m, (0 <= m < Z.of_nat n)%Z -> P m) \/
  (exists m, (0 <= m < Z.of_nat n)%Z /\ ~ P m).
Proof.
  intros Hdec. induction n as [|n [IH|(m & Hm & Hn)]].
  - left. lia.
  - destruct (Hdec (Z.of_nat n)) as [H|H].
    + left. intros m Hm. destruct (Z.eq_dec m (Z.of_nat n)) as [->|E]; [exact H|].
      apply IH. lia.
    + right. exists (Z.of_nat n). split; [lia|exact H].
  - right. exists m. split; [lia|exact Hn].
Qed.

Lemma position_decided (P : nat -> Prop) (n : nat) :
  (forall i, P i \/ ~ P i) ->
  (exists i, i < n /\ P i) \/ (forall i, i < n -> ~ P i).
Proof.
  intros Hdec. induction n as [|n [(i & Hi & Hp)|IH]].
  - right. lia.
  - left. exists i. split; [lia|exact Hp].
  - destruct (Hdec n) as [H|H].
    + left. exists n. split; [lia|exact H].
    + right. intros i Hi. destruct (Nat.eq_dec i n) as [->|E]; [exact H|].
      apply IH. lia.
Qed.

Lemma isImplicantOf_decided (universe : list Z) (w : nat) (s : str) :
  isImplicantOf universe w s \/ ~ isImplicantOf universe w s.
Proof.
  unfold isImplicantOf.
  destruct (Nat.eq_dec (length s) w) as [Hl|Hl]; [|right; tauto].
  assert (Ha : overAlphabet s \/ ~ overAlphabet s).
  { unfold overAlphabet.
    destruct (Forall_dec (fun c => c = zero \/ c = one \/ c = dash)) with (l := s)
      as [H|H]; [|now left|now right].
    intros c. destruct (ascii_dec c zero); [left; tauto|].
    destruct (ascii_dec c one); [left; tauto|].
    destruct (ascii_dec c dash); [left; tauto|right; tauto]. }
  destruct Ha as [Ha|Ha]; [|right; tauto].
  destruct (cells_decided (fun m => coveredBy s m w = true -> In m universe) (2 ^ w))
    as [H|(m & Hm & Hn)].
  - intros m. destruct (coveredBy s m w); [|left; discriminate].
    destruct (in_dec Z.eq_dec m universe); [left; auto|right; auto].
  - left. split; [exact Hl|split; [exact Ha|]]. intros m Hm. apply H.
    rewrite Nat2Z.inj_pow. exact Hm.
  - right. intros (_ & _ & Hcells). apply Hn. apply Hcells.
    rewrite Nat2Z.inj_pow in Hm. exact Hm.
Qed.

Lemma countConcrete_middle (pre post : str) (c : ascii) :
  c <> dash -> countConcrete (pre ++ c :: post) = S (countConcrete (pre ++ dash :: post)).
Proof.
  intros Hc. pose proof (countDashes_concrete (pre ++ c :: post)) as H1.
  pose proof (countDashes_concrete (pre ++ dash :: post)) as H2.
  rewrite !countDashes_middle, !length_app in *. cbn [length] in *.
  replace (Ascii.eqb c dash) with false in H1 by (symmetry; now apply Ascii.eqb_neq).
  change (Ascii.eqb dash dash) with true in H2. cbv iota in H1, H2. lia.
Qed.

Section UnderPrime.
Variables (universe : list Z) (w : nat).
Hypothesis Hw : 0 < w.

(** Every implicant lies under a prime implicant. *)
Lemma implicant_under_prime (n : nat) :
  forall s, countConcrete s < n -> isImplicantOf universe w s ->
    exists p, isPrimeImplicantOf universe w p /\
              forall m, coveredBy s m w = true -> coveredBy p m w = true.
Proof.
  induction n as [|n IH]; intros s Hn Hs; [lia|].
  destruct (position_decided
              (fun i => exists c, nth_error s i = Some c /\ c <> dash /\
                                  isImplicantOf universe w (setChar s i dash))
              (length s)) as [(i & _ & c & Hnth & Hc & Hbig)|Hnone].
  - intros i. destruct (nth_error s i) as [c|] eqn:E.
    + destruct (ascii_dec c dash) as [->|Hc].
      * right. intros (c & Ec & Hc & _). congruence.
      * destruct (isImplicantOf_decided universe w (setChar s i dash)) as [H|H].
        -- left. exists c. auto.
        -- right. intros (c' & _ & _ & H'). contradiction.
    + right. intros (c & Ec & _). discriminate.
  - apply nth_error_split in Hnth. destruct Hnth as (pre & post & -> & <-).
    rewrite setChar_middle in Hbig.
    destruct (IH (pre ++ dash :: post)) as (p & Hp & Hcov); [|exact Hbig|].
    + rewrite (countConcrete_middle pre post c Hc) in Hn. lia.
    + exists p. split; [exact Hp|]. intros m Hm. apply Hcov.
      destruct Hs as (Hl & Ha & _).
      assert (Hcc : isConcrete c)
        by (apply (alphabet_concrete _ c Ha); [apply in_elt|exact Hc]).
      assert (Hother : exists z', isConcrete z' /\ c <> z').
      { destruct Hcc as [-> | ->]; [exists one|exists zero]; split;
          try (now left); try (now right); discriminate. }
      destruct Hother as (z' & Hz' & Hne).
      apply (coveredBy_combine (pre ++ c :: post) (pre ++ z' :: post)).
      * apply combine_of_split; [exact Hne|exact Hc|now apply dash_not_concrete].
      * lia.
      * now left.
  - exists s. split; [|auto]. split; [exact Hs|].
    intros i c Hnth Hc Hbig. apply (Hnone i).
    + apply nth_error_Some. congruence.
    + exists c. auto.
Qed.
End UnderPrime.

Section Fewest.
Variables (opts : SolveOptions) (r : SolveResult).
Hypothesis Hn : (2 <= numInputs opts <= 6)%Z.
Hypothesis Hrange : inRange opts.
Hypothesis Hrun : minimizeKMapJS opts = Returned r.

(** Each pattern of a list of implicants lies under a returned prime
    implicant: one index per pattern. *)
Lemma cover_to_indices (cover : list str) :
  (forall s, In s cover ->
     isImplicantOf (minterms opts ++ givenDontCares opts)
                   (Z.to_nat (numInputs opts)) s) ->
  exists idxs,
    length idxs = length cover /\
    forall s, In s cover ->
      exists i p, In i idxs /\ nth_error (primeImplicants r) i = Some p /\
        forall m, coveredBy s m (Z.to_nat (numInputs opts)) = true ->
                  coveredBy (bits p) m (Z.to_nat (numInputs opts)) = true.
Proof.
  induction cover as [|s cover IH]; intros Himp.
  - exists []. split; [reflexivity|intros s []].
  - destruct IH as (idxs & Hlen & Hidx); [intros t Ht; apply Himp; now right|].
    assert (Hw : 0 < Z.to_nat (numInputs opts)) by lia.
    destruct (implicant_under_prime _ _ Hw (S (countConcrete s)) s
                (Nat.lt_succ_diag_r _) (Himp s (or_introl eq_refl)))
      as (q & Hq & Hcov).
    apply (primeImplicants_spec opts r q Hn Hrange Hrun) in Hq.
    destruct Hq as (p & Hp & Hb).
    destruct (In_nth_error _ _ Hp) as (i & Hi).
    exists (i :: idxs). split; [simpl; now rewrite Hlen|].
    intros t [<-|Ht].
    + exists i, p. split; [now left|]. split; [exact Hi|].
      rewrite Hb. exact Hcov.
    + destruct (Hidx t Ht) as (j & p' & Hj & Hnth & Hc).
      exists j, p'. split; [now right|]. split; [exact Hnth|exact Hc].
Qed.

Lemma selection_not_longer_than_implicants (cover : list str) :
  (forall s, In s cover ->
     isImplicantOf (minterms opts ++ givenDontCares opts)
                   (Z.to_nat (numInputs opts)) s) ->
  (forall m, In m (minterms opts) ->
     exists s, In s cover /\ coveredBy s m (Z.to_nat (numInputs opts)) = true) ->
  length (selectedImplicants r) <= length cover.
Proof.
  intros Himp Hcov.
  destruct (cover_to_indices cover Himp) as (idxs & Hlen & Hidx).
  rewrite <- Hlen. apply (selection_not_longer_than_cover opts r idxs Hrun).
  intros m Hm. destruct (Hcov m Hm) as (s & Hs & Hsm).
  destruct (Hidx s Hs) as (i & p & Hi & Hnth & Hc).
  exists i, p. split; [exact Hi|]. split; [exact Hnth|].
  apply (prime_covered_spec opts r Hrun p m); [eapply nth_error_In; exact Hnth|].
  split; [now apply sortedSetZ_In|now apply Hc].
Qed.
End Fewest.

(** X19. With a number of inputs between 2 and 6 and minterms and
    don't-cares in [0, 2^numInputs), no sum of products for the function has
    fewer terms than the selection: any list of patterns that match only
    minterms and don't-cares, prime or not, and between them match every
    minterm, is at least as long as [selectedImplicants]. *)
Theorem selection_has_the_fewest_terms (opts : SolveOptions) :
  (2 <= numInputs opts <= 6)%Z -> inRange opts ->
  exists r,
    minimizeKMapJS opts = Returned r /\
    forall cover : list str,
      (forall s, In s cover ->
         isImplicantOf (minterms opts ++ givenDontCares opts)
                       (Z.to_nat (numInputs opts)) s) ->
      (forall m, In m (minterms opts) ->
         exists s, In s cover /\
                   coveredBy s m (Z.to_nat (numInputs opts)) = true) ->
      length (selectedImplicants r) <= length cover.
Proof.
  intros Hn Hrange. destruct (minimizeKMapJS_returns opts Hn) as (r & Hr).
  exists r. split; [exact Hr|].
  exact (selection_not_longer_than_implicants opts r Hn Hrange Hr).
Qed.

Lemma selection_has_the_fewest_terms_witness :
  (2 <= numInputs dontCareExample <= 6)%Z /\ inRange dontCareExample /\
  exists r,
    minimizeKMapJS dontCareExample = Returned r /\
    forall cover : list str,
      (forall s, In s cover ->
         isImplicantOf (minterms dontCareExample ++ givenDontCares dontCareExample)
                       (Z.to_nat (numInputs dontCareExample)) s) ->
      (forall m, In m (minterms dontCareExample) ->
         exists s, In s cover /\
                   coveredBy s m (Z.to_nat (numInputs dontCareExample)) = true) ->
      length (selectedImplicants r) <= length cover.
Proof.
  assert (H : (2 <= numInputs dontCareExample <= 6)%Z) by (simpl; lia).
  split; [exact H|]. split; [exact dontCareExample_in_range|].
  exact (selection_has_the_fewest_terms dontCareExample H dontCareExample_in_range).
Defined.

(** ** The chart and the essential prime implicants *)









(** ** Negative minterms *)

(** The pattern of a negative number holds its sign, the character '-'. *)
Lemma toBinary_negative (m : Z) (w : nat) :
  (m < 0)%Z ->
  nth_error (toBinary m w) (w - length (toString2 m)) = Some dash.
Proof.
  intros Hm. destruct m as [|p|p]; try lia.
  unfold toBinary, padStart.
  rewrite nth_error_app2 by (rewrite repeat_length; lia).
  rewrite repeat_length, Nat.sub_diag. reflexivity.
Qed.

Lemma sign_position (m : Z) (w : nat) :
  0 < w -> (m < 0)%Z -> w - length (toString2 m) < w.
Proof.
  intros Hw Hm. destruct m as [|p|p]; try lia. cbn [toString2 length]. lia.
Qed.

(** X21. For a number of inputs between 2 and 6: a negative minterm is not
    refused.  Its minus sign becomes a character of its pattern, so it is
    listed in the [covered] array of a selected implicant, and every
    returned prime implicant that lists it has '-', which renders as no
    literal at all, at the position of the sign. *)
Theorem negative_minterm_is_read_through_its_sign (opts : SolveOptions) (m : Z) :
  (2 <= numInputs opts <= 6)%Z -> In m (minterms opts) -> (m < 0)%Z ->
  exists r,
    minimizeKMapJS opts = Returned r /\
    (exists p, In p (selectedImplicants r) /\ In m (covered p)) /\
    forall p, In p (primeImplicants r) -> In m (covered p) ->
      nth_error (bits p)
                (Z.to_nat (numInputs opts) - length (toString2 m)) = Some dash.
Proof.
  intros Hn Hin Hm. destruct (minimizeKMapJS_returns opts Hn) as (r & Hr).
  exists r. split; [exact Hr|]. split.
  - apply (selected_covers_minterm opts r Hr). now apply sortedSetZ_In.
  - intros p Hp Hcov.
    apply (prime_covered_spec opts r Hr p m Hp) in Hcov. destruct Hcov as [_ Hcov].
    rewrite coveredBy_forall in Hcov.
    set (w := Z.to_nat (numInputs opts)) in *.
    assert (Hw : 0 < w) by (unfold w; lia).
    destruct (Hcov _ (sign_position m w Hw Hm)) as [H|H]; [exact H|].
    unfold charAt in H. now rewrite toBinary_negative in H.
Qed.

Lemma negative_minterm_is_read_through_its_sign_witness :
  (2 <= numInputs negativeExample <= 6)%Z /\
  In (-1)%Z (minterms negativeExample) /\ (-1 < 0)%Z /\
  exists r,
    minimizeKMapJS negativeExample = Returned r /\
    exists p, In p (selectedImplicants r) /\ In (-1)%Z (covered p).
Proof.
  assert (H : (2 <= numInputs negativeExample <= 6)%Z) by (simpl; lia).
  assert (Hin : In (-1)%Z (minterms negativeExample)) by (now left).
  assert (Hneg : (-1 < 0)%Z) by lia.
  split; [exact H|]. split; [exact Hin|]. split; [exact Hneg|].
  destruct (negative_minterm_is_read_through_its_sign negativeExample (-1)%Z
              H Hin Hneg) as (r & Hr & Hsel & _).
  exists r. split; [exact Hr|exact Hsel].
Defined.

(** With three inputs the minterm -1 gives the term A'C, which stands for
    the cells 1 and 3. *)
Example negative_minterm_scenario :
  exists r,
    minimizeKMapJS negativeExample = Returned r /\
    map bits (selectedImplicants r) = [lit "0-1"] /\
    expression r = lit "A'C" /\
    coveredBy (lit "0-1") 1 3 = true /\ coveredBy (lit "0-1") 3 3 = true.
Proof. eexists. split; [vm_compute; reflexivity|]. repeat split. Qed.

(** ** The function that is true everywhere *)

Lemma render_loop_skips_dashes {X : Type} (bs : str) (f g : nat -> X) (l : list nat) :
  forall out : list X,
    (forall i, In i l -> charAt bs i = Some dash) ->
    fold_left
      (fun (out : list X) i =>
         match charAt bs i with
         | Some ch =>
             if Ascii.eqb ch dash then out
             else if Ascii.eqb ch one then out ++ [f i] else out ++ [g i]
         | None => out ++ [g i]
         end) l out = out.
Proof.
  induction l as [|i l IH]; intros out H; simpl; [reflexivity|].
  rewrite (H i (or_introl eq_refl)). change (Ascii.eqb dash dash) with true.
  cbv iota. apply IH. intros j Hj. apply H. now right.
Qed.

Lemma charAt_all_dashes (w i : nat) :
  i < w -> charAt (repeat dash w) i = Some dash.
Proof.
  intros Hi. unfold charAt.
  destruct (nth_error (repeat dash w) i) as [c|] eqn:E.
  - apply nth_error_In, repeat_spec in E. now subst.
  - apply nth_error_None in E. rewrite repeat_length in E. lia.
Qed.

(** A pattern of dashes renders as the constant 1. *)
Lemma format_all_dashes (w : nat) (vars : list str) :
  formatImplicant (repeat dash w) vars = lit "1" /\
  formatImplicantLatex (repeat dash w) vars = lit "1".
Proof.
  unfold formatImplicant, formatImplicantLatex.
  rewrite !render_loop_skips_dashes; [split; reflexivity| |];
    intros i Hi; apply in_seq in Hi; rewrite repeat_length in Hi;
    apply charAt_all_dashes; lia.
Qed.

Lemma lookupAll_valid (primes : list Implicant) (indices : list nat) :
  forall ps, lookupAll primes indices = Some ps ->
             forall i, In i indices -> i < length primes.
Proof.
  induction indices as [|j indices IH]; intros ps H i Hi; [destruct Hi|].
  simpl in H. destruct (nth_error primes j) as [q|] eqn:Eq; [|discriminate].
  destruct (lookupAll primes indices) as [qs|] eqn:Eqs; [|discriminate].
  destruct Hi as [<-|Hi].
  - apply nth_error_Some. congruence.
  - now apply (IH qs).
Qed.

Section FullMap.
Variables (opts : SolveOptions) (r : SolveResult).
Hypothesis Hn : (2 <= numInputs opts <= 6)%Z.
Hypothesis Hrange : inRange opts.
Hypothesis Hrun : minimizeKMapJS opts = Returned r.
Hypothesis Hfull :
  forall m, fitsIn (numInputs opts) m ->
            In m (minterms opts) \/ In m (givenDontCares opts).

(** Every pattern is an implicant of the function that is true or free
    everywhere. *)
Lemma full_implicant (s : str) :
  length s = Z.to_nat (numInputs opts) -> overAlphabet s ->
  isImplicantOf (minterms opts ++ givenDontCares opts)
                (Z.to_nat (numInputs opts)) s.
Proof.
  intros Hl Ha. split; [exact Hl|split; [exact Ha|]].
  intros m Hm _. apply in_or_app, Hfull. unfold fitsIn.
  rewrite Z2Nat.id in Hm by lia. exact Hm.
Qed.

(** Its only prime implicant is the pattern of dashes. *)
Lemma full_prime (s : str) :
  isPrimeImplicantOf (minterms opts ++ givenDontCares opts)
                     (Z.to_nat (numInputs opts)) s <->
  s = repeat dash (Z.to_nat (numInputs opts)).
Proof.
  split.
  - intros [(Hl & Ha & _) Hprime]. rewrite <- Hl. apply Forall_eq_repeat.
    apply Forall_forall. intros c Hc.
    destruct (ascii_dec dash c) as [E|E]; [exact E|exfalso].
    destruct (In_nth_error _ _ Hc) as (i & Hi).
    apply (Hprime i c Hi); [congruence|].
    apply nth_error_split in Hi. destruct Hi as (pre & post & -> & <-).
    rewrite setChar_middle. apply full_implicant.
    + rewrite <- Hl, !length_app. reflexivity.
    + eapply overAlphabet_middle; [exact Ha|auto].
  - intros ->. split.
    + apply full_implicant; [apply repeat_length|].
      apply Forall_forall. intros c Hc. apply repeat_spec in Hc. auto.
    + intros i c Hi Hc. apply nth_error_In, repeat_spec in Hi. contradiction.
Qed.

Lemma full_map_primes :
  exists p, primeImplicants r = [p] /\
            bits p = repeat dash (Z.to_nat (numInputs opts)).
Proof.
  assert (Hall : forall p, In p (primeImplicants r) ->
                           bits p = repeat dash (Z.to_nat (numInputs opts))).
  { intros p Hp. apply full_prime.
    apply (primeImplicants_spec opts r (bits p) Hn Hrange Hrun). now exists p. }
  assert (Hsome : exists p, In p (primeImplicants r) /\
                            bits p = repeat dash (Z.to_nat (numInputs opts))).
  { apply (primeImplicants_spec opts r _ Hn Hrange Hrun). now apply full_prime. }
  assert (Hnd : NoDup (map bits (primeImplicants r))).
  { destruct (minimizeKMapJS_Returned opts r Hrun)
      as (_ & allPrime & rounds & cm & _ & _ & _ & _ & Hpr & _).
    cbn zeta in Hpr. rewrite Hpr, primeChart_bits_map. apply uniqueByBits_NoDup. }
  destruct (primeImplicants r) as [|p0 [|p1 rest]].
  - destruct Hsome as (p & [] & _).
  - exists p0. split; [reflexivity|]. apply Hall. now left.
  - exfalso. inversion Hnd as [|? ? Hfresh _]; subst. apply Hfresh.
    left. rewrite (Hall p0), (Hall p1); [reflexivity|right; now left|now left].
Qed.

Lemma full_map_selection :
  minterms opts <> [] ->
  exists p, selectedImplicants r = [p] /\
            bits p = repeat dash (Z.to_nat (numInputs opts)).
Proof.
  intros Hne. destruct full_map_primes as (p & Hprimes & Hbits).
  exists p. split; [|exact Hbits].
  assert (Hin : forall q, In q (selectedImplicants r) -> q = p).
  { intros q Hq. apply (selected_are_primes opts r Hrun) in Hq.
    rewrite Hprimes in Hq. destruct Hq as [<-|[]]. reflexivity. }
  assert (Hlen : length (selectedImplicants r) <= 1).
  { destruct (minimizeKMapJS_Returned opts r Hrun)
      as (_ & allPrime & rounds & cm & _ & _ & Hsel & _ & Hpr & _).
    cbn zeta in Hsel, Hpr. rewrite <- Hpr, Hprimes in Hsel.
    rewrite (lookupAll_length _ _ _ Hsel).
    match type of Hsel with lookupAll _ ?idx = _ =>
      assert (Hnd : NoDup idx)
        by (apply strict_sorted_NoDup, sortBy_strict_nat, chosenOf_NoDup);
      apply (NoDup_incl_length Hnd (l' := [0]))
    end.
    intros i Hi. apply (lookupAll_valid _ _ _ Hsel) in Hi. simpl in Hi.
    left. lia. }
  destruct (minterms opts) as [|m ms] eqn:Em; [contradiction|].
  destruct (selected_covers_minterm opts r Hrun m) as (q & Hq & _).
  { apply sortedSetZ_In. rewrite Em. now left. }
  destruct (selectedImplicants r) as [|q0 [|q1 rest]].
  - destruct Hq.
  - f_equal. apply Hin. now left.
  - simpl in Hlen. lia.
Qed.
End FullMap.

(** X22. With a number of inputs between 2 and 6, at least one minterm,
    all minterms and don't-cares in [0, 2^numInputs) and every cell of the
    map among them, the only prime implicant is the pattern of dashes, it is
    the selection, and the expression is the constant 1. *)
Theorem full_map_gives_the_constant_one (opts : SolveOptions) :
  (2 <= numInputs opts <= 6)%Z -> inRange opts -> minterms opts <> [] ->
  (forall m, fitsIn (numInputs opts) m ->
             In m (minterms opts) \/ In m (givenDontCares opts)) ->
  exists r,
    minimizeKMapJS opts = Returned r /\
    map bits (primeImplicants r) = [repeat dash (Z.to_nat (numInputs opts))] /\
    map bits (selectedImplicants r) = [repeat dash (Z.to_nat (numInputs opts))] /\
    expression r = lit "1" /\
    latex r = lit "$F = 1$".
Proof.
  intros Hn Hrange Hne Hfull. destruct (minimizeKMapJS_returns opts Hn) as (r & Hr).
  exists r. split; [exact Hr|].
  destruct (full_map_primes opts r Hn Hrange Hr Hfull) as (p & Hp & Hpb).
  destruct (full_map_selection opts r Hn Hrange Hr Hfull Hne) as (q & Hq & Hqb).
  destruct (minimizeKMapJS_Returned opts r Hr)
    as (_ & _ & _ & _ & _ & _ & _ & _ & _ & _ & Hexpr & Hlatex).
  rewrite Hexpr, Hlatex, Hp, Hq. cbn [map join]. rewrite Hpb, Hqb.
  destruct (format_all_dashes (Z.to_nat (numInputs opts)) (effectiveVars opts))
    as [-> ->].
  repeat split.
Qed.

Lemma tautologyExample_full (m : Z) :
  fitsIn (numInputs tautologyExample) m ->
  In m (minterms tautologyExample) \/ In m (givenDontCares tautologyExample).
Proof.
  unfold fitsIn. cbn. intros Hm. left.
  assert (H : (m = 0 \/ m = 1 \/ m = 2 \/ m = 3)%Z) by lia.
  destruct H as [->|[->|[->| ->]]]; simpl; auto.
Defined.

Lemma tautologyExample_in_range : inRange tautologyExample.
Proof.
  split; repeat (apply Forall_cons; [unfold fitsIn; simpl; lia|]); constructor.
Defined.

Lemma full_map_gives_the_constant_one_witness :
  (2 <= numInputs tautologyExample <= 6)%Z /\ inRange tautologyExample /\
  minterms tautologyExample <> [] /\
  exists r,
    minimizeKMapJS tautologyExample = Returned r /\ expression r = lit "1".
Proof.
  assert (H : (2 <= numInputs tautologyExample <= 6)%Z) by (simpl; lia).
  assert (Hne : minterms tautologyExample <> []) by discriminate.
  split; [exact H|]. split; [exact tautologyExample_in_range|].
  split; [exact Hne|].
  destruct (full_map_gives_the_constant_one tautologyExample H
              tautologyExample_in_range Hne tautologyExample_full)
    as (r & Hr & _ & _ & He & _).
  exists r. split; [exact Hr|exact He].
Defined.
